(** * CGKR: counterfactual knowledge-graph recommender (cgkr/model.py)

    A shallow embedding of [cgkr/model.py], the properties its
    specification states about it (C1 to C10) and further properties of
    the code itself (X1 to X24): the two adjacencies, propagation, the
    counterfactual embedding, the rewards, the loss and the prediction
    cache.

    Conventions of the embedding.
    - Tensor entries are exact real numbers ([R]); float32 rounding, NaN and
      infinities are not represented.
    - A dense tensor is a shape together with its entries in row-major
      (contiguous) order, as PyTorch stores the result of every operation
      used by the model.
    - User and entity identifiers are natural numbers (the dataset layer
      hands out non-negative ids, 0 being the padding id).
    - A Python exception is a [Raise] in the [result] monad. *)

From Stdlib Require Import String.
From Stdlib Require Import Reals List Arith Bool Lia Lra Psatz Permutation.
Import ListNotations.

Set Implicit Arguments.

(** ** Exceptions *)

Inductive error : Type :=
| IndexError          (* index or dimension out of range *)
| RuntimeError        (* shape mismatch reported by torch *)
| TypeError           (* subscripting None *)
| KeyError            (* missing batch field *)
| ValueError          (* SciPy: coordinate outside the matrix *)
| ZeroDivisionError.  (* Python float division by zero *)

Inductive result (A : Type) : Type :=
| Ok (a : A)
| Raise (e : error).

Arguments Ok {A} a.
Arguments Raise {A} e.

Definition bind {A B : Type} (c : result A) (k : A -> result B) : result B :=
  match c with
  | Ok a => k a
  | Raise e => Raise e
  end.

Declare Scope result_scope.
Delimit Scope result_scope with result.
Notation "x <- c ;; k" := (bind c (fun x => k))
  (at level 61, c at next level, right associativity) : result_scope.
Notation "' pat <- c ;; k" := (bind c (fun x => match x with pat => k end))
  (at level 61, pat pattern, c at next level, right associativity) : result_scope.

Open Scope result_scope.

Fixpoint mapM {A B : Type} (f : A -> result B) (l : list A) : result (list B) :=
  match l with
  | [] => Ok []
  | a :: l' => b <- f a ;; bs <- mapM f l' ;; Ok (b :: bs)
  end.

(** Python list subscript [l[i]] for a non-negative [i]. *)
Definition py_nth {A : Type} (l : list A) (i : nat) : result A :=
  match nth_error l i with
  | Some a => Ok a
  | None => Raise IndexError
  end.

(** ** Dense tensors *)

Module Torch.

Record tensor (A : Type) : Type := mkTensor {
  shape : list nat;
  data : list A
}.

Arguments mkTensor {A} shape data.

Definition numel (s : list nat) : nat := fold_right Nat.mul 1 s.

Definition ndim {A} (t : tensor A) : nat := length (shape t).

(** Every tensor torch hands out has as many entries as its shape says. *)
Definition wf {A} (t : tensor A) : Prop := length (data t) = numel (shape t).

(** The [i]-th block of [width] consecutive entries. *)
Definition chunk {A} (width i : nat) (d : list A) : list A :=
  firstn width (skipn (i * width) d).

(** [t.unsqueeze(dim)] for [0 <= dim]. *)
Definition unsqueeze {A} (dim : nat) (t : tensor A) : result (tensor A) :=
  if dim <=? ndim t
  then Ok (mkTensor (firstn dim (shape t) ++ 1 :: skipn dim (shape t)) (data t))
  else Raise IndexError.

(** [t.squeeze()]: every dimension of size one is dropped. *)
Definition squeeze {A} (t : tensor A) : tensor A :=
  mkTensor (filter (fun n => negb (n =? 1)) (shape t)) (data t).

(** [table[idx]] with an integer tensor [idx], which is also the lookup
    [nn.Embedding] performs: the result has shape [idx.shape + table.shape[1:]]. *)
Definition index {A} (table : tensor A) (idx : tensor nat) : result (tensor A) :=
  match shape table with
  | [] => Raise IndexError
  | n :: rest =>
      if forallb (fun i => i <? n) (data idx)
      then Ok (mkTensor (shape idx ++ rest)
                        (flat_map (fun i => chunk (numel rest) i (data table)) (data idx)))
      else Raise IndexError
  end.

(** [t.view] and [torch.reshape] of a contiguous tensor to the extents
    [pre], then [-1], then [post]: the missing extent is inferred. *)
Definition view_infer {A} (pre post : list nat) (t : tensor A) : result (tensor A) :=
  let known := numel pre * numel post in
  let total := numel (shape t) in
  if known =? 0 then Raise RuntimeError
  else if total mod known =? 0
       then Ok (mkTensor (pre ++ total / known :: post) (data t))
       else Raise RuntimeError.

(** [t[:n]] along the first dimension. *)
Definition slice0 {A} (n : nat) (t : tensor A) : result (tensor A) :=
  match shape t with
  | [] => Raise IndexError
  | m :: rest => Ok (mkTensor (Nat.min n m :: rest) (firstn (Nat.min n m * numel rest) (data t)))
  end.

Definition list_eqb (a b : list nat) : bool :=
  if list_eq_dec Nat.eq_dec a b then true else false.

(** [torch.cat([a, b], dim=0)]. *)
Definition cat0 {A} (a b : tensor A) : result (tensor A) :=
  match shape a, shape b with
  | n :: ra, m :: rb =>
      if list_eqb ra rb
      then Ok (mkTensor (n + m :: ra) (data a ++ data b))
      else Raise RuntimeError
  | _, _ => Raise RuntimeError
  end.

(** [torch.split(t, [n1, n2])] along the first dimension. *)
Definition split2 {A} (t : tensor A) (n1 n2 : nat) : result (tensor A * tensor A) :=
  match shape t with
  | [] => Raise RuntimeError
  | m :: rest =>
      if n1 + n2 =? m
      then Ok (mkTensor (n1 :: rest) (firstn (n1 * numel rest) (data t)),
               mkTensor (n2 :: rest) (skipn (n1 * numel rest) (data t)))
      else Raise RuntimeError
  end.

(** [torch.stack(ts, dim=1)]: the tensors must share one shape of rank at
    least one; slot [i] of the result lists block [i] of every tensor. *)
Definition stack1 {A} (ts : list (tensor A)) : result (tensor A) :=
  match ts with
  | [] => Raise RuntimeError
  | t0 :: _ =>
      if forallb (fun t => list_eqb (shape t) (shape t0)) ts
      then match shape t0 with
           | [] => Raise IndexError
           | n :: rest =>
               Ok (mkTensor (n :: length ts :: rest)
                     (flat_map (fun i => flat_map (fun t => chunk (numel rest) i (data t)) ts)
                               (seq 0 n)))
           end
      else Raise RuntimeError
  end.

(** *** Broadcasting *)

(** Shapes are aligned at their last dimension; this works on the reversed
    shapes. *)
Fixpoint broadcast_rev (a b : list nat) : option (list nat) :=
  match a, b with
  | [], _ => Some b
  | _, [] => Some a
  | x :: a', y :: b' =>
      match broadcast_rev a' b' with
      | None => None
      | Some r =>
          if x =? y then Some (x :: r)
          else if x =? 1 then Some (y :: r)
          else if y =? 1 then Some (x :: r)
          else None
      end
  end.

Definition broadcast_shapes (a b : list nat) : option (list nat) :=
  option_map (@rev nat) (broadcast_rev (rev a) (rev b)).

(** Left-pad a shape with ones up to rank [r]. *)
Definition pad_shape (r : nat) (s : list nat) : list nat :=
  repeat 1 (r - length s) ++ s.

(** Entries of a tensor of shape [src] read at shape [dst] (same rank, every
    extent of [src] either equal to that of [dst] or one). *)
Fixpoint expand_data {A} (src dst : list nat) (d : list A) : list A :=
  match src, dst with
  | s :: src', n :: dst' =>
      if s =? n
      then flat_map (fun i => expand_data src' dst' (chunk (numel src') i d)) (seq 0 n)
      else concat (repeat (expand_data src' dst' d) n)
  | _, _ => d
  end.

Definition expand {A} (dst : list nat) (t : tensor A) : list A :=
  expand_data (pad_shape (length dst) (shape t)) dst (data t).

Fixpoint zip_with {A B C} (f : A -> B -> C) (l1 : list A) (l2 : list B) : list C :=
  match l1, l2 with
  | a :: l1', b :: l2' => f a b :: zip_with f l1' l2'
  | _, _ => []
  end.

(** An elementwise binary operator on two tensors. *)
Definition binop {A} (f : A -> A -> A) (a b : tensor A) : result (tensor A) :=
  match broadcast_shapes (shape a) (shape b) with
  | None => Raise RuntimeError
  | Some s => Ok (mkTensor s (zip_with f (expand s a) (expand s b)))
  end.

(** An elementwise function, or an operator with a Python scalar. *)
Definition pointwise {A B} (f : A -> B) (t : tensor A) : tensor B :=
  mkTensor (shape t) (map f (data t)).


(** *** Real-valued operators *)

Local Open Scope R_scope.

Definition Rsum (l : list R) : R := fold_right Rplus 0 l.

Definition Rmean (l : list R) : R := Rsum l / INR (length l).

(** The 2-norm of a list, [sqrt (sum |x|^2)]. *)
Definition norm2 (l : list R) : R := sqrt (Rsum (map (fun x => Rabs x * Rabs x) l)).

Definition sigmoid (x : R) : R := 1 / (1 + exp (- x)).

(** A reduction along dimension [dim]: the entries that differ only in
    their index along [dim] are collected, in order, and handed to [f].
    (Over an empty dimension torch's mean is NaN; here it is [0 / 0].) *)
Definition reduce (f : list R -> R) (dim : nat) (t : tensor R) : result (tensor R) :=
  if dim <? ndim t
  then
    let outer := numel (firstn dim (shape t)) in
    let n := nth dim (shape t) 0%nat in
    let inner := numel (skipn (S dim) (shape t)) in
    Ok (mkTensor (firstn dim (shape t) ++ skipn (S dim) (shape t))
          (flat_map (fun o =>
             map (fun k =>
               f (map (fun j => nth ((o * n + j) * inner + k) (data t) 0) (seq 0 n)))
               (seq 0 inner))
             (seq 0 outer)))
  else Raise IndexError.

(** [t.sum(dim=dim)], [torch.mean(t, dim=dim)], [torch.norm(t, dim=dim, p=2)]. *)
Definition sum_dim : nat -> tensor R -> result (tensor R) := reduce Rsum.
Definition mean_dim : nat -> tensor R -> result (tensor R) := reduce Rmean.
Definition norm_dim : nat -> tensor R -> result (tensor R) := reduce norm2.

(** [t.mean()]: the mean of all the entries, a zero-dimensional tensor. *)
Definition mean_all (t : tensor R) : R := Rmean (data t).

(** [torch.mul], [+] and [-] on two tensors. *)
Definition mul : tensor R -> tensor R -> result (tensor R) := binop Rmult.
Definition add : tensor R -> tensor R -> result (tensor R) := binop Rplus.
Definition sub : tensor R -> tensor R -> result (tensor R) := binop Rminus.

(** [t.transpose(0, 1)], materialised in row-major order. *)
Definition transpose01 (t : tensor R) : result (tensor R) :=
  match shape t with
  | m :: n :: rest =>
      Ok (mkTensor (n :: m :: rest)
            (flat_map (fun j =>
               flat_map (fun i => chunk (numel rest) (i * n + j) (data t)) (seq 0 m))
               (seq 0 n)))
  | _ => Raise IndexError
  end.

(** [torch.matmul(a, b)] for a matrix [b] and a tensor [a] of rank at least
    one, whose last dimension is contracted with the rows of [b]. *)
Definition matmul (a b : tensor R) : result (tensor R) :=
  match shape b, rev (shape a) with
  | [k'; n], k :: pre_rev =>
      if (k =? k')%nat
      then Ok (mkTensor (rev pre_rev ++ [n])
                 (flat_map (fun i =>
                    map (fun j =>
                      Rsum (map (fun c => nth (i * k + c) (data a) 0 * nth (c * n + j) (data b) 0)
                                (seq 0 k)))
                      (seq 0 n))
                    (seq 0 (numel (rev pre_rev)))))
      else Raise RuntimeError
  | _, _ => Raise RuntimeError   (* the right operand is a matrix in the model *)
  end.

(** *** Sparse matrices in coordinate format *)

Record sparse : Type := mkSparse {
  nrows : nat;
  ncols : nat;
  entries : list (nat * nat * R)      (* row, column, value *)
}.

Definition row_entries (i : nat) (es : list (nat * nat * R)) : list (nat * nat * R) :=
  filter (fun e => fst (fst e) =? i)%nat es.

(** Entries of [a * x] for a dense [x] with [d] columns; entries of [a]
    that share their coordinates add up, as in torch. *)
Definition spmm_data (a : sparse) (d : nat) (x : list R) : list R :=
  flat_map (fun i =>
    map (fun k => Rsum (map (fun e => snd e * nth (snd (fst e) * d + k) x 0)
                            (row_entries i (entries a))))
        (seq 0 d))
    (seq 0 (nrows a)).

(** [torch.sparse.mm(a, x)]. *)
Definition sparse_mm (a : sparse) (x : tensor R) : result (tensor R) :=
  match shape x with
  | [n; d] =>
      if (ncols a =? n)%nat
      then Ok (mkTensor [nrows a; d] (spmm_data a d (data x)))
      else Raise RuntimeError
  | _ => Raise RuntimeError
  end.

End Torch.

Import Torch.
Open Scope R_scope.

(** ** SciPy sparse matrices and Python dictionaries *)

Module Scipy.

(** A Python [dict] keyed by (row, column): insertion order is kept and
    writing an existing key replaces its value in place. *)
Definition dict : Type := list ((nat * nat) * R).

Definition key_eqb (a b : nat * nat) : bool :=
  ((fst a =? fst b) && (snd a =? snd b))%nat.

Fixpoint dict_set (k : nat * nat) (v : R) (d : dict) : dict :=
  match d with
  | [] => [(k, v)]
  | (k', v') :: d' =>
      if key_eqb k k' then (k', v) :: d' else (k', v') :: dict_set k v d'
  end.

(** [d.update(other)], and [dict(pairs)] when [d] is empty. *)
Definition dict_update (d : dict) (kvs : list ((nat * nat) * R)) : dict :=
  fold_left (fun acc kv => dict_set (fst kv) (snd kv) acc) kvs d.

Definition dict_of (kvs : list ((nat * nat) * R)) : dict := dict_update [] kvs.

(** [sp.dok_matrix((rows, cols))] after [_update]. *)
Record dok_matrix : Type := mkDok {
  dok_rows : nat;
  dok_cols : nat;
  dok_dict : dict
}.

(** [sp.coo_matrix]: the stored (row, column, value) triples. *)
Definition coo_matrix : Type := sparse.

(** [(adj > 0).sum(axis=1)] at row [i]: how many stored entries of the row
    are positive. *)
Definition positive_count (adj : dok_matrix) (i : nat) : nat :=
  length (filter (fun kv => ((fst (fst kv) =? i)%nat
                             && if Rlt_dec 0 (snd kv) then true else false))
                 (dok_dict adj)).

End Scipy.

Import Scipy.

(** [norm_adj]: [d * adj * d] with [d] the diagonal of
    [(positive_count + 1e-7) ** -0.5].  (The order in which SciPy stores
    the triples of the product plays no part in exact arithmetic; they are
    listed in dictionary order.) *)
Definition norm_diag (adj : dok_matrix) (i : nat) : R :=
  Rpower (INR (positive_count adj i) + 1e-7) (- 0.5).

Definition norm_adj (adj : dok_matrix) : coo_matrix :=
  mkSparse (dok_rows adj) (dok_cols adj)
    (map (fun kv => (fst (fst kv), snd (fst kv),
                     norm_diag adj (fst (fst kv)) * snd kv * norm_diag adj (snd (fst kv))))
         (dok_dict adj)).

(** [sp.coo_matrix(adj)] of a [dok_matrix], the first step of
    [convert_to_tensor] in [get_kg_adj]: the entries in dictionary order. *)
Definition dok_to_coo (adj : dok_matrix) : coo_matrix :=
  mkSparse (dok_rows adj) (dok_cols adj)
    (map (fun kv => (fst (fst kv), snd (fst kv), snd kv)) (dok_dict adj)).

(** The same conversion when the column of a key is a zero-dimensional
    tensor: the key holds the object, numbered by its position in
    [data_col], and the conversion reads the id the object holds. *)
Definition tensor_dok_to_coo (data_col : list nat) (adj : dok_matrix) : coo_matrix :=
  mkSparse (dok_rows adj) (dok_cols adj)
    (map (fun kv => (fst (fst kv), nth (snd (fst kv)) data_col 0%nat, snd kv))
         (dok_dict adj)).

(** Every coordinate lies inside the declared size. *)
Definition in_range (m : coo_matrix) : bool :=
  forallb (fun e => (fst (fst e) <? nrows m) && (snd (fst e) <? ncols m))%nat (entries m).

(** [convert_to_tensor]: the same triples, as a torch sparse tensor.
    SciPy raises ValueError when a matrix with a coordinate outside its
    declared size is converted: in [sp.coo_matrix] here for the matrix of
    [get_kg_adj], and already at the first conversion inside [norm_adj] for
    the matrix of [get_ui_adj]; in both callers this is the error the call
    ends with, and the check of torch behind it cannot fail. *)
Definition convert_to_tensor (laplace_adj : coo_matrix) : result sparse :=
  if in_range laplace_adj then Ok laplace_adj else Raise ValueError.

(** ** The loss modules the model instantiates *)

(** [recbole.model.loss.BPRLoss()]:
    [-torch.log(gamma + torch.sigmoid(pos_score - neg_score)).mean()]
    with its default [gamma = 1e-10]. *)
Definition BPRLoss (pos_score neg_score : tensor R) : result R :=
  d <- sub pos_score neg_score ;;
  Ok (- mean_all (pointwise (fun x => ln (1e-10 + sigmoid x)) d)).

(** [torch.nn.L1Loss()]: the mean absolute difference. *)
Definition L1Loss (input target : tensor R) : result R :=
  d <- sub input target ;;
  Ok (mean_all (pointwise Rabs d)).

(** ** The model *)

(** The entries of [config] the model reads. *)
Record Config : Type := mkConfig {
  cfg_embedding_size : nat;
  cfg_n_kg_layers : nat;
  cfg_n_ui_layers : nat;
  cfg_cf_pos_flag : bool;
  cfg_cf_neg_flag : bool;
  cfg_max_neighbor_size : nat;
  cfg_cf_loss_function : string;
  cfg_cf_pos_weight : R;
  cfg_cf_neg_weight : R;
  cfg_ib_beta : R
}.

(** What the model reads from the dataset: the three table sizes and
    [inter_matrix(form='coo')]. *)
Record Dataset : Type := mkDataset {
  ds_n_users : nat;
  ds_n_items : nat;
  ds_n_entities : nat;
  ds_inter_matrix : coo_matrix
}.

(** The attributes of a [CGKR] instance.  [user_embedding] and
    [entity_embedding] are the weights of the two [nn.Embedding] tables.
    [forward_calls] is a ghost counter: it records how many times [forward]
    has run, so that a statement can tell whether propagation was
    recomputed. *)
Record CGKR : Type := mkCGKR {
  embedding_size : nat;
  n_kg_layers : nat;
  n_ui_layers : nat;
  cf_pos_flag : bool;
  cf_neg_flag : bool;
  max_neighbor_size : nat;
  cf_loss_function : string;
  cf_pos_weight : R;
  cf_neg_weight : R;
  ib_beta : R;
  n_users : nat;
  n_items : nat;
  n_entities : nat;
  ui_adj : sparse;
  kg_adj : sparse;
  user_embedding : tensor R;
  entity_embedding : tensor R;
  restore_user_e : option (tensor R);
  restore_item_e : option (tensor R);
  forward_calls : nat
}.

(** A batch: the three id columns every pairwise batch has, and the two
    neighbor tables the trainer attaches when counterfactual generation is on. *)
Record Interaction : Type := mkInteraction {
  USER_ID : tensor nat;
  ITEM_ID : tensor nat;
  NEG_ITEM_ID : tensor nat;
  cf_pos_kg_neighbors : option (tensor nat);
  cf_neg_kg_neighbors : option (tensor nat)
}.

Definition get_field {A} (f : option A) : result A :=
  match f with
  | Some a => Ok a
  | None => Raise KeyError
  end.

(** [get_ui_adj], given the table sizes read from [self]. *)
Definition ui_dok (n_users n_items : nat) (ui_graph : coo_matrix) : dok_matrix :=
  let row := map (fun e => fst (fst e)) (entries ui_graph) in
  let col := map (fun e => snd (fst e)) (entries ui_graph) in
  let nnz := length (entries ui_graph) in
  let data_dict :=
    dict_of (combine (combine row (map (fun c => c + n_users)%nat col)) (repeat 1 nnz)) in
  let data_dict :=
    dict_update data_dict
      (dict_of (combine (combine (map (fun c => c + n_users)%nat col) row) (repeat 1 nnz))) in
  mkDok (n_users + n_items) (n_users + n_items) data_dict.

Definition get_ui_adj (n_users n_items : nat) (ui_graph : coo_matrix) : result sparse :=
  convert_to_tensor (norm_adj (ui_dok n_users n_items ui_graph)).

(** The dataset method [kg_neighbors] that builds the raw table is not
    among the sources, so the Python type of the table is a parameter of
    [get_kg_adj] and of [__init__].  With a [torch.LongTensor] table (the
    type [get_batch_neighbors] needs for the tables it indexes) the loop
    variable [c] is a zero-dimensional tensor: it hashes by identity, so
    every slot is a dictionary key of its own.  With a table of plain
    integers (nested lists) two slots with the same id are the same key. *)
Inductive slot_kind : Type :=
| TensorSlots   (* the table is a torch.LongTensor *)
| IntSlots.     (* the table holds Python integers *)

(** [kg_neighbors[i]] for a Python integer [i], whose entries the loop
    then visits. *)
Definition table_row (kg_neighbors : tensor nat) (i : nat) : result (list nat) :=
  match shape kg_neighbors with
  | [n; m] => if (i <? n)%nat then Ok (chunk m i (data kg_neighbors)) else Raise IndexError
  | _ => Raise IndexError
  end.

(** The two nested loops of [get_kg_adj]: [data_row] and [data_col] zipped,
    one (row, column) pair for every slot that does not hold the padding
    id, in visiting order. *)
Fixpoint kg_edges (kg_neighbors : tensor nat) (rows : list nat) : result (list (nat * nat)) :=
  match rows with
  | [] => Ok []
  | i :: rows' =>
      r <- table_row kg_neighbors i ;;
      rest <- kg_edges kg_neighbors rows' ;;
      Ok (map (fun c => (i, c)) (filter (fun c => negb (c =? 0)%nat) r) ++ rest)
  end.

(** The dictionary of a table of plain integers: the keys are the
    (row, column) pairs themselves, and a pair that comes up again is the
    key already there. *)
Definition kg_dok (n_entities max_neighbor_size : nat) (kg_neighbors : tensor nat)
  : result dok_matrix :=
  edges <- kg_edges kg_neighbors (seq 0 n_entities) ;;
  if (max_neighbor_size =? 0)%nat then Raise ZeroDivisionError
  else
    let data_dict :=
      dict_of (combine edges (repeat (1 / INR max_neighbor_size) (length edges))) in
    Ok (mkDok n_entities n_entities data_dict).

(** The dictionary of a tensor table: the key of the [k]-th collected slot
    is its row with the [k]-th object of [data_col].  The objects are all
    alive in [data_col], so no two of them share an identity. *)
Definition kg_dok_tensor (n_entities max_neighbor_size : nat) (kg_neighbors : tensor nat)
  : result (list nat * dok_matrix) :=
  edges <- kg_edges kg_neighbors (seq 0 n_entities) ;;
  if (max_neighbor_size =? 0)%nat then Raise ZeroDivisionError
  else
    let data_row := map fst edges in
    let data_col := map snd edges in
    let keys := combine data_row (seq 0 (length data_col)) in
    let data_dict :=
      dict_of (combine keys (repeat (1 / INR max_neighbor_size) (length data_row))) in
    Ok (data_col, mkDok n_entities n_entities data_dict).

Definition get_kg_adj (slots : slot_kind) (n_entities max_neighbor_size : nat)
    (kg_neighbors : tensor nat) : result sparse :=
  match slots with
  | IntSlots =>
      adj <- kg_dok n_entities max_neighbor_size kg_neighbors ;;
      convert_to_tensor (dok_to_coo adj)
  | TensorSlots =>
      ' (data_col, adj) <- kg_dok_tensor n_entities max_neighbor_size kg_neighbors ;;
      convert_to_tensor (tensor_dok_to_coo data_col adj)
  end.

(** The loop of [through_graph]: [acc] is [all_embeddings_list]. *)
Fixpoint propagate_layers (adj : sparse) (n_layers : nat) (all_embeddings : tensor R)
    (acc : list (tensor R)) : result (list (tensor R)) :=
  match n_layers with
  | O => Ok acc
  | S n =>
      nxt <- sparse_mm adj all_embeddings ;;
      propagate_layers adj n nxt (acc ++ [nxt])
  end.

Definition through_graph (adj : sparse) (all_embeddings : tensor R) (n_layers : nat)
  : result (tensor R) :=
  all_embeddings_list <- propagate_layers adj n_layers all_embeddings [all_embeddings] ;;
  stacked <- stack1 all_embeddings_list ;;
  mean_dim 1 stacked.

(** [nn.Embedding(num, dim, padding_idx=0)] initialised by
    [xavier_normal_initialization], whose draws are the stream [draw].  The
    constructor zeroes [weight[padding_idx]], which raises IndexError on an
    empty table. *)
Definition new_embedding (num dim : nat) (draw : nat -> R) : result (tensor R) :=
  if (0 <? num)%nat
  then Ok (mkTensor [num; dim] (map draw (seq 0 (num * dim))))
  else Raise IndexError.

(** [weight.data[0].fill_(0)]. *)
Definition fill_row0 (w : tensor R) : result (tensor R) :=
  match shape w with
  | [] => Raise IndexError
  | n :: rest =>
      if (0 <? n)%nat
      then Ok (mkTensor (shape w) (repeat 0 (numel rest) ++ skipn (numel rest) (data w)))
      else Raise IndexError
  end.

(** [CGKR.__init__]; [draw_user] and [draw_entity] stand for the random
    draws of the initialiser, [slots] for the Python type of the raw
    table. *)
Definition init (slots : slot_kind) (config : Config) (dataset : Dataset)
    (raw_kg_neighbors : tensor nat) (draw_user draw_entity : nat -> R) : result CGKR :=
  let ui_graph := ds_inter_matrix dataset in
  ui <- get_ui_adj (ds_n_users dataset) (ds_n_items dataset) ui_graph ;;
  kg <- get_kg_adj slots (ds_n_entities dataset) (cfg_max_neighbor_size config)
          raw_kg_neighbors ;;
  ue <- new_embedding (ds_n_users dataset) (cfg_embedding_size config) draw_user ;;
  ee <- new_embedding (ds_n_entities dataset) (cfg_embedding_size config) draw_entity ;;
  ee0 <- fill_row0 ee ;;
  ue0 <- fill_row0 ue ;;
  Ok (mkCGKR (cfg_embedding_size config) (cfg_n_kg_layers config) (cfg_n_ui_layers config)
        (cfg_cf_pos_flag config) (cfg_cf_neg_flag config) (cfg_max_neighbor_size config)
        (cfg_cf_loss_function config) (cfg_cf_pos_weight config) (cfg_cf_neg_weight config)
        (cfg_ib_beta config)
        (ds_n_users dataset) (ds_n_items dataset) (ds_n_entities dataset)
        ui kg ue0 ee0 None None 0).

(** [forward]: the model's attributes are returned too, with the ghost
    counter advanced. *)
Definition forward (self : CGKR) : result ((tensor R * tensor R) * CGKR) :=
  (* through kg *)
  let entity_embeddings := entity_embedding self in
  entity_embeddings <- through_graph (kg_adj self) entity_embeddings (n_kg_layers self) ;;
  (* through ui-graph *)
  item_embeddings <- slice0 (n_items self) entity_embeddings ;;
  let user_embeddings := user_embedding self in
  ui_embeddings <- cat0 user_embeddings item_embeddings ;;
  ui_embeddings <- through_graph (ui_adj self) ui_embeddings (n_ui_layers self) ;;
  ' (user_embeddings, _) <- split2 ui_embeddings (n_users self) (n_items self) ;;
  Ok ((user_embeddings, entity_embeddings),
      mkCGKR (embedding_size self) (n_kg_layers self) (n_ui_layers self)
        (cf_pos_flag self) (cf_neg_flag self) (max_neighbor_size self)
        (cf_loss_function self) (cf_pos_weight self) (cf_neg_weight self) (ib_beta self)
        (n_users self) (n_items self) (n_entities self) (ui_adj self) (kg_adj self)
        (user_embedding self) (entity_embedding self)
        (restore_user_e self) (restore_item_e self) (S (forward_calls self))).

(** [items.shape[0]]. *)
Definition shape0 {A} (t : tensor A) : result nat :=
  match shape t with
  | [] => Raise IndexError
  | n :: _ => Ok n
  end.

(** The loop of [get_batch_neighbors]: [n] iterations are left and [i] is
    the loop variable. *)
Fixpoint batch_neighbors_loop (kg_neighbors : tensor nat) (batch_size n i : nat)
    (entities : list (tensor nat)) : result (list (tensor nat)) :=
  match n with
  | O => Ok entities
  | S n' =>
      e <- py_nth entities i ;;
      nb <- index kg_neighbors e ;;
      v <- view_infer [batch_size] [] nb ;;
      batch_neighbors_loop kg_neighbors batch_size n' (S i) (entities ++ [v])
  end.

Definition get_batch_neighbors (self : CGKR) (items kg_neighbors : tensor nat)
  : result (list (tensor nat)) :=
  batch_size <- shape0 items ;;
  e0 <- unsqueeze 1 items ;;
  batch_neighbors_loop kg_neighbors batch_size (n_kg_layers self) 0 [e0].

(** The inner loop of [get_cf_i_embeddings] over [hop]; [acc] is
    [entity_vectors_next_iter]. *)
Fixpoint hop_loop (self : CGKR) (batch_size : nat) (entity_vectors : list (tensor R))
    (n hop : nat) (acc : list (tensor R)) : result (list (tensor R)) :=
  match n with
  | O => Ok acc
  | S n' =>
      ev <- py_nth entity_vectors (hop + 1) ;;
      neighbor_vectors <-
        view_infer [batch_size] [max_neighbor_size self; embedding_size self] ev ;;
      neighbor_vectors <- mean_dim 2 neighbor_vectors ;;
      hop_loop self batch_size entity_vectors n' (S hop) (acc ++ [neighbor_vectors])
  end.

(** The outer loop of [get_cf_i_embeddings] over [i]. *)
Fixpoint layer_loop (self : CGKR) (batch_size : nat) (n i : nat)
    (entity_vectors item_embeddings_list : list (tensor R)) : result (list (tensor R)) :=
  match n with
  | O => Ok item_embeddings_list
  | S n' =>
      entity_vectors <-
        hop_loop self batch_size entity_vectors (n_kg_layers self - i) 0 [] ;;
      e0 <- py_nth entity_vectors 0 ;;
      layer_loop self batch_size n' (S i) entity_vectors
        (item_embeddings_list ++ [squeeze e0])
  end.

Definition get_cf_i_embeddings (self : CGKR) (items kg_neighbors : tensor nat)
  : result (tensor R) :=
  batch_size <- shape0 items ;;
  entities <- get_batch_neighbors self items kg_neighbors ;;
  entity_vectors <- mapM (index (entity_embedding self)) entities ;;
  e0 <- py_nth entity_vectors 0 ;;
  item_embeddings_list <-
    layer_loop self batch_size (n_kg_layers self) 0 entity_vectors [squeeze e0] ;;
  item_embeddings <- stack1 item_embeddings_list ;;
  mean_dim 1 item_embeddings.

Definition get_bpr_loss (self : CGKR) (pos_scores neg_scores : tensor R) : result R :=
  BPRLoss pos_scores neg_scores.

(** [self.restore_user_e, self.restore_item_e = a, b]. *)
Definition set_restore (self : CGKR) (a b : option (tensor R)) : CGKR :=
  mkCGKR (embedding_size self) (n_kg_layers self) (n_ui_layers self)
    (cf_pos_flag self) (cf_neg_flag self) (max_neighbor_size self)
    (cf_loss_function self) (cf_pos_weight self) (cf_neg_weight self) (ib_beta self)
    (n_users self) (n_items self) (n_entities self) (ui_adj self) (kg_adj self)
    (user_embedding self) (entity_embedding self) a b (forward_calls self).

Definition is_some {A} (o : option A) : bool :=
  match o with Some _ => true | None => false end.

(** Subscripting an argument that may be [None]. *)
Definition subscript (t : option (tensor R)) (idx : tensor nat) : result (tensor R) :=
  match t with
  | Some t => index t idx
  | None => Raise TypeError
  end.

Definition calculate_loss (self : CGKR) (interaction : Interaction)
    (user_all_embeddings entity_all_embeddings : option (tensor R))
  : result (list R * CGKR) :=
  let self :=
    if is_some (restore_user_e self) || is_some (restore_item_e self)
    then set_restore self None None else self in
  let users := USER_ID interaction in
  let pos_items := ITEM_ID interaction in
  let neg_items := NEG_ITEM_ID interaction in
  ' (user_all_embeddings, entity_all_embeddings, self) <-
      match user_all_embeddings with
      | None => ' (u, e, self') <- forward self ;; Ok (Some u, Some e, self')
      | Some _ => Ok (user_all_embeddings, entity_all_embeddings, self)
      end ;;
  u_embeddings <- subscript user_all_embeddings users ;;
  posi_embeddings <- subscript entity_all_embeddings pos_items ;;
  negi_embeddings <- subscript entity_all_embeddings neg_items ;;
  pos_scores <- (m <- mul u_embeddings posi_embeddings ;; sum_dim 1 m) ;;
  neg_scores <- (m <- mul u_embeddings negi_embeddings ;; sum_dim 1 m) ;;
  (* BPR Loss *)
  bpr_loss <- get_bpr_loss self pos_scores neg_scores ;;
  (* CF Loss *)
  let losses := [bpr_loss] in
  losses <-
    (if cf_pos_flag self
     then
       table <- get_field (cf_pos_kg_neighbors interaction) ;;
       cf_posi_embeddings <- get_cf_i_embeddings self pos_items table ;;
       cf_pos_scores <- (m <- mul u_embeddings cf_posi_embeddings ;; sum_dim 1 m) ;;
       cf_pos_loss <-
         (if String.eqb (cf_loss_function self) "mae"
          then L1Loss pos_scores cf_pos_scores
          else get_bpr_loss self cf_pos_scores neg_scores) ;;
       Ok (losses ++ [cf_pos_weight self * cf_pos_loss])
     else Ok losses) ;;
  losses <-
    (if cf_neg_flag self
     then
       table <- get_field (cf_neg_kg_neighbors interaction) ;;
       cf_negi_embeddings <- get_cf_i_embeddings self neg_items table ;;
       cf_neg_scores <- (m <- mul u_embeddings cf_negi_embeddings ;; sum_dim 1 m) ;;
       cf_neg_loss <-
         (if String.eqb (cf_loss_function self) "mae"
          then L1Loss neg_scores cf_neg_scores
          else get_bpr_loss self pos_scores cf_neg_scores) ;;
       Ok (losses ++ [cf_neg_weight self * cf_neg_loss])
     else Ok losses) ;;
  Ok (losses, self).

(** [scores.view(-1)]. *)
Definition view_flat (t : tensor R) : result (tensor R) := view_infer [] [] t.

Definition full_sort_predict (self : CGKR) (interaction : Interaction)
  : result (tensor R * CGKR) :=
  self <-
    (match restore_user_e self, restore_item_e self with
     | Some _, Some _ => Ok self
     | _, _ =>
         ' (u, restore_entity_e, self') <- forward self ;;
         let self' := set_restore self' (Some u) (restore_item_e self') in
         items <- slice0 (n_items self') restore_entity_e ;;
         Ok (set_restore self' (restore_user_e self') (Some items))
     end) ;;
  let user := USER_ID interaction in
  (* get user embedding from storage variable *)
  u_embeddings <- subscript (restore_user_e self) user ;;
  (* dot with all item embedding to accelerate *)
  item_t <- match restore_item_e self with
            | Some t => transpose01 t
            | None => Raise TypeError
            end ;;
  scores <- matmul u_embeddings item_t ;;
  flat <- view_flat scores ;;
  Ok (flat, self).

Definition get_reward1 (self : CGKR) (scores1 scores2 embeddings : tensor R)
  : result (tensor R) :=
  let gamma := 1e-10 in
  d <- sub scores1 scores2 ;;
  let part1 := pointwise (fun x => ln (gamma + sigmoid x)) d in
  (* l2-normalization *)
  n <- norm_dim 1 embeddings ;;
  let part2 := pointwise Ropp n in
  add part1 (pointwise (Rmult (ib_beta self)) part2).

Definition get_reward2 (self : CGKR) (scores1 scores2 : tensor R) : result (tensor R) :=
  let gamma := 1e-10 in
  d <- sub scores1 scores2 ;;
  let reward := pointwise (fun x => ln (gamma + sigmoid x)) d in
  Ok reward.

(** The two reward entry points assign no attribute: the model they hand
    back is the one they were called on. *)
Definition generate_pos_reward (self : CGKR) (interaction : Interaction)
    (kg_neighbors1 kg_neighbors2 : tensor nat)
    (user_all_embeddings entity_all_embeddings : tensor R)
  : result ((tensor R * tensor R) * CGKR) :=
  let users := USER_ID interaction in
  let pos_items := ITEM_ID interaction in
  let neg_items := NEG_ITEM_ID interaction in
  u_embeddings <- index user_all_embeddings users ;;
  posi_embeddings <- index entity_all_embeddings pos_items ;;
  negi_embeddings <- index entity_all_embeddings neg_items ;;
  pos_scores <- (m <- mul u_embeddings posi_embeddings ;; sum_dim 1 m) ;;
  neg_scores <- (m <- mul u_embeddings negi_embeddings ;; sum_dim 1 m) ;;
  (* generate reward1 *)
  cf_posi_embeddings1 <- get_cf_i_embeddings self pos_items kg_neighbors1 ;;
  cf_pos_scores1 <- (m <- mul u_embeddings cf_posi_embeddings1 ;; sum_dim 1 m) ;;
  reward1 <- get_reward1 self cf_pos_scores1 neg_scores cf_posi_embeddings1 ;;
  (* generate reward2 *)
  cf_posi_embeddings2 <- get_cf_i_embeddings self pos_items kg_neighbors2 ;;
  cf_pos_scores2 <- (m <- mul u_embeddings cf_posi_embeddings2 ;; sum_dim 1 m) ;;
  reward2 <- get_reward2 self pos_scores cf_pos_scores2 ;;
  Ok ((reward1, reward2), self).

Definition generate_neg_reward (self : CGKR) (interaction : Interaction)
    (kg_neighbors1 kg_neighbors2 : tensor nat)
    (user_all_embeddings entity_all_embeddings : tensor R)
  : result ((tensor R * tensor R) * CGKR) :=
  let users := USER_ID interaction in
  let pos_items := ITEM_ID interaction in
  let neg_items := NEG_ITEM_ID interaction in
  u_embeddings <- index user_all_embeddings users ;;
  posi_embeddings <- index entity_all_embeddings pos_items ;;
  negi_embeddings <- index entity_all_embeddings neg_items ;;
  pos_scores <- (m <- mul u_embeddings posi_embeddings ;; sum_dim 1 m) ;;
  neg_scores <- (m <- mul u_embeddings negi_embeddings ;; sum_dim 1 m) ;;
  (* generate reward1 *)
  cf_negi_embeddings1 <- get_cf_i_embeddings self neg_items kg_neighbors1 ;;
  cf_neg_scores1 <- (m <- mul u_embeddings cf_negi_embeddings1 ;; sum_dim 1 m) ;;
  reward1 <- get_reward1 self pos_scores cf_neg_scores1 cf_negi_embeddings1 ;;
  (* generate reward2 *)
  cf_negi_embeddings2 <- get_cf_i_embeddings self neg_items kg_neighbors2 ;;
  cf_neg_scores2 <- (m <- mul u_embeddings cf_negi_embeddings2 ;; sum_dim 1 m) ;;
  reward2 <- get_reward2 self cf_neg_scores2 neg_scores ;;
  Ok ((reward1, reward2), self).

(** ** Vocabulary of the statements *)

(** Row [i] of a tensor whose first dimension indexes rows. *)
Definition row (t : tensor R) (i : nat) : list R :=
  chunk (numel (tl (shape t))) i (data t).

(** Entry [i] of a vector. *)
Definition at_ (t : tensor R) (i : nat) : R := nth i (data t) 0.

(** The dot product of two rows. *)
Definition dot (u v : list R) : R := Rsum (zip_with Rmult u v).


(** The tensors of [ts] all have shape [s] and as many entries. *)
Definition all_shaped (s : list nat) (ts : list (tensor R)) : Prop :=
  Forall (fun t => shape t = s /\ wf t) ts.

(** Entry [p] of the mean of the tensors [ts]. *)
Definition mean_at (ts : list (tensor R)) (p : nat) : R :=
  Rmean (map (fun t => nth p (data t) 0) ts).

(** [A^l * E]: [l] sparse products applied to [E]. *)
Definition layer (adj : sparse) (E : tensor R) (l : nat) : tensor R :=
  mkTensor (shape E) (Nat.iter l (spmm_data adj (nth 1 (shape E) 0%nat)) (data E)).

(** The entrywise mean of tensors of one shape. *)
Definition tensor_mean (ts : list (tensor R)) : tensor R :=
  match ts with
  | [] => mkTensor [] []
  | t0 :: _ => mkTensor (shape t0) (map (mean_at ts) (seq 0 (numel (shape t0))))
  end.

(** Hop level [k] of the expansion of [items] through the table
    [kg_neighbors] with [m] slots per entity: level 0 lists the items, one
    per row, and level [k + 1] lists, for every entity of level [k] in order,
    its [m] slots. *)
Fixpoint hop (kg_neighbors items : tensor nat) (b m k : nat) : tensor nat :=
  match k with
  | O => mkTensor [b; 1%nat] (data items)
  | S k' =>
      mkTensor [b; (m ^ k)%nat]
        (flat_map (fun e => chunk m e (data kg_neighbors))
                  (data (hop kg_neighbors items b m k')))
  end.

(** Every id stored in [t] is below [n]. *)
Definition ids_below (n : nat) (t : tensor nat) : Prop :=
  Forall (fun i => (i < n)%nat) (data t).

(** The sum of the stored entries of row [i]. *)
Definition row_sum (a : sparse) (i : nat) : R :=
  Rsum (map (fun e => snd e) (row_entries i (entries a))).

(** The number of stored entries of row [i]. *)
Definition degree (a : sparse) (i : nat) : nat := length (row_entries i (entries a)).

(** The uniform average, over the [m] neighbor slots of entity [i] in the
    table, of the rows of [E] that the slots name ([d] columns). *)
Definition slot_average (kg_neighbors : tensor nat) (m d : nat) (E : list R) (i : nat)
  : list R :=
  map (fun k => Rsum (map (fun c => nth (c * d + k) E 0) (chunk m i (data kg_neighbors)))
                / INR m)
      (seq 0 d).

(** Row 0 of both embedding tables is the zero vector. *)
Definition zero_row0 (t : tensor R) : Prop :=
  row t 0 = repeat 0 (numel (tl (shape t))).

Definition padding_rows_zero (self : CGKR) : Prop :=
  zero_row0 (user_embedding self) /\ zero_row0 (entity_embedding self).

(** The two embedding tables of [self'] are those of [self]. *)
Definition same_tables (self self' : CGKR) : Prop :=
  user_embedding self' = user_embedding self
  /\ entity_embedding self' = entity_embedding self.

(** The scores of a batch: the dot product of each user's row of [U] with
    the row of [E] of the item on the same line. *)
Definition pair_scores (U E : tensor R) (users items : tensor nat) : result (tensor R) :=
  u <- index U users ;;
  e <- index E items ;;
  m <- mul u e ;;
  sum_dim 1 m.


(** [get_cf_i_embeddings] reads four attributes of the model. *)
Definition same_cf_attributes (s1 s2 : CGKR) : Prop :=
  n_kg_layers s1 = n_kg_layers s2
  /\ max_neighbor_size s1 = max_neighbor_size s2
  /\ embedding_size s1 = embedding_size s2
  /\ entity_embedding s1 = entity_embedding s2.

(** The tensors of [vs] are the embedded hop levels: the one at position
    [k] has shape [b; m ^ k; d]. *)
Definition vectors_shaped (b m d : nat) (vs : list (tensor R)) : Prop :=
  forall k t, nth_error vs k = Some t -> shape t = [b; (m ^ k)%nat; d] /\ wf t.

(** The row of [T] that line [i] of the id column [ids] names. *)
Definition batch_row (T : tensor R) (ids : tensor nat) (i : nat) : list R :=
  row T (nth i (data ids) 0%nat).

(** A call is well shaped when the batch has [b >= 2] lines, the embedding
    size is [d >= 2], the tables handed over are matrices with [d] columns,
    the two neighbor tables are matrices of [max_neighbor_size >= 1] slots,
    and every id indexes the tables it is looked up in. *)
Definition well_shaped_batch (self : CGKR) (interaction : Interaction)
    (kg_neighbors1 kg_neighbors2 : tensor nat) (U E : tensor R) (b d : nat) : Prop :=
  exists m n ne nu nE,
    max_neighbor_size self = m /\ embedding_size self = d
    /\ shape (entity_embedding self) = [ne; d]%nat /\ wf (entity_embedding self)
    /\ shape U = [nu; d]%nat /\ wf U /\ shape E = [nE; d]%nat /\ wf E
    /\ shape (USER_ID interaction) = [b] /\ wf (USER_ID interaction)
    /\ ids_below nu (USER_ID interaction)
    /\ shape (ITEM_ID interaction) = [b] /\ wf (ITEM_ID interaction)
    /\ ids_below (Nat.min nE (Nat.min n ne)) (ITEM_ID interaction)
    /\ shape (NEG_ITEM_ID interaction) = [b] /\ wf (NEG_ITEM_ID interaction)
    /\ ids_below (Nat.min nE (Nat.min n ne)) (NEG_ITEM_ID interaction)
    /\ shape kg_neighbors1 = [n; m]%nat /\ wf kg_neighbors1
    /\ ids_below (Nat.min n ne) kg_neighbors1
    /\ shape kg_neighbors2 = [n; m]%nat /\ wf kg_neighbors2
    /\ ids_below (Nat.min n ne) kg_neighbors2
    /\ (2 <= b)%nat /\ (2 <= d)%nat /\ (1 <= m)%nat.

(** The coordinates [get_ui_adj] writes for the interactions: user to item
    and item to user, the item shifted by [n_users]. *)
Definition ui_keys (n_users : nat) (ui_graph : coo_matrix) : list (nat * nat) :=
  flat_map (fun e => [(fst (fst e), snd (fst e) + n_users);
                      (snd (fst e) + n_users, fst (fst e))]%nat)
           (entries ui_graph).

(** Row [r] of the [d]-column matrix stored in [x] is zero. *)
Definition zero_row (x : list R) (d r : nat) : Prop :=
  forall k, (k < d)%nat -> nth (r * d + k) x 0 = 0.

(** The sizes of the attributes agree, as [__init__] leaves them: both
    adjacencies are square over their node sets and the two embedding
    tables have one row per user and per entity. *)
Definition consistent (self : CGKR) : Prop :=
  nrows (kg_adj self) = n_entities self /\ ncols (kg_adj self) = n_entities self
  /\ nrows (ui_adj self) = (n_users self + n_items self)%nat
  /\ ncols (ui_adj self) = (n_users self + n_items self)%nat
  /\ shape (user_embedding self) = [n_users self; embedding_size self]
  /\ wf (user_embedding self)
  /\ shape (entity_embedding self) = [n_entities self; embedding_size self]
  /\ wf (entity_embedding self)
  /\ (1 <= n_users self)%nat /\ (1 <= n_entities self)%nat.

(** A call on a batch of one line: as [well_shaped_batch], with a single
    line instead of at least two. *)
Definition single_line_batch (self : CGKR) (interaction : Interaction)
    (kg_neighbors1 kg_neighbors2 : tensor nat) (U E : tensor R) (d : nat) : Prop :=
  exists m n ne nu nE,
    max_neighbor_size self = m /\ embedding_size self = d
    /\ shape (entity_embedding self) = [ne; d]%nat /\ wf (entity_embedding self)
    /\ shape U = [nu; d]%nat /\ wf U /\ shape E = [nE; d]%nat /\ wf E
    /\ shape (USER_ID interaction) = [1%nat] /\ wf (USER_ID interaction)
    /\ ids_below nu (USER_ID interaction)
    /\ shape (ITEM_ID interaction) = [1%nat] /\ wf (ITEM_ID interaction)
    /\ ids_below (Nat.min nE (Nat.min n ne)) (ITEM_ID interaction)
    /\ shape (NEG_ITEM_ID interaction) = [1%nat] /\ wf (NEG_ITEM_ID interaction)
    /\ ids_below (Nat.min nE (Nat.min n ne)) (NEG_ITEM_ID interaction)
    /\ shape kg_neighbors1 = [n; m]%nat /\ wf kg_neighbors1
    /\ ids_below (Nat.min n ne) kg_neighbors1
    /\ shape kg_neighbors2 = [n; m]%nat /\ wf kg_neighbors2
    /\ ids_below (Nat.min n ne) kg_neighbors2
    /\ (2 <= d)%nat /\ (1 <= m)%nat.

(** The adjacency that reads a neighbor table literally: one entry of
    weight [1 / m] per slot of each of the [n] entities, padding slots and
    repeated slots included. *)
Definition slot_adj (kg_neighbors : tensor nat) (n m : nat) : sparse :=
  mkSparse n n
    (flat_map (fun e => map (fun c => (e, c, 1 / INR m)) (chunk m e (data kg_neighbors)))
              (seq 0 n)).

(** [i] products with the slot adjacency applied to the entries [W] of a
    matrix with [d] columns. *)
Definition slot_layers (kg_neighbors : tensor nat) (n m d : nat) (W : list R) (i : nat)
  : list R :=
  Nat.iter i (spmm_data (slot_adj kg_neighbors n m) d) W.

(** The embedded hop level [h] after [i] rounds of neighbor averaging: the
    rows of [X] that the ids of the level name. *)
Definition hop_vectors (kg_neighbors items : tensor nat) (b m d : nat) (X : nat -> list R)
    (i h : nat) : tensor R :=
  mkTensor [b; (m ^ h)%nat; d]
    (flat_map (fun e => chunk d e (X i)) (data (hop kg_neighbors items b m h))).

(** ** Small concrete inputs *)

Module Toy.

(** A model with three users, three entities that are all items,
    embedding size two, one knowledge-graph layer and two neighbor slots. *)
Definition model : CGKR :=
  mkCGKR 2 1 1 true true 2 "mae" (5 / 100) 1 (1 / 2) 3 3 3
    (mkSparse 6 6 []) (mkSparse 3 3 [])
    (mkTensor [3; 2]%nat [0; 0; 1; 2; 3; 4])
    (mkTensor [3; 2]%nat [0; 0; 1; 1; 2; 0])
    None None 0.

Definition scoresA : tensor R := mkTensor [2%nat] [3; 1].
Definition scoresB : tensor R := mkTensor [2%nat] [1; 2].
Definition scoresC : tensor R := mkTensor [2%nat] [4; 2].
Definition embeddings : tensor R := mkTensor [2; 2]%nat [3; 4; 0; 1].

Definition adj : sparse := mkSparse 2 2 [(0%nat, 1%nat, 1 / 2); (1%nat, 0%nat, 1)].
Definition E : tensor R := mkTensor [2; 2]%nat [1; 2; 3; 4].

Definition items : tensor nat := mkTensor [2%nat] [1; 2]%nat.
Definition kg_neighbors : tensor nat := mkTensor [3; 2]%nat [0; 0; 2; 2; 1; 0]%nat.

Definition ui_graph : coo_matrix := mkSparse 3 2 [(1%nat, 1%nat, 1); (2%nat, 1%nat, 1)].
Definition ui_pair : coo_matrix := mkSparse 2 2 [(1%nat, 1%nat, 1)].

Definition users : tensor nat := mkTensor [2%nat] [1; 2]%nat.
Definition neg_items : tensor nat := mkTensor [2%nat] [2; 1]%nat.

Definition interaction : Interaction :=
  mkInteraction users items neg_items (Some kg_neighbors) (Some kg_neighbors).

Definition config : Config :=
  mkConfig 2 1 1 true true 2 "mae" (5 / 100) 1 (1 / 2).

Definition dataset : Dataset := mkDataset 3 2 3 ui_graph.

(** A batch of a single line. *)
Definition single : Interaction :=
  mkInteraction (mkTensor [1%nat] [1%nat]) (mkTensor [1%nat] [1%nat])
    (mkTensor [1%nat] [2%nat]) (Some kg_neighbors) (Some kg_neighbors).

(** A neighbor table in which no entity lists a neighbor twice. *)
Definition own_table : tensor nat := mkTensor [3; 2]%nat [0; 0; 2; 0; 1; 0]%nat.

(** A model whose knowledge-graph adjacency is the one [get_kg_adj] builds
    from [own_table]. *)
Definition own_model : CGKR :=
  mkCGKR 2 1 1 true true 2 "mae" (5 / 100) 1 (1 / 2) 3 3 3
    (mkSparse 6 6 [])
    (mkSparse 3 3 [(1%nat, 2%nat, 1 / INR 2); (2%nat, 1%nat, 1 / INR 2)])
    (mkTensor [3; 2]%nat [0; 0; 1; 2; 3; 4])
    (mkTensor [3; 2]%nat [0; 0; 1; 1; 2; 0])
    None None 0.

End Toy.

(** * Properties *)

(** ** Facts about lists and blocks *)

Lemma flat_map_ext_in {A B} (f g : A -> list B) (l : list A) :
  (forall a, In a l -> f a = g a) -> flat_map f l = flat_map g l.
Proof.
  induction l as [|a l IH]; intros H; simpl; [reflexivity|].
  rewrite (H a) by (left; reflexivity).
  rewrite IH; [reflexivity|]. intros b Hb. apply H. right; exact Hb.
Qed.

Lemma flat_map_seq_shift {B} (f : nat -> list B) (n s : nat) :
  flat_map f (seq (S s) n) = flat_map (fun i => f (S i)) (seq s n).
Proof.
  rewrite <- seq_shift. rewrite !flat_map_concat_map, map_map. reflexivity.
Qed.

Section ListFacts.
Context {A : Type}.


Lemma chunk_S (w i : nat) (d : list A) :
  chunk w (S i) d = chunk w i (skipn w d).
Proof.
  unfold chunk. rewrite skipn_skipn. f_equal. f_equal. simpl. lia.
Qed.

Lemma chunk_0 (w : nat) (d : list A) : chunk w 0 d = firstn w d.
Proof. reflexivity. Qed.

Lemma length_chunk (w i : nat) (d : list A) :
  ((S i) * w <= length d)%nat -> length (chunk w i d) = w.
Proof.
  intros H. unfold chunk. rewrite length_firstn, length_skipn. simpl in H. lia.
Qed.

Lemma flat_map_chunk (w n : nat) (d : list A) :
  length d = (n * w)%nat -> flat_map (fun i => chunk w i d) (seq 0 n) = d.
Proof.
  revert d. induction n as [|n IH]; intros d H.
  - simpl in *. destruct d; [reflexivity|discriminate].
  - change (seq 0 (S n)) with (0%nat :: seq 1 n). 
    cbn [flat_map]. rewrite flat_map_seq_shift.
    rewrite (flat_map_ext_in _ (fun i => chunk w i (skipn w d))).
    2:{ intros a _. apply chunk_S. }
    rewrite IH.
    + rewrite chunk_0. apply firstn_skipn.
    + rewrite length_skipn. simpl in H. lia.
Qed.

Lemma nth_chunk (w i j : nat) (d : list A) (x : A) :
  (j < w)%nat -> nth j (chunk w i d) x = nth (i * w + j) d x.
Proof.
  intros H. unfold chunk. rewrite nth_firstn.
  destruct (Nat.ltb_spec j w); [|lia]. apply nth_skipn.
Qed.

Lemma map_nth_seq (l : list A) (x : A) :
  map (fun j => nth j l x) (seq 0 (length l)) = l.
Proof.
  induction l as [|a l IH]; [reflexivity|].
  simpl. f_equal. rewrite <- seq_shift, map_map. exact IH.
Qed.

Lemma map_nth_chunk (w i : nat) (d : list A) (x : A) :
  ((S i) * w <= length d)%nat ->
  map (fun j => nth (i * w + j) d x) (seq 0 w) = chunk w i d.
Proof.
  intros H.
  rewrite <- (map_nth_seq (chunk w i d) x) at 1.
  rewrite length_chunk by exact H.
  symmetry. apply map_ext_in. intros j Hj. apply in_seq in Hj.
  apply nth_chunk. lia.
Qed.

Lemma zip_with_map_seq {B C} (f : A -> B -> C) (g : nat -> A) (h : nat -> B) (s n : nat) :
  zip_with f (map g (seq s n)) (map h (seq s n)) = map (fun i => f (g i) (h i)) (seq s n).
Proof.
  revert s. induction n as [|n IH]; intros s; simpl; [reflexivity|].
  f_equal. apply IH.
Qed.

Lemma length_zip_with {B C} (f : A -> B -> C) (l1 : list A) (l2 : list B) :
  length (zip_with f l1 l2) = Nat.min (length l1) (length l2).
Proof.
  revert l2. induction l1 as [|a l1 IH]; intros [|b l2]; simpl; auto.
Qed.

End ListFacts.

Lemma numel_app (a b : list nat) : numel (a ++ b) = (numel a * numel b)%nat.
Proof.
  induction a as [|x a IH]; simpl; [lia|]. rewrite IH. lia.
Qed.

(** ** Facts about broadcasting *)

Lemma list_eqb_refl (s : list nat) : list_eqb s s = true.
Proof. unfold list_eqb. destruct (list_eq_dec Nat.eq_dec s s); congruence. Qed.

Lemma list_eqb_eq (a b : list nat) : list_eqb a b = true -> a = b.
Proof. unfold list_eqb. destruct (list_eq_dec Nat.eq_dec a b); congruence. Qed.

Lemma broadcast_rev_same (s : list nat) : broadcast_rev s s = Some s.
Proof.
  induction s as [|x s IH]; simpl; [reflexivity|].
  rewrite IH, Nat.eqb_refl. reflexivity.
Qed.

Lemma broadcast_shapes_same (s : list nat) : broadcast_shapes s s = Some s.
Proof.
  unfold broadcast_shapes. rewrite broadcast_rev_same. simpl. now rewrite rev_involutive.
Qed.

Lemma expand_data_same {A} (s : list nat) (d : list A) :
  length d = numel s -> expand_data s s d = d.
Proof.
  revert d. induction s as [|n s IH]; intros d H; simpl; [reflexivity|].
  rewrite Nat.eqb_refl.
  rewrite (flat_map_ext_in _ (fun i => chunk (numel s) i d)).
  - apply flat_map_chunk. exact H.
  - intros i Hi. apply in_seq in Hi. apply IH. apply length_chunk.
    simpl in H. rewrite H. apply Nat.mul_le_mono_r. lia.
Qed.

Lemma expand_same {A} (t : tensor A) : wf t -> expand (shape t) t = data t.
Proof.
  intros H. unfold expand, pad_shape. rewrite Nat.sub_diag. simpl.
  apply expand_data_same. exact H.
Qed.

Lemma binop_same {A} (f : A -> A -> A) (a b : tensor A) :
  wf a -> wf b -> shape b = shape a ->
  binop f a b = Ok (mkTensor (shape a) (zip_with f (data a) (data b))).
Proof.
  intros Ha Hb Hs. unfold binop. rewrite Hs, broadcast_shapes_same.
  rewrite expand_same by exact Ha.
  rewrite <- Hs, expand_same by exact Hb. reflexivity.
Qed.

(** ** Facts about reductions and vectors *)

Lemma flat_map_ext_in_map {A B} (f : A -> list B) (g : A -> B) (l : list A) :
  (forall a, In a l -> f a = [g a]) -> flat_map f l = map g l.
Proof.
  induction l as [|a l IH]; intros H; simpl; [reflexivity|].
  rewrite (H a) by (left; reflexivity). simpl. f_equal. apply IH.
  intros b Hb. apply H. right; exact Hb.
Qed.

Lemma reduce_rows (f : list R -> R) (t : tensor R) (B D : nat) :
  shape t = [B; D]%nat -> wf t ->
  reduce f 1 t = Ok (mkTensor [B] (map (fun o => f (row t o)) (seq 0 B))).
Proof.
  intros Hs Hw. unfold reduce, ndim, row. rewrite Hs. cbn [length Nat.ltb Nat.leb firstn skipn nth tl app numel fold_right].
  rewrite !Nat.mul_1_r. f_equal. f_equal.
  apply flat_map_ext_in_map. intros o Ho. apply in_seq in Ho.
  cbn [seq map]. f_equal. f_equal. rewrite <- map_nth_chunk with (x := 0).
  - apply map_ext. intros j. f_equal. lia.
  - unfold wf in Hw. rewrite Hw, Hs. cbn [numel fold_right]. rewrite Nat.mul_1_r.
    apply Nat.mul_le_mono_r. lia.
Qed.

Lemma wf_length1 (t : tensor R) (B : nat) : shape t = [B] -> wf t -> length (data t) = B.
Proof. intros Hs Hw. unfold wf in Hw. rewrite Hw, Hs. simpl. lia. Qed.

Lemma data_as_map (t : tensor R) (B : nat) :
  shape t = [B] -> wf t -> data t = map (at_ t) (seq 0 B).
Proof.
  intros Hs Hw. unfold at_. rewrite <- (wf_length1 Hs Hw). symmetry. apply map_nth_seq.
Qed.

Lemma sub_vectors (a b : tensor R) (B : nat) :
  shape a = [B] -> shape b = [B] -> wf a -> wf b ->
  sub a b = Ok (mkTensor [B] (map (fun i => at_ a i - at_ b i) (seq 0 B))).
Proof.
  intros Ha Hb Wa Wb. unfold sub. rewrite binop_same by congruence.
  rewrite Ha. f_equal. f_equal.
  rewrite (data_as_map Ha Wa), (data_as_map Hb Wb) at 1.
  apply zip_with_map_seq.
Qed.

Lemma sigmoid_pos (x : R) : 0 < sigmoid x.
Proof.
  unfold sigmoid. apply Rdiv_lt_0_compat; [lra|]. pose proof (exp_pos (- x)). lra.
Qed.

Lemma sigmoid_increasing (x y : R) : x < y -> sigmoid x < sigmoid y.
Proof.
  intros H. unfold sigmoid, Rdiv. rewrite !Rmult_1_l.
  pose proof (exp_pos (- x)). pose proof (exp_pos (- y)).
  apply Rinv_lt_contravar.
  - apply Rmult_lt_0_compat; lra.
  - apply Rplus_lt_compat_l. apply exp_increasing. lra.
Qed.

Lemma log_sigmoid_increasing (x y : R) :
  x < y -> ln (1e-10 + sigmoid x) < ln (1e-10 + sigmoid y).
Proof.
  intros H. pose proof (sigmoid_pos x). pose proof (sigmoid_increasing H).
  apply ln_increasing; lra.
Qed.

(** ** The reward formulas *)

Lemma nth_map_seq {A} (g : nat -> A) (n i : nat) (x : A) :
  (i < n)%nat -> nth i (map g (seq 0 n)) x = g i.
Proof.
  intros H. rewrite nth_indep with (d' := g 0%nat) by (rewrite length_map, length_seq; lia).
  rewrite map_nth. f_equal. apply seq_nth. exact H.
Qed.

Lemma wf_map_seq {A} (g : nat -> A) (n : nat) : wf (mkTensor [n] (map g (seq 0 n))).
Proof. unfold wf. cbn. rewrite length_map, length_seq. lia. Qed.

Lemma get_reward1_rows (self : CGKR) (scores1 scores2 embeddings : tensor R) (B D : nat) :
  shape scores1 = [B] -> shape scores2 = [B] -> shape embeddings = [B; D]%nat ->
  wf scores1 -> wf scores2 -> wf embeddings ->
  get_reward1 self scores1 scores2 embeddings =
    Ok (mkTensor [B]
          (map (fun i => ln (1e-10 + sigmoid (at_ scores1 i - at_ scores2 i))
                         - ib_beta self * norm2 (row embeddings i)) (seq 0 B))).
Proof.
  intros Ha Hb He Wa Wb We.
  unfold get_reward1. rewrite (sub_vectors Ha Hb Wa Wb). cbn [bind].
  unfold norm_dim. rewrite (reduce_rows _ He We). cbn [bind].
  unfold add, pointwise. cbn [shape data].
  rewrite !map_map.
  rewrite binop_same; cbn [shape data]; try reflexivity; try apply wf_map_seq.
  f_equal. f_equal. rewrite zip_with_map_seq.
  apply map_ext. intros i. lra.
Qed.

Lemma get_reward2_rows (self : CGKR) (scores1 scores2 : tensor R) (B : nat) :
  shape scores1 = [B] -> shape scores2 = [B] -> wf scores1 -> wf scores2 ->
  get_reward2 self scores1 scores2 =
    Ok (mkTensor [B]
          (map (fun i => ln (1e-10 + sigmoid (at_ scores1 i - at_ scores2 i))) (seq 0 B))).
Proof.
  intros Ha Hb Wa Wb.
  unfold get_reward2. rewrite (sub_vectors Ha Hb Wa Wb). cbn [bind].
  unfold pointwise. cbn [shape data]. rewrite map_map. reflexivity.
Qed.

(** Claim C4.  For score vectors [scoresA], [scoresB] of one length and a
    batch of embeddings with as many rows, [get_reward1] is
    [log (gamma + sigmoid (scoresA - scoresB)) - ib_beta * norm] with [norm]
    the 2-norm of each embedding row, and [get_reward2] is
    [log (gamma + sigmoid (scoresA - scoresB))], both with [gamma = 1e-10]. *)
Theorem get_reward_formulas (self : CGKR) (scoresA scoresB embeddings : tensor R)
    (B D : nat) :
  shape scoresA = [B] -> shape scoresB = [B] -> shape embeddings = [B; D]%nat ->
  wf scoresA -> wf scoresB -> wf embeddings ->
  get_reward1 self scoresA scoresB embeddings =
    Ok (mkTensor [B]
          (map (fun i => ln (1e-10 + sigmoid (at_ scoresA i - at_ scoresB i))
                         - ib_beta self * norm2 (row embeddings i)) (seq 0 B)))
  /\ get_reward2 self scoresA scoresB =
    Ok (mkTensor [B]
          (map (fun i => ln (1e-10 + sigmoid (at_ scoresA i - at_ scoresB i))) (seq 0 B))).
Proof.
  intros Ha Hb He Wa Wb We. split.
  - now apply get_reward1_rows with (D := D).
  - now apply get_reward2_rows.
Qed.

Lemma get_reward_formulas_witness :
  get_reward1 Toy.model Toy.scoresA Toy.scoresB Toy.embeddings =
    Ok (mkTensor [2%nat]
          (map (fun i => ln (1e-10 + sigmoid (at_ Toy.scoresA i - at_ Toy.scoresB i))
                         - ib_beta Toy.model * norm2 (row Toy.embeddings i)) (seq 0 2)))
  /\ get_reward2 Toy.model Toy.scoresA Toy.scoresB =
    Ok (mkTensor [2%nat]
          (map (fun i => ln (1e-10 + sigmoid (at_ Toy.scoresA i - at_ Toy.scoresB i)))
               (seq 0 2))).
Proof.
  apply (@get_reward_formulas Toy.model Toy.scoresA Toy.scoresB Toy.embeddings 2 2);
    reflexivity.
Defined.

(** Claim C9.  With the embeddings fixed, both rewards depend on the scores
    only through [scoresA - scoresB], and each component is strictly
    increasing in that difference. *)
Theorem rewards_monotone (self : CGKR) (scoresA scoresB scoresA' scoresB' embeddings : tensor R)
    (B D : nat) :
  shape scoresA = [B] -> shape scoresB = [B] ->
  shape scoresA' = [B] -> shape scoresB' = [B] ->
  shape embeddings = [B; D]%nat ->
  wf scoresA -> wf scoresB -> wf scoresA' -> wf scoresB' -> wf embeddings ->
  exists r1 r1' r2 r2',
    get_reward1 self scoresA scoresB embeddings = Ok r1 /\
    get_reward1 self scoresA' scoresB' embeddings = Ok r1' /\
    get_reward2 self scoresA scoresB = Ok r2 /\
    get_reward2 self scoresA' scoresB' = Ok r2' /\
    forall i, (i < B)%nat ->
      (at_ scoresA i - at_ scoresB i = at_ scoresA' i - at_ scoresB' i ->
         at_ r1 i = at_ r1' i /\ at_ r2 i = at_ r2' i) /\
      (at_ scoresA i - at_ scoresB i < at_ scoresA' i - at_ scoresB' i ->
         at_ r1 i < at_ r1' i /\ at_ r2 i < at_ r2' i).
Proof.
  intros Ha Hb Ha' Hb' He Wa Wb Wa' Wb' We.
  do 4 eexists.
  split; [apply (get_reward1_rows self Ha Hb He Wa Wb We)|].
  split; [apply (get_reward1_rows self Ha' Hb' He Wa' Wb' We)|].
  split; [apply (get_reward2_rows self Ha Hb Wa Wb)|].
  split; [apply (get_reward2_rows self Ha' Hb' Wa' Wb')|].
  intros i Hi.
  assert (G : forall g, at_ (mkTensor [B] (map g (seq 0 B))) i = g i).
  { intros g. unfold at_. cbn [data]. now apply nth_map_seq. }
  rewrite !G.
  split; intros H.
  - rewrite H. split; reflexivity.
  - pose proof (log_sigmoid_increasing H). split; lra.
Qed.

Lemma rewards_monotone_witness :
  exists r1 r1' r2 r2',
    get_reward1 Toy.model Toy.scoresA Toy.scoresB Toy.embeddings = Ok r1 /\
    get_reward1 Toy.model Toy.scoresC Toy.scoresB Toy.embeddings = Ok r1' /\
    get_reward2 Toy.model Toy.scoresA Toy.scoresB = Ok r2 /\
    get_reward2 Toy.model Toy.scoresC Toy.scoresB = Ok r2' /\
    forall i, (i < 2)%nat ->
      (at_ Toy.scoresA i - at_ Toy.scoresB i = at_ Toy.scoresC i - at_ Toy.scoresB i ->
         at_ r1 i = at_ r1' i /\ at_ r2 i = at_ r2' i) /\
      (at_ Toy.scoresA i - at_ Toy.scoresB i < at_ Toy.scoresC i - at_ Toy.scoresB i ->
         at_ r1 i < at_ r1' i /\ at_ r2 i < at_ r2' i).
Proof.
  apply (@rewards_monotone Toy.model Toy.scoresA Toy.scoresB Toy.scoresC Toy.scoresB
           Toy.embeddings 2 2); reflexivity.
Defined.

(** ** Stacking and averaging *)

Lemma map_seq_offset {A} (g : nat -> A) (a s w : nat) :
  map (fun k => g (a + k)%nat) (seq s w) = map g (seq (a + s) w).
Proof.
  revert s. induction w as [|w IH]; intros s; [reflexivity|].
  cbn [seq map]. f_equal. rewrite IH. f_equal. f_equal. lia.
Qed.

Lemma flat_map_seq_mul {A} (g : nat -> A) (w n : nat) :
  flat_map (fun o => map (fun k => g (o * w + k)%nat) (seq 0 w)) (seq 0 n)
  = map g (seq 0 (n * w)).
Proof.
  induction n as [|n IH]; [reflexivity|].
  rewrite seq_S, flat_map_app, IH. cbn [flat_map]. rewrite app_nil_r.
  replace (S n * w)%nat with (n * w + w)%nat by lia.
  rewrite seq_app, map_app. f_equal.
  cbn [Nat.add]. rewrite map_seq_offset. f_equal. f_equal. lia.
Qed.

Lemma nth_flat_map_const {A B} (f : A -> list B) (l : list A) (w i k : nat) (a0 : A) (x : B) :
  (forall a, In a l -> length (f a) = w) ->
  (i < length l)%nat -> (k < w)%nat ->
  nth (i * w + k) (flat_map f l) x = nth k (f (nth i l a0)) x.
Proof.
  revert i. induction l as [|a l IH]; intros i Hlen Hi Hk; [simpl in Hi; lia|].
  cbn [flat_map]. destruct i as [|i].
  - cbn [nth Nat.mul Nat.add]. apply app_nth1. rewrite Hlen by (left; reflexivity). exact Hk.
  - rewrite app_nth2; rewrite Hlen by (left; reflexivity); [|lia].
    replace (S i * w + k - w)%nat with (i * w + k)%nat by lia.
    cbn [nth]. apply IH; [|simpl in Hi; lia|exact Hk].
    intros b Hb. apply Hlen. right; exact Hb.
Qed.

Lemma length_flat_map_const {A B} (f : A -> list B) (l : list A) (w : nat) :
  (forall a, In a l -> length (f a) = w) -> length (flat_map f l) = (length l * w)%nat.
Proof.
  induction l as [|a l IH]; intros H; [reflexivity|].
  cbn [flat_map length]. rewrite length_app, H by (left; reflexivity).
  rewrite IH; [lia|]. intros b Hb. apply H. right; exact Hb.
Qed.

Lemma map_nth_list {A B} (g : A -> B) (l : list A) (a0 : A) :
  map (fun j => g (nth j l a0)) (seq 0 (length l)) = map g l.
Proof.
  rewrite <- (map_map (fun j => nth j l a0) g). f_equal. apply map_nth_seq.
Qed.

Lemma forallb_shapes (s : list nat) (t0 : tensor R) (ts : list (tensor R)) :
  shape t0 = s -> all_shaped s ts ->
  forallb (fun t => list_eqb (shape t) (shape t0)) ts = true.
Proof.
  intros H0 H. apply forallb_forall. intros t Ht.
  unfold all_shaped in H. rewrite Forall_forall in H. destruct (H t Ht) as [Hs _].
  rewrite Hs, H0. apply list_eqb_refl.
Qed.

Lemma stack_mean (ts : list (tensor R)) (n : nat) (rest : list nat) :
  ts <> [] -> all_shaped (n :: rest) ts ->
  (stacked <- stack1 ts ;; mean_dim 1 stacked) =
  Ok (mkTensor (n :: rest) (map (mean_at ts) (seq 0 (n * numel rest)))).
Proof.
  intros Hne Hall. destruct ts as [|t0 ts']; [congruence|].
  assert (H0 : shape t0 = n :: rest).
  { unfold all_shaped in Hall. inversion Hall; tauto. }
  unfold stack1. rewrite (forallb_shapes t0 H0 Hall), H0. cbn [bind].
  set (ts := t0 :: ts') in *.
  unfold mean_dim, reduce, ndim. cbn [shape data length firstn skipn nth app].
  destruct (Nat.ltb_spec 1 (S (S (length rest)))); [|lia].
  f_equal. f_equal. replace (numel [n]) with n by (simpl; lia).
  set (w := numel rest). set (len := length ts).
  set (S0 := flat_map (fun i => flat_map _ ts) (seq 0 n)).
  rewrite <- flat_map_seq_mul.
  apply flat_map_ext_in. intros o Ho. apply in_seq in Ho.
  apply map_ext_in. intros k Hk. apply in_seq in Hk.
  unfold mean_at. 
  rewrite <- (map_nth_list (fun t => nth (o * w + k) (data t) 0) ts t0). fold len.
  unfold Rmean. rewrite !length_map, length_seq. f_equal. f_equal.
  apply map_ext_in. intros j Hj. apply in_seq in Hj.
  assert (Hchunk : forall i t, (i < n)%nat -> In t ts -> length (chunk w i (data t)) = w).
  { intros i t Hi Ht. apply length_chunk.
    unfold all_shaped in Hall. rewrite Forall_forall in Hall.
    destruct (Hall t Ht) as [Hs Hw]. unfold wf in Hw. rewrite Hw, Hs.
    cbn [numel fold_right]. fold w. apply Nat.mul_le_mono_r. lia. }
  replace ((o * len + j) * w + k)%nat with (o * (len * w) + (j * w + k))%nat by lia.
  unfold S0.
  rewrite nth_flat_map_const with (a0 := 0%nat) (w := (len * w)%nat).
  - rewrite seq_nth by lia. cbn [Nat.add].
    rewrite nth_flat_map_const with (a0 := t0) (w := w); try lia.
    + apply nth_chunk. lia.
    + intros t Ht. apply Hchunk; [lia|exact Ht].
  - intros i Hi. apply in_seq in Hi. apply length_flat_map_const.
    intros t Ht. apply Hchunk; [lia|exact Ht].
  - rewrite length_seq. lia.
  - assert (j * w + k < len * w)%nat; [|lia]. nia.
Qed.

(** ** Propagation *)

Lemma length_spmm_data (a : sparse) (d : nat) (x : list R) :
  length (spmm_data a d x) = (nrows a * d)%nat.
Proof.
  unfold spmm_data. rewrite length_flat_map_const with (w := d).
  - now rewrite length_seq.
  - intros i _. now rewrite length_map, length_seq.
Qed.

Lemma layer_0 (adj : sparse) (E : tensor R) : layer adj E 0 = E.
Proof. destruct E; reflexivity. Qed.

Lemma sparse_mm_layer (adj : sparse) (E : tensor R) (n d l : nat) :
  nrows adj = n -> ncols adj = n -> shape E = [n; d]%nat ->
  sparse_mm adj (layer adj E l) = Ok (layer adj E (S l)).
Proof.
  intros Hr Hc Hs. unfold sparse_mm, layer. cbn [shape data]. rewrite Hs, Hc, Nat.eqb_refl, Hr.
  reflexivity.
Qed.

Lemma wf_layer (adj : sparse) (E : tensor R) (n d l : nat) :
  nrows adj = n -> shape E = [n; d]%nat -> wf E -> wf (layer adj E l).
Proof.
  intros Hr Hs Hw. destruct l as [|l]; [now rewrite layer_0|].
  unfold wf, layer. cbn [shape data]. rewrite Nat.iter_succ, length_spmm_data, Hs, Hr.
  cbn. lia.
Qed.

Lemma propagate_layers_layers (adj : sparse) (E : tensor R) (n d : nat) (L k : nat)
    (acc : list (tensor R)) :
  nrows adj = n -> ncols adj = n -> shape E = [n; d]%nat ->
  propagate_layers adj L (layer adj E k) acc =
  Ok (acc ++ map (layer adj E) (seq (S k) L)).
Proof.
  intros Hr Hc Hs. revert k acc. induction L as [|L IH]; intros k acc.
  - cbn. now rewrite app_nil_r.
  - cbn [propagate_layers]. rewrite (@sparse_mm_layer adj E n d k Hr Hc Hs). cbn [bind].
    rewrite IH. rewrite <- app_assoc. reflexivity.
Qed.

Lemma all_shaped_layers (adj : sparse) (E : tensor R) (n d : nat) (ls : list nat) :
  nrows adj = n -> shape E = [n; d]%nat -> wf E ->
  all_shaped [n; d]%nat (map (layer adj E) ls).
Proof.
  intros Hr Hs Hw. apply Forall_forall. intros t Ht. apply in_map_iff in Ht.
  destruct Ht as [l [<- _]]. split; [exact Hs|]. now apply wf_layer with (n := n) (d := d).
Qed.

Lemma tensor_mean_layers (adj : sparse) (E : tensor R) (L : nat) :
  tensor_mean (map (layer adj E) (seq 0 (S L)))
  = mkTensor (shape E)
      (map (mean_at (map (layer adj E) (seq 0 (S L)))) (seq 0 (numel (shape E)))).
Proof. reflexivity. Qed.

(** Claim C2.  For a square sparse [adj], an embedding matrix [E] with as
    many rows and a layer count [L], [through_graph] returns the mean of the
    [L + 1] matrices [E], [adj * E], ..., [adj^L * E]: layer 0 is [E], each
    layer is the sparse product of [adj] with the layer before it, and every
    entry of the result is the sum of that entry over the layers divided by
    [L + 1]. *)
Theorem through_graph_layer_mean (adj : sparse) (E : tensor R) (n d L : nat) :
  nrows adj = n -> ncols adj = n -> shape E = [n; d]%nat -> wf E ->
  layer adj E 0 = E
  /\ (forall l, sparse_mm adj (layer adj E l) = Ok (layer adj E (S l)))
  /\ through_graph adj E L = Ok (tensor_mean (map (layer adj E) (seq 0 (S L))))
  /\ (forall out, through_graph adj E L = Ok out ->
        shape out = shape E /\
        forall p, (p < n * d)%nat ->
          nth p (data out) 0
          = Rsum (map (fun l => nth p (data (layer adj E l)) 0) (seq 0 (S L))) / INR (S L)).
Proof.
  intros Hr Hc Hs Hw.
  assert (Hthrough : through_graph adj E L = Ok (tensor_mean (map (layer adj E) (seq 0 (S L))))).
  { unfold through_graph. rewrite <- (layer_0 adj E) at 1 2.
    rewrite (@propagate_layers_layers adj E n d L 0 _ Hr Hc Hs). cbn [bind].
    change ([layer adj E 0] ++ map (layer adj E) (seq 1 L))
      with (map (layer adj E) (seq 0 (S L))).
    rewrite stack_mean with (n := n) (rest := [d]).
    - rewrite tensor_mean_layers, Hs. reflexivity.
    - discriminate.
    - now apply all_shaped_layers. }
  split; [apply layer_0|].
  split; [intros l; now apply sparse_mm_layer with (n := n) (d := d)|].
  split; [exact Hthrough|].
  intros out Hout.
  assert (Heq : out = tensor_mean (map (layer adj E) (seq 0 (S L)))) by congruence.
  subst out.
  rewrite tensor_mean_layers. cbn [shape data]. split; [reflexivity|].
  intros p Hp. rewrite Hs. cbn [numel fold_right]. rewrite Nat.mul_1_r.
  rewrite nth_map_seq by exact Hp.
  unfold mean_at, Rmean. rewrite map_map, !length_map, length_seq.
  reflexivity.
Qed.

Lemma through_graph_layer_mean_witness :
  layer Toy.adj Toy.E 0 = Toy.E
  /\ (forall l, sparse_mm Toy.adj (layer Toy.adj Toy.E l) = Ok (layer Toy.adj Toy.E (S l)))
  /\ through_graph Toy.adj Toy.E 2 = Ok (tensor_mean (map (layer Toy.adj Toy.E) (seq 0 3)))
  /\ (forall out, through_graph Toy.adj Toy.E 2 = Ok out ->
        shape out = shape Toy.E /\
        forall p, (p < 2 * 2)%nat ->
          nth p (data out) 0
          = Rsum (map (fun l => nth p (data (layer Toy.adj Toy.E l)) 0) (seq 0 3)) / INR 3).
Proof.
  apply (@through_graph_layer_mean Toy.adj Toy.E 2 2 2); reflexivity.
Defined.

(** ** Multi-hop neighbor expansion *)

Lemma forallb_ids_below (n : nat) (t : tensor nat) :
  ids_below n t -> forallb (fun i => (i <? n)%nat) (data t) = true.
Proof.
  intros H. apply forallb_forall. intros i Hi.
  unfold ids_below in H. rewrite Forall_forall in H. apply Nat.ltb_lt. now apply H.
Qed.

Lemma Forall_chunk {A} (P : A -> Prop) (w i : nat) (d : list A) :
  Forall P d -> Forall P (chunk w i d).
Proof.
  intros H. unfold chunk.
  rewrite <- (firstn_skipn (i * w) d) in H. apply Forall_app in H. destruct H as [_ H].
  rewrite <- (firstn_skipn w (skipn (i * w) d)) in H. apply Forall_app in H. tauto.
Qed.

Lemma Forall_flat_map_in {A B} (P : B -> Prop) (f : A -> list B) (l : list A) :
  (forall a, In a l -> Forall P (f a)) -> Forall P (flat_map f l).
Proof.
  intros H. apply Forall_forall. intros x Hx. apply in_flat_map in Hx.
  destruct Hx as [a [Ha Hx]]. specialize (H a Ha). rewrite Forall_forall in H. now apply H.
Qed.

Section Hops.
Variables (kg_neighbors items : tensor nat) (b m n : nat).
Hypothesis Hitems : shape items = [b].
Hypothesis Witems : wf items.
Hypothesis Hkg : shape kg_neighbors = [n; m]%nat.
Hypothesis Wkg : wf kg_neighbors.
Hypothesis Iitems : ids_below n items.
Hypothesis Ikg : ids_below n kg_neighbors.

Lemma shape_hop (k : nat) : shape (hop kg_neighbors items b m k) = [b; (m ^ k)%nat].
Proof. destruct k; reflexivity. Qed.

Lemma ids_below_hop (k : nat) : ids_below n (hop kg_neighbors items b m k).
Proof.
  destruct k as [|k]; [exact Iitems|].
  unfold ids_below. cbn [hop data]. apply Forall_flat_map_in. intros e _.
  apply Forall_chunk. exact Ikg.
Qed.

Lemma wf_hop (k : nat) : wf (hop kg_neighbors items b m k).
Proof.
  induction k as [|k IH].
  - unfold wf. cbn [hop shape data numel fold_right]. rewrite Witems, Hitems. cbn. lia.
  - unfold wf. cbn [hop shape data]. rewrite length_flat_map_const with (w := m).
    + rewrite IH, shape_hop. cbn [numel fold_right]. rewrite Nat.pow_succ_r'. lia.
    + intros e He. apply length_chunk. rewrite Wkg, Hkg. cbn [numel fold_right].
      pose proof (ids_below_hop k) as Hk. unfold ids_below in Hk. rewrite Forall_forall in Hk.
      specialize (Hk e He). rewrite Nat.mul_1_r. apply Nat.mul_le_mono_r. lia.
Qed.

Lemma hop_step (k : nat) :
  (1 <= b)%nat ->
  (nb <- index kg_neighbors (hop kg_neighbors items b m k) ;; view_infer [b] [] nb)
  = Ok (hop kg_neighbors items b m (S k)).
Proof.
  intros Hb. unfold index. rewrite Hkg, (forallb_ids_below (ids_below_hop k)). cbn [bind].
  unfold view_infer. cbn [shape data]. rewrite shape_hop.
  replace (numel [b] * numel [])%nat with b by (cbn; lia).
  replace (numel ([b; (m ^ k)%nat] ++ [m])) with (m ^ S k * b)%nat
    by (cbn [app numel fold_right]; rewrite Nat.pow_succ_r'; lia).
  destruct (Nat.eqb_spec b 0); [lia|].
  rewrite Nat.Div0.mod_mul, Nat.eqb_refl, Nat.div_mul by lia.
  cbn [numel fold_right]. rewrite Nat.mul_1_r. reflexivity.
Qed.

Lemma batch_neighbors_loop_hops (L i : nat) :
  (1 <= b)%nat ->
  batch_neighbors_loop kg_neighbors b L i (map (hop kg_neighbors items b m) (seq 0 (S i)))
  = Ok (map (hop kg_neighbors items b m) (seq 0 (S i + L))).
Proof.
  intros Hb. revert i. induction L as [|L IH]; intros i.
  - cbn [batch_neighbors_loop]. now rewrite Nat.add_0_r.
  - cbn [batch_neighbors_loop]. unfold py_nth.
    rewrite nth_error_map, nth_error_nth' with (d := 0%nat) by (rewrite length_seq; lia).
    rewrite seq_nth by lia. cbn [option_map bind Nat.add].
    pose proof (hop_step i Hb) as Hs.
    destruct (index kg_neighbors (hop kg_neighbors items b m i)) as [nb|e]; [|discriminate].
    cbn [bind] in Hs |- *. rewrite Hs. cbn [bind].
    replace (map (hop kg_neighbors items b m) (seq 0 (S i)) ++ [hop kg_neighbors items b m (S i)])
      with (map (hop kg_neighbors items b m) (seq 0 (S (S i)))).
    + rewrite IH. f_equal. f_equal. f_equal. lia.
    + rewrite (seq_S (S i)), map_app. reflexivity.
Qed.

End Hops.

(** Claim C7.  For a batch of [B >= 1] item ids and a neighbor table with
    [M] slots per entity whose ids all index the table, [get_batch_neighbors]
    with [n_kg_layers = L] returns exactly [L + 1] hop levels; level 0 holds
    the items of the batch unchanged, level [k] has [B] rows of [M ^ k] ids,
    and level [k + 1] is the lookup of level [k] in the table, flattened to
    [B] rows. *)
Theorem get_batch_neighbors_levels (self : CGKR) (items kg_neighbors : tensor nat)
    (B M N : nat) :
  shape items = [B] -> wf items ->
  shape kg_neighbors = [N; M]%nat -> wf kg_neighbors ->
  ids_below N items -> ids_below N kg_neighbors ->
  (1 <= B)%nat ->
  exists levels,
    get_batch_neighbors self items kg_neighbors = Ok levels
    /\ length levels = S (n_kg_layers self)
    /\ nth_error levels 0 = Some (mkTensor [B; 1%nat] (data items))
    /\ forall k, (k <= n_kg_layers self)%nat ->
         exists level,
           nth_error levels k = Some level
           /\ shape level = [B; (M ^ k)%nat] /\ wf level
           /\ (forall prev, (1 <= k)%nat -> nth_error levels (k - 1) = Some prev ->
                 (nb <- index kg_neighbors prev ;; view_infer [B] [] nb) = Ok level).
Proof.
  intros Hi Wi Hk Wk Ii Ik HB.
  exists (map (hop kg_neighbors items B M) (seq 0 (S (n_kg_layers self)))).
  split.
  - unfold get_batch_neighbors, shape0, unsqueeze, ndim. rewrite Hi. cbn [bind length Nat.leb firstn skipn app].
    apply (@batch_neighbors_loop_hops kg_neighbors items B M N Hk Ii Ik (n_kg_layers self) 0 HB).
  - split; [now rewrite length_map, length_seq|].
    split; [reflexivity|].
    intros k Hle. exists (hop kg_neighbors items B M k).
    assert (Hnth : forall j, (j <= n_kg_layers self)%nat ->
              nth_error (map (hop kg_neighbors items B M) (seq 0 (S (n_kg_layers self)))) j
              = Some (hop kg_neighbors items B M j)).
    { intros j Hj. rewrite nth_error_map, nth_error_nth' with (d := 0%nat) by (rewrite length_seq; lia).
      rewrite seq_nth by lia. reflexivity. }
    split; [now apply Hnth|].
    split; [apply shape_hop|].
    split; [now apply wf_hop with (n := N)|].
    intros prev Hk1 Hprev. rewrite Hnth in Hprev by lia. injection Hprev as <-.
    destruct k as [|k]; [lia|]. replace (S k - 1)%nat with k by lia.
    now apply hop_step with (n := N).
Qed.

Lemma get_batch_neighbors_levels_witness :
  exists levels,
    get_batch_neighbors Toy.model Toy.items Toy.kg_neighbors = Ok levels
    /\ length levels = S (n_kg_layers Toy.model)
    /\ nth_error levels 0 = Some (mkTensor [2; 1]%nat (data Toy.items))
    /\ forall k, (k <= n_kg_layers Toy.model)%nat ->
         exists level,
           nth_error levels k = Some level
           /\ shape level = [2; (2 ^ k)]%nat /\ wf level
           /\ (forall prev, (1 <= k)%nat -> nth_error levels (k - 1) = Some prev ->
                 (nb <- index Toy.kg_neighbors prev ;; view_infer [2%nat] [] nb) = Ok level).
Proof.
  apply (@get_batch_neighbors_levels Toy.model Toy.items Toy.kg_neighbors 2 2 3);
    try reflexivity; try (unfold ids_below; cbn; repeat constructor).
Defined.

(** ** The normalised user-item adjacency *)

Lemma dict_set_values (v0 : R) (k : nat * nat) (d : dict) :
  Forall (fun kv => snd kv = v0) d -> Forall (fun kv => snd kv = v0) (dict_set k v0 d).
Proof.
  induction d as [|[k' v'] d IH]; intros H; cbn [dict_set].
  - constructor; [reflexivity|constructor].
  - apply Forall_cons_iff in H. destruct H as [Hx Hd]. destruct (key_eqb k k').
    + constructor; [reflexivity|exact Hd].
    + constructor; [exact Hx|]. apply IH. exact Hd.
Qed.

Lemma dict_update_values (v0 : R) (kvs : list ((nat * nat) * R)) (d : dict) :
  Forall (fun kv => snd kv = v0) d -> Forall (fun kv => snd kv = v0) kvs ->
  Forall (fun kv => snd kv = v0) (dict_update d kvs).
Proof.
  unfold dict_update. revert d. induction kvs as [|[k v] kvs IH]; intros d Hd Hk; cbn [fold_left].
  - exact Hd.
  - apply Forall_cons_iff in Hk. destruct Hk as [Hx Hk]. cbn [fst snd] in *. subst v.
    apply IH; [|exact Hk]. apply dict_set_values. exact Hd.
Qed.

Lemma combine_repeat_values {A} (v0 : R) (ks : list A) (n : nat) :
  Forall (fun kv => snd kv = v0) (combine ks (repeat v0 n)).
Proof.
  revert n. induction ks as [|k ks IH]; intros n; [constructor|].
  destruct n as [|n]; cbn [repeat combine]; constructor; [reflexivity|apply IH].
Qed.

Lemma ui_dok_values (n_users n_items : nat) (ui_graph : coo_matrix) :
  Forall (fun kv => snd kv = 1) (dok_dict (ui_dok n_users n_items ui_graph)).
Proof.
  unfold ui_dok. cbn [dok_dict].
  apply dict_update_values.
  - apply dict_update_values; [constructor|apply combine_repeat_values].
  - apply dict_update_values; [constructor|apply combine_repeat_values].
Qed.

Lemma positive_count_ones (adj : dok_matrix) (i : nat) :
  Forall (fun kv => snd kv = 1) (dok_dict adj) ->
  positive_count adj i = length (filter (fun kv => fst (fst kv) =? i)%nat (dok_dict adj)).
Proof.
  intros H. unfold positive_count. f_equal. apply filter_ext_in.
  intros kv Hkv. rewrite Forall_forall in H. rewrite (H kv Hkv).
  destruct (Rlt_dec 0 1) as [_|n]; [apply andb_true_r|exfalso; apply n; lra].
Qed.

Lemma degree_norm_adj (adj : dok_matrix) (i : nat) :
  Forall (fun kv => snd kv = 1) (dok_dict adj) ->
  degree (norm_adj adj) i = positive_count adj i.
Proof.
  intros H. rewrite (positive_count_ones adj i H). unfold degree, row_entries, norm_adj.
  cbn [entries]. clear H. induction (dok_dict adj) as [|kv d IH]; [reflexivity|].
  cbn [map filter fst snd]. destruct (fst (fst kv) =? i)%nat; cbn [length]; now rewrite IH.
Qed.

Lemma norm_diag_sqr (adj : dok_matrix) (i : nat) :
  norm_diag adj i * norm_diag adj i = / (INR (positive_count adj i) + 1e-7).
Proof.
  unfold norm_diag. set (x := INR (positive_count adj i) + 1e-7).
  assert (Hx : 0 < x) by (unfold x; pose proof (pos_INR (positive_count adj i)); lra).
  rewrite <- Rpower_plus. replace (- 0.5 + - 0.5) with (- (1)) by lra.
  rewrite Rpower_Ropp, Rpower_1 by exact Hx. reflexivity.
Qed.

Lemma Rsum_const (c : R) (l : list R) :
  Forall (fun x => x = c) l -> Rsum l = INR (length l) * c.
Proof.
  induction l as [|x l IH]; intros H.
  - cbn. lra.
  - apply Forall_cons_iff in H. destruct H as [Hx H]. subst x.
    cbn [Rsum fold_right length]. fold (Rsum l). rewrite IH by exact H.
    rewrite S_INR. lra.
Qed.

Lemma row_sum_norm_adj (adj : dok_matrix) (i d : nat) :
  Forall (fun kv => snd kv = 1) (dok_dict adj) ->
  positive_count adj i = d ->
  (forall kv, In kv (dok_dict adj) -> fst (fst kv) = i ->
     positive_count adj (snd (fst kv)) = d) ->
  row_sum (norm_adj adj) i = INR d / (INR d + 1e-7).
Proof.
  intros Hv Hd Hn. unfold row_sum.
  rewrite Rsum_const with (c := / (INR d + 1e-7)).
  - rewrite length_map. fold (degree (norm_adj adj) i).
    rewrite (degree_norm_adj adj i Hv), Hd. reflexivity.
  - apply Forall_forall. intros x Hx. apply in_map_iff in Hx.
    destruct Hx as [e [<- He]]. unfold row_entries in He. apply filter_In in He.
    destruct He as [He Hrow]. unfold norm_adj in He. cbn [entries] in He.
    apply in_map_iff in He. destruct He as [kv [<- Hkv]]. cbn [fst snd] in *.
    apply Nat.eqb_eq in Hrow.
    rewrite Forall_forall in Hv. rewrite (Hv kv Hkv), Rmult_1_r.
    assert (Hc : norm_diag adj (snd (fst kv)) = norm_diag adj (fst (fst kv))).
    { unfold norm_diag. rewrite (Hn kv Hkv Hrow), Hrow, Hd. reflexivity. }
    rewrite Hc, norm_diag_sqr, Hrow, Hd. reflexivity.
Qed.

Lemma convert_to_tensor_Ok (m : coo_matrix) (a : sparse) :
  convert_to_tensor m = Ok a -> a = m.
Proof. unfold convert_to_tensor. destruct (in_range m); congruence. Qed.

Lemma inv_sqrt_power (x : R) : 0 < x -> Rpower x (- 0.5) = / sqrt x.
Proof.
  intros Hx. replace (- 0.5) with (- (/ 2)) by lra.
  rewrite Rpower_Ropp. f_equal. now apply Rpower_sqrt.
Qed.

(** An entry of the normalised matrix built from a dictionary of ones. *)
Lemma row_sum_norm_adj_terms (adj : dok_matrix) (i : nat) :
  Forall (fun kv => snd kv = 1) (dok_dict adj) ->
  row_sum (norm_adj adj) i
  = Rsum (map (fun e => / sqrt ((INR (degree (norm_adj adj) i) + 1e-7)
                                * (INR (degree (norm_adj adj) (snd (fst e))) + 1e-7)))
              (row_entries i (entries (norm_adj adj)))).
Proof.
  intros Hv. unfold row_sum. f_equal. apply map_ext_in. intros e He.
  unfold row_entries in He. apply filter_In in He. destruct He as [He Hrow].
  apply Nat.eqb_eq in Hrow. rewrite !(degree_norm_adj adj _ Hv).
  unfold norm_adj in He. cbn [entries] in He.
  apply in_map_iff in He. destruct He as [kv [<- Hkv]]. cbn [fst snd] in *.
  rewrite Forall_forall in Hv. rewrite (Hv kv Hkv), Rmult_1_r, Hrow.
  unfold norm_diag.
  assert (Hi : 0 < INR (positive_count adj i) + 1e-7)
    by (pose proof (pos_INR (positive_count adj i)); lra).
  assert (Hj : 0 < INR (positive_count adj (snd (fst kv))) + 1e-7)
    by (pose proof (pos_INR (positive_count adj (snd (fst kv)))); lra).
  rewrite !inv_sqrt_power by assumption.
  rewrite sqrt_mult by lra. rewrite Rinv_mult. reflexivity.
Qed.

(** Claim C3, as the code has it.  In exact real arithmetic the row of
    node [i] of the normalised user-item adjacency sums to the sum, over
    the stored neighbors [j] of [i], of
    [1 / sqrt ((d_i + 1e-7) * (d_j + 1e-7))], where [d_k] is the number of
    neighbors of node [k]; where [i] has [d] neighbors and each of them has
    [d] neighbors too, this is [d / (d + 1e-7)]. *)
Theorem ui_adj_row_sum_formula (n_users n_items : nat) (ui_graph : coo_matrix)
    (A : sparse) (i : nat) :
  get_ui_adj n_users n_items ui_graph = Ok A ->
  row_sum A i
  = Rsum (map (fun e => / sqrt ((INR (degree A i) + 1e-7)
                                * (INR (degree A (snd (fst e))) + 1e-7)))
              (row_entries i (entries A)))
  /\ forall d,
       degree A i = d ->
       (forall e, In e (entries A) -> fst (fst e) = i -> degree A (snd (fst e)) = d) ->
       row_sum A i = INR d / (INR d + 1e-7).
Proof.
  intros HA. unfold get_ui_adj in HA. apply convert_to_tensor_Ok in HA. subst A.
  set (adj := ui_dok n_users n_items ui_graph) in *.
  pose proof (ui_dok_values n_users n_items ui_graph) as Hv. fold adj in Hv.
  split; [apply row_sum_norm_adj_terms; exact Hv|].
  intros d Hd Hn.
  apply row_sum_norm_adj; [exact Hv| |].
  - now rewrite <- (degree_norm_adj adj i Hv).
  - intros kv Hkv Hrow. rewrite <- (degree_norm_adj adj _ Hv).
    apply (Hn (fst (fst kv), snd (fst kv),
               norm_diag adj (fst (fst kv)) * snd kv * norm_diag adj (snd (fst kv)))).
    + unfold norm_adj. cbn [entries]. apply in_map_iff. exists kv.
      split; [reflexivity|exact Hkv].
    + exact Hrow.
Qed.

Lemma ui_adj_row_sum_formula_witness :
  exists A,
    get_ui_adj 2 2 Toy.ui_pair = Ok A
    /\ row_sum A 1
       = Rsum (map (fun e => / sqrt ((INR (degree A 1) + 1e-7)
                                     * (INR (degree A (snd (fst e))) + 1e-7)))
                   (row_entries 1 (entries A)))
    /\ row_sum A 1 = INR 1 / (INR 1 + 1e-7).
Proof.
  exists (norm_adj (ui_dok 2 2 Toy.ui_pair)). split; [reflexivity|].
  destruct (@ui_adj_row_sum_formula 2 2 Toy.ui_pair (norm_adj (ui_dok 2 2 Toy.ui_pair)) 1
              eq_refl) as [Hsum Heq].
  split; [exact Hsum|]. apply Heq.
  - reflexivity.
  - intros e [<-|[<-|[]]]; intros H; [reflexivity|discriminate H].
Defined.

(** Claim C3 fails as stated: with two users who both interacted with one
    item, the row of either user sums to [1 / sqrt ((1 + 1e-7) * (2 + 1e-7))],
    about 0.707. *)
Lemma ui_adj_row_sum_far_from_one :
  exists A, get_ui_adj 3 2 Toy.ui_graph = Ok A
            /\ 1 / 4 < Rabs (row_sum A 1 - 1).
Proof.
  exists (norm_adj (ui_dok 3 2 Toy.ui_graph)). split; [reflexivity|].
  assert (Hv := ui_dok_values 3 2 Toy.ui_graph).
  assert (C1 : positive_count (ui_dok 3 2 Toy.ui_graph) 1 = 1%nat)
    by (rewrite (positive_count_ones _ _ Hv); reflexivity).
  assert (C4 : positive_count (ui_dok 3 2 Toy.ui_graph) 4 = 2%nat)
    by (rewrite (positive_count_ones _ _ Hv); reflexivity).
  assert (E : dok_dict (ui_dok 3 2 Toy.ui_graph)
              = [((1, 4)%nat, 1); ((2, 4)%nat, 1); ((4, 1)%nat, 1); ((4, 2)%nat, 1)]) by reflexivity.
  unfold row_sum, row_entries, norm_adj. cbn [entries]. rewrite E.
  cbn [map filter fst snd Nat.eqb Rsum fold_right].
  unfold norm_diag. rewrite C1, C4. cbn [INR].
  rewrite !inv_sqrt_power by lra.
  assert (H1 : 1 < sqrt (1 + 1e-7)).
  { rewrite <- sqrt_1 at 1. apply sqrt_lt_1_alt. lra. }
  assert (H2 : 4 / 3 < sqrt (1 + 1 + 1e-7)).
  { replace (4 / 3) with (sqrt ((4 / 3) * (4 / 3))) by (apply sqrt_square; lra).
    apply sqrt_lt_1_alt. lra. }
  assert (I1 : / sqrt (1 + 1e-7) < 1).
  { assert (I : / sqrt (1 + 1e-7) < / 1) by (apply Rinv_lt_contravar; lra).
    now rewrite Rinv_1 in I. }
  assert (I2 : / sqrt (1 + 1 + 1e-7) < 3 / 4).
  { replace (3 / 4) with (/ (4 / 3)) by (field). apply Rinv_lt_contravar; [|exact H2].
    apply Rmult_lt_0_compat; lra. }
  assert (P1 : 0 < / sqrt (1 + 1e-7)) by (apply Rinv_0_lt_compat; lra).
  assert (P2 : 0 < / sqrt (1 + 1 + 1e-7)) by (apply Rinv_0_lt_compat; lra).
  rewrite Rabs_left; nra.
Qed.

(** ** The knowledge-graph adjacency *)

(** With a table of plain integers a repeated neighbor collapses: entity
    1 of the table holds neighbor 2 in both of its two slots, the
    dictionary keeps a single key (1, 2) of weight 1/2, so row 1 carries
    total weight 1/2 and propagation yields half of the average over the
    two slots. *)
Lemma int_slots_collapse_repeats :
  exists adj,
    get_kg_adj IntSlots 3 2 Toy.kg_neighbors = Ok adj
    /\ entries adj = [(1%nat, 2%nat, 1 / INR 2); (2%nat, 1%nat, 1 / INR 2)]
    /\ row_sum adj 1 = 1 / 2
    /\ nth 2 (spmm_data adj 2 (data (entity_embedding Toy.model))) 0 = 1
    /\ nth 0 (slot_average Toy.kg_neighbors 2 2 (data (entity_embedding Toy.model)) 1) 0 = 2.
Proof.
  eexists. split; [reflexivity|].
  split; [reflexivity|].
  split; [unfold row_sum; cbn; lra|].
  split; cbn; lra.
Qed.

(** ** The padding rows *)

Lemma bind_Ok {A B} (c : result A) (k : A -> result B) (b : B) :
  bind c k = Ok b -> exists a, c = Ok a /\ k a = Ok b.
Proof. destruct c as [a|e]; cbn; [eauto|discriminate]. Qed.

Ltac inv_bind H :=
  let a := fresh "a" in
  let Ha := fresh "Ha" in
  apply bind_Ok in H; destruct H as [a [Ha H]].

Lemma new_embedding_Ok (num dim : nat) (draw : nat -> R) (w : tensor R) :
  new_embedding num dim draw = Ok w -> shape w = [num; dim]%nat /\ wf w.
Proof.
  unfold new_embedding. destruct (0 <? num)%nat; [|discriminate].
  intros H. injection H as <-. split; [reflexivity|].
  unfold wf. cbn. rewrite length_map, length_seq. lia.
Qed.

Lemma fill_row0_zero (w w0 : tensor R) (num dim : nat) :
  shape w = [num; dim]%nat -> wf w -> fill_row0 w = Ok w0 ->
  shape w0 = [num; dim]%nat /\ wf w0 /\ row w0 0 = repeat 0 dim.
Proof.
  intros Hs Hw. unfold fill_row0. rewrite Hs. destruct (Nat.ltb_spec 0 num); [|discriminate].
  intros H0. injection H0 as <-. cbn [shape data].
  replace (numel [dim]) with dim by (cbn; lia).
  assert (Hlen : (dim <= length (data w))%nat).
  { rewrite Hw, Hs. cbn. nia. }
  split; [reflexivity|]. split.
  - unfold wf. cbn [shape data]. rewrite length_app, repeat_length, length_skipn, Hw, Hs.
    unfold wf in Hw. rewrite Hs in Hw. rewrite Hw in Hlen. cbn in *. lia.
  - unfold row, chunk. cbn [shape data tl skipn Nat.mul].
    replace (numel [dim]) with dim by (cbn; lia).
    rewrite Nat.mul_1_r, firstn_app, repeat_length, Nat.sub_diag, firstn_O, app_nil_r.
    apply firstn_all2. rewrite repeat_length. lia.
Qed.

Lemma init_padding_rows_zero (slots : slot_kind) (config : Config) (dataset : Dataset)
    (raw_kg_neighbors : tensor nat) (draw_user draw_entity : nat -> R) (self : CGKR) :
  init slots config dataset raw_kg_neighbors draw_user draw_entity = Ok self ->
  padding_rows_zero self
  /\ row (user_embedding self) 0 = repeat 0 (cfg_embedding_size config)
  /\ row (entity_embedding self) 0 = repeat 0 (cfg_embedding_size config).
Proof.
  unfold init. intros H.
  apply bind_Ok in H. destruct H as [ui [_ H]].
  apply bind_Ok in H. destruct H as [kg [_ H]].
  apply bind_Ok in H. destruct H as [ue [Hu H]].
  apply bind_Ok in H. destruct H as [ee [He H]].
  apply bind_Ok in H. destruct H as [ee0 [Fe H]].
  apply bind_Ok in H. destruct H as [ue0 [Fu H]].
  injection H as <-. unfold padding_rows_zero, zero_row0.
  cbn [user_embedding entity_embedding].
  destruct (new_embedding_Ok _ _ _ Hu) as [Su Wu].
  destruct (new_embedding_Ok _ _ _ He) as [Se We].
  destruct (fill_row0_zero Su Wu Fu) as [Su0 [_ Ru]].
  destruct (fill_row0_zero Se We Fe) as [Se0 [_ Re]].
  rewrite Su0, Se0. cbn [tl numel fold_right]. rewrite Nat.mul_1_r. tauto.
Qed.

Lemma forward_same_tables (self self' : CGKR) (r : tensor R * tensor R) :
  forward self = Ok (r, self') -> same_tables self self'.
Proof.
  unfold forward. intros H. inv_bind H. inv_bind H. inv_bind H. inv_bind H. inv_bind H.
  destruct a3 as [u x]. injection H as _ <-. split; reflexivity.
Qed.

Lemma same_tables_refl (self : CGKR) : same_tables self self.
Proof. split; reflexivity. Qed.

Lemma same_tables_trans (a b c : CGKR) :
  same_tables a b -> same_tables b c -> same_tables a c.
Proof. unfold same_tables. intros [? ?] [? ?]. split; congruence. Qed.

Lemma set_restore_same_tables (self : CGKR) (a b : option (tensor R)) :
  same_tables self (set_restore self a b).
Proof. split; reflexivity. Qed.
(** ** The loss tuple *)




(** The state in which [calculate_loss] leaves the model when it does not
    call [forward]. *)
Lemma calculate_loss_state (self : CGKR) :
  let s := if is_some (restore_user_e self) || is_some (restore_item_e self)
           then set_restore self None None else self in
  same_tables self s /\ forward_calls s = forward_calls self
  /\ restore_user_e s = None /\ restore_item_e s = None
  /\ cf_pos_flag s = cf_pos_flag self /\ cf_neg_flag s = cf_neg_flag self
  /\ cf_loss_function s = cf_loss_function self
  /\ cf_pos_weight s = cf_pos_weight self /\ cf_neg_weight s = cf_neg_weight self.
Proof.
  destruct self as [a b c d e f g h i j k l m n o p q [ru|] [ri|] fc]; cbn;
    repeat split; reflexivity.
Qed.

Lemma hop_loop_ext (s1 s2 : CGKR) (batch_size : nat) (vs : list (tensor R))
    (n hop : nat) (acc : list (tensor R)) :
  same_cf_attributes s1 s2 ->
  hop_loop s1 batch_size vs n hop acc = hop_loop s2 batch_size vs n hop acc.
Proof.
  intros [_ [Hm [Hd _]]]. revert hop acc. induction n as [|n IH]; intros hop acc; [reflexivity|].
  cbn [hop_loop]. rewrite Hm, Hd.
  destruct (py_nth vs (hop + 1)) as [ev|]; [|reflexivity]. cbn [bind].
  destruct (view_infer _ _ ev) as [v|]; [|reflexivity]. cbn [bind].
  destruct (mean_dim 2 v) as [mv|]; [|reflexivity]. cbn [bind]. apply IH.
Qed.

Lemma layer_loop_ext (s1 s2 : CGKR) (batch_size n i : nat) (vs l : list (tensor R)) :
  same_cf_attributes s1 s2 ->
  layer_loop s1 batch_size n i vs l = layer_loop s2 batch_size n i vs l.
Proof.
  intros H. revert i vs l. induction n as [|n IH]; intros i vs l; [reflexivity|].
  cbn [layer_loop]. rewrite (hop_loop_ext batch_size vs (n_kg_layers s1 - i) 0 [] H).
  destruct H as [HL _]. rewrite HL.
  destruct (hop_loop s2 batch_size vs (n_kg_layers s2 - i) 0 []) as [vs'|]; [|reflexivity].
  cbn [bind]. destruct (py_nth vs' 0) as [e0|]; [|reflexivity]. cbn [bind]. apply IH.
Qed.

Lemma get_cf_i_embeddings_ext (s1 s2 : CGKR) (items table : tensor nat) :
  same_cf_attributes s1 s2 ->
  get_cf_i_embeddings s1 items table = get_cf_i_embeddings s2 items table.
Proof.
  intros H. unfold get_cf_i_embeddings, get_batch_neighbors.
  destruct (shape0 items) as [b|]; [|reflexivity]. cbn [bind].
  pose proof H as [HL [_ [_ HE]]]. rewrite HL, HE.
  destruct (unsqueeze 1 items) as [e0|]; [|reflexivity]. cbn [bind].
  destruct (batch_neighbors_loop table b (n_kg_layers s2) 0 [e0]) as [es|]; [|reflexivity].
  cbn [bind]. destruct (mapM (index (entity_embedding s2)) es) as [vs|]; [|reflexivity].
  cbn [bind]. destruct (py_nth vs 0) as [v0|]; [|reflexivity]. cbn [bind].
  rewrite (layer_loop_ext b (n_kg_layers s2) 0 vs [squeeze v0] H). reflexivity.
Qed.


Lemma calculate_loss_state_cf (self : CGKR) :
  same_cf_attributes
    (if is_some (restore_user_e self) || is_some (restore_item_e self)
     then set_restore self None None else self) self.
Proof.
  destruct (is_some (restore_user_e self) || is_some (restore_item_e self));
    repeat split; reflexivity.
Qed.

Lemma calculate_loss_forward_once (self : CGKR) (interaction : Interaction) :
  forall (E : option (tensor R)) (losses : list R) (self' : CGKR),
        calculate_loss self interaction None E = Ok (losses, self') ->
        forward_calls self' = S (forward_calls self).
Proof.
  intros E losses self' H. unfold calculate_loss in H.
  pose proof (calculate_loss_state self) as St.
  set (s := if is_some (restore_user_e self) || is_some (restore_item_e self)
            then set_restore self None None else self) in *.
  cbv zeta in St. destruct St as [_ [Hfc _]].
  apply bind_Ok in H. destruct H as [[[u e] s1] [Hf H]].
  apply bind_Ok in Hf. destruct Hf as [[[u' e'] s1'] [Hf Hs1]].
  injection Hs1 as _ _ <-.
  assert (Hc : forward_calls s1' = S (forward_calls s)).
  { unfold forward in Hf.
    apply bind_Ok in Hf. destruct Hf as [x1 [_ Hf]].
    apply bind_Ok in Hf. destruct Hf as [x2 [_ Hf]].
    apply bind_Ok in Hf. destruct Hf as [x3 [_ Hf]].
    apply bind_Ok in Hf. destruct Hf as [x4 [_ Hf]].
    apply bind_Ok in Hf. destruct Hf as [[x5 x6] [_ Hf]].
    injection Hf as _ _ <-. reflexivity. }
  repeat (apply bind_Ok in H; destruct H as [? [_ H]]).
  injection H as _ <-. now rewrite Hc, Hfc.
Qed.
(** ** What [forward] returns *)

Lemma forward_inv (self self' : CGKR) (U E : tensor R) :
  forward self = Ok ((U, E), self') ->
  through_graph (kg_adj self) (entity_embedding self) (n_kg_layers self) = Ok E
  /\ (exists item_embeddings ui_embeddings propagated dropped,
        slice0 (n_items self) E = Ok item_embeddings
        /\ cat0 (user_embedding self) item_embeddings = Ok ui_embeddings
        /\ through_graph (ui_adj self) ui_embeddings (n_ui_layers self) = Ok propagated
        /\ split2 propagated (n_users self) (n_items self) = Ok (U, dropped))
  /\ same_tables self self'
  /\ restore_user_e self' = restore_user_e self
  /\ restore_item_e self' = restore_item_e self
  /\ n_items self' = n_items self
  /\ forward_calls self' = S (forward_calls self).
Proof.
  unfold forward. intros H.
  apply bind_Ok in H. destruct H as [e [He H]].
  apply bind_Ok in H. destruct H as [it [Hit H]].
  apply bind_Ok in H. destruct H as [ui [Hui H]].
  apply bind_Ok in H. destruct H as [pr [Hpr H]].
  apply bind_Ok in H. destruct H as [[u dropped] [Hsp H]].
  injection H as <- <- <-.
  split; [exact He|]. split; [exists it, ui, pr, dropped; tauto|].
  repeat split; reflexivity.
Qed.

Lemma cleared_attributes (self : CGKR) :
  let s := if is_some (restore_user_e self) || is_some (restore_item_e self)
           then set_restore self None None else self in
  kg_adj s = kg_adj self /\ entity_embedding s = entity_embedding self
  /\ n_kg_layers s = n_kg_layers self.
Proof.
  cbv zeta. destruct (is_some (restore_user_e self) || is_some (restore_item_e self));
    repeat split; reflexivity.
Qed.

(** Without embeddings handed over, [calculate_loss] is [forward] followed
    by [calculate_loss] on what [forward] returned. *)
Lemma calculate_loss_recomputed (self : CGKR) (interaction : Interaction)
    (E0 : option (tensor R)) (losses : list R) (self' : CGKR) :
  calculate_loss self interaction None E0 = Ok (losses, self') ->
  exists U E s1,
    through_graph (kg_adj self) (entity_embedding self) (n_kg_layers self) = Ok E
    /\ same_tables self s1
    /\ calculate_loss s1 interaction (Some U) (Some E) = Ok (losses, self').
Proof.
  intros H. unfold calculate_loss in H.
  pose proof (calculate_loss_state self) as St.
  pose proof (cleared_attributes self) as Ca.
  set (s := if is_some (restore_user_e self) || is_some (restore_item_e self)
            then set_restore self None None else self) in *.
  cbv zeta in St, Ca. destruct St as [Hst [_ [Hru [Hri _]]]]. destruct Ca as [Hk [He HL]].
  apply bind_Ok in H. destruct H as [[[u e] s1] [Hf H]].
  apply bind_Ok in Hf. destruct Hf as [[[U E] s1'] [Hf Hs1]].
  injection Hs1 as <- <- <-.
  destruct (@forward_inv _ _ _ _ Hf) as [Hth [_ [Hsame [Hru1 [Hri1 _]]]]].
  exists U, E, s1'. rewrite Hk, He, HL in Hth. split; [exact Hth|].
  split; [now apply same_tables_trans with (b := s)|].
  unfold calculate_loss. rewrite Hru1, Hri1, Hru, Hri. cbn [is_some orb bind].
  exact H.
Qed.

Lemma full_sort_predict_inv (self self' : CGKR) (interaction : Interaction)
    (scores : tensor R) :
  restore_user_e self = None \/ restore_item_e self = None ->
  full_sort_predict self interaction = Ok (scores, self') ->
  exists U E item_embeddings s1,
    forward self = Ok ((U, E), s1)
    /\ slice0 (n_items self) E = Ok item_embeddings
    /\ restore_user_e self' = Some U
    /\ restore_item_e self' = Some item_embeddings
    /\ same_tables self self'
    /\ (u <- index U (USER_ID interaction) ;;
        t <- transpose01 item_embeddings ;;
        m <- matmul u t ;;
        view_flat m) = Ok scores.
Proof.
  intros Hnone H. unfold full_sort_predict in H.
  apply bind_Ok in H. destruct H as [s2 [Hs2 H]].
  assert (Hs2' : (' (u, restore_entity_e, self') <- forward self ;;
                  let self' := set_restore self' (Some u) (restore_item_e self') in
                  items <- slice0 (n_items self') restore_entity_e ;;
                  Ok (set_restore self' (restore_user_e self') (Some items))) = Ok s2).
  { destruct Hnone as [Hn|Hn]; rewrite Hn in Hs2; [exact Hs2|].
    destruct (restore_user_e self); exact Hs2. }
  clear Hs2. apply bind_Ok in Hs2'. destruct Hs2' as [[[U E] s1] [Hf Hs2]].
  apply bind_Ok in Hs2. destruct Hs2 as [items [Hit Hs2]].
  injection Hs2 as <-.
  destruct (@forward_inv _ _ _ _ Hf) as [_ [_ [Hsame [_ [_ [Hni _]]]]]].
  cbn [restore_user_e restore_item_e set_restore subscript n_items] in *.
  rewrite Hni in Hit.
  apply bind_Ok in H. destruct H as [u [Hu H]].
  apply bind_Ok in H. destruct H as [t [Ht H]].
  apply bind_Ok in H. destruct H as [m [Hm H]].
  apply bind_Ok in H. destruct H as [fl [Hfl H]].
  injection H as <- <-.
  exists U, E, items, s1. split; [exact Hf|]. split; [exact Hit|].
  split; [reflexivity|]. split; [reflexivity|].
  split; [destruct Hsame; split; assumption|].
  rewrite Hu. cbn [bind]. rewrite Ht. cbn [bind]. rewrite Hm. exact Hfl.
Qed.
Lemma calculate_loss_same_tables (self self' : CGKR) (interaction : Interaction)
    (U0 E0 : option (tensor R)) (losses : list R) :
  calculate_loss self interaction U0 E0 = Ok (losses, self') -> same_tables self self'.
Proof.
  intros H. destruct U0 as [U|].
  - unfold calculate_loss in H.
    pose proof (calculate_loss_state self) as St.
    set (s := if is_some (restore_user_e self) || is_some (restore_item_e self)
              then set_restore self None None else self) in *.
    cbv zeta in St. destruct St as [Hst _]. cbn [bind] in H.
    repeat (apply bind_Ok in H; destruct H as [? [_ H]]).
    injection H as _ <-. exact Hst.
  - destruct (@calculate_loss_recomputed _ _ _ _ _ H) as [U [E [s1 [_ [Hs1 H1]]]]].
    apply same_tables_trans with (b := s1); [exact Hs1|].
    unfold calculate_loss in H1.
    pose proof (calculate_loss_state s1) as St.
    set (s := if is_some (restore_user_e s1) || is_some (restore_item_e s1)
              then set_restore s1 None None else s1) in *.
    cbv zeta in St. destruct St as [Hst _]. cbn [bind] in H1.
    repeat (apply bind_Ok in H1; destruct H1 as [? [_ H1]]).
    injection H1 as _ <-. exact Hst.
Qed.

Lemma full_sort_predict_same_tables (self self' : CGKR) (interaction : Interaction)
    (scores : tensor R) :
  full_sort_predict self interaction = Ok (scores, self') -> same_tables self self'.
Proof.
  intros H.
  destruct (restore_user_e self) as [ru|] eqn:Hru;
    [destruct (restore_item_e self) as [ri|] eqn:Hri|].
  - unfold full_sort_predict in H. rewrite Hru, Hri in H. cbn [bind] in H.
    repeat (apply bind_Ok in H; destruct H as [? [_ H]]).
    injection H as _ <-. apply same_tables_refl.
  - destruct (@full_sort_predict_inv self self' interaction scores (or_intror Hri) H)
      as [? [? [? [? [_ [_ [_ [_ [Hs _]]]]]]]]]. exact Hs.
  - destruct (@full_sort_predict_inv self self' interaction scores (or_introl Hru) H)
      as [? [? [? [? [_ [_ [_ [_ [Hs _]]]]]]]]]. exact Hs.
Qed.

Lemma same_tables_padding (self self' : CGKR) :
  same_tables self self' -> padding_rows_zero self -> padding_rows_zero self'.
Proof.
  unfold same_tables, padding_rows_zero. intros [Hu He] [Zu Ze]. rewrite Hu, He. tauto.
Qed.

Lemma generate_pos_reward_same_model (self self' : CGKR) (interaction : Interaction)
    (kg_neighbors1 kg_neighbors2 : tensor nat) (U E : tensor R) (r : tensor R * tensor R) :
  generate_pos_reward self interaction kg_neighbors1 kg_neighbors2 U E = Ok (r, self') ->
  self' = self.
Proof.
  unfold generate_pos_reward. intros H.
  repeat (apply bind_Ok in H; destruct H as [? [_ H]]).
  now injection H as _ <-.
Qed.

Lemma generate_neg_reward_same_model (self self' : CGKR) (interaction : Interaction)
    (kg_neighbors1 kg_neighbors2 : tensor nat) (U E : tensor R) (r : tensor R * tensor R) :
  generate_neg_reward self interaction kg_neighbors1 kg_neighbors2 U E = Ok (r, self') ->
  self' = self.
Proof.
  unfold generate_neg_reward. intros H.
  repeat (apply bind_Ok in H; destruct H as [? [_ H]]).
  now injection H as _ <-.
Qed.

(** Claim C8.  After [__init__] row 0 of the user table and of the entity
    table is the zero vector, and [forward], [calculate_loss],
    [full_sort_predict], [generate_pos_reward] and [generate_neg_reward]
    hand the model back with both tables as they were, so row 0 stays
    zero. *)
Theorem padding_rows_stay_zero :
  (forall slots config dataset raw_kg_neighbors draw_user draw_entity self,
     init slots config dataset raw_kg_neighbors draw_user draw_entity = Ok self ->
     padding_rows_zero self
     /\ row (user_embedding self) 0 = repeat 0 (cfg_embedding_size config)
     /\ row (entity_embedding self) 0 = repeat 0 (cfg_embedding_size config))
  /\ (forall self self' r,
        forward self = Ok (r, self') ->
        same_tables self self' /\ (padding_rows_zero self -> padding_rows_zero self'))
  /\ (forall self self' interaction U E losses,
        calculate_loss self interaction U E = Ok (losses, self') ->
        same_tables self self' /\ (padding_rows_zero self -> padding_rows_zero self'))
  /\ (forall self self' interaction scores,
        full_sort_predict self interaction = Ok (scores, self') ->
        same_tables self self' /\ (padding_rows_zero self -> padding_rows_zero self'))
  /\ (forall self self' interaction kg_neighbors1 kg_neighbors2 U E rewards,
        generate_pos_reward self interaction kg_neighbors1 kg_neighbors2 U E
        = Ok (rewards, self') ->
        same_tables self self' /\ (padding_rows_zero self -> padding_rows_zero self'))
  /\ (forall self self' interaction kg_neighbors1 kg_neighbors2 U E rewards,
        generate_neg_reward self interaction kg_neighbors1 kg_neighbors2 U E
        = Ok (rewards, self') ->
        same_tables self self' /\ (padding_rows_zero self -> padding_rows_zero self')).
Proof.
  split; [|split; [|split; [|split; [|split]]]].
  - intros slots config dataset raw du de self H. apply init_padding_rows_zero in H.
    exact H.
  - intros self self' r H. apply forward_same_tables in H.
    split; [exact H|now apply same_tables_padding].
  - intros self self' interaction U E losses H. apply calculate_loss_same_tables in H.
    split; [exact H|now apply same_tables_padding].
  - intros self self' interaction scores H. apply full_sort_predict_same_tables in H.
    split; [exact H|now apply same_tables_padding].
  - intros self self' interaction k1 k2 U E r H.
    apply generate_pos_reward_same_model in H. subst self'.
    split; [apply same_tables_refl|tauto].
  - intros self self' interaction k1 k2 U E r H.
    apply generate_neg_reward_same_model in H. subst self'.
    split; [apply same_tables_refl|tauto].
Qed.

Lemma padding_rows_stay_zero_witness :
  exists self,
    init TensorSlots Toy.config Toy.dataset Toy.kg_neighbors (fun _ => 1) (fun _ => 1)
    = Ok self
    /\ padding_rows_zero self.
Proof.
  eexists. split; [reflexivity|].
  apply (proj1 padding_rows_stay_zero TensorSlots Toy.config Toy.dataset Toy.kg_neighbors
           (fun _ => 1) (fun _ => 1)).
  reflexivity.
Defined.


(** ** The counterfactual item embedding *)

Lemma numel_squeeze (s : list nat) :
  numel (filter (fun n => negb (n =? 1)%nat) s) = numel s.
Proof.
  induction s as [|x s IH]; [reflexivity|].
  cbn [filter]. destruct (Nat.eqb_spec x 1) as [->|Hx]; cbn [negb numel fold_right].
  - fold (numel (filter (fun n => negb (n =? 1)%nat) s)). fold (numel s). rewrite IH. lia.
  - fold (numel (filter (fun n => negb (n =? 1)%nat) s)). fold (numel s). now rewrite IH.
Qed.

Lemma wf_squeeze (t : tensor R) : wf t -> wf (squeeze t).
Proof. unfold wf, squeeze. cbn [shape data]. now rewrite numel_squeeze. Qed.

Lemma reduce_Ok (f : list R -> R) (dim : nat) (t : tensor R) :
  (dim < ndim t)%nat ->
  exists t', reduce f dim t = Ok t'
             /\ shape t' = firstn dim (shape t) ++ skipn (S dim) (shape t)
             /\ wf t'.
Proof.
  intros H. unfold reduce. destruct (Nat.ltb_spec dim (ndim t)); [|lia].
  eexists. split; [reflexivity|]. split; [reflexivity|].
  unfold wf. cbn [shape data]. rewrite numel_app.
  rewrite length_flat_map_const with (w := numel (skipn (S dim) (shape t))).
  - now rewrite length_seq.
  - intros o _. now rewrite length_map, length_seq.
Qed.

Lemma index_Ok (table : tensor R) (idx : tensor nat) (n d : nat) :
  shape table = [n; d]%nat -> wf table -> wf idx -> ids_below n idx ->
  exists t, index table idx = Ok t
            /\ shape t = shape idx ++ [d]
            /\ wf t
            /\ data t = flat_map (fun i => chunk d i (data table)) (data idx).
Proof.
  intros Hs Hw Hi Hb. unfold index. rewrite Hs, (forallb_ids_below Hb).
  replace (numel [d]) with d by (cbn; lia).
  eexists. split; [reflexivity|]. split; [reflexivity|]. split; [|reflexivity].
  unfold wf. cbn [shape data]. rewrite numel_app, <- Hi.
  replace (numel [d]) with d by (cbn; lia).
  apply length_flat_map_const. intros i Hin. apply length_chunk.
  unfold ids_below in Hb. rewrite Forall_forall in Hb. specialize (Hb i Hin).
  rewrite Hw, Hs. cbn [numel fold_right]. rewrite Nat.mul_1_r.
  apply Nat.mul_le_mono_r. lia.
Qed.

Section CfEmbedding.
Variables (self : CGKR) (b m d : nat).
Hypothesis Hm : max_neighbor_size self = m.
Hypothesis Hd : embedding_size self = d.
Hypothesis Hb1 : (1 <= b)%nat.
Hypothesis Hm1 : (1 <= m)%nat.
Hypothesis Hd1 : (1 <= d)%nat.

Lemma neighbor_mean_Ok (ev : tensor R) (k : nat) :
  shape ev = [b; (m ^ S k)%nat; d] -> wf ev ->
  exists nv,
    (v <- view_infer [b] [max_neighbor_size self; embedding_size self] ev ;; mean_dim 2 v)
    = Ok nv
    /\ shape nv = [b; (m ^ k)%nat; d] /\ wf nv.
Proof.
  intros Hs Hw. unfold view_infer. rewrite Hm, Hd, Hs.
  assert (Hk : (numel [b] * numel [m; d] = b * m * d)%nat) by (cbn; lia).
  assert (Ht : (numel [b; (m ^ S k)%nat; d] = m ^ k * (b * m * d))%nat)
    by (cbn [numel fold_right]; rewrite Nat.pow_succ_r'; lia).
  rewrite Hk, Ht.
  assert (Hnz : (b * m * d <> 0)%nat) by nia.
  destruct (Nat.eqb_spec (b * m * d) 0); [contradiction|].
  rewrite Nat.Div0.mod_mul, Nat.eqb_refl, Nat.div_mul by exact Hnz.
  cbn [bind app].
  destruct (@reduce_Ok Rmean 2 (mkTensor [b; (m ^ k)%nat; m; d] (data ev)))
    as [nv [Hr [Hsh Hwf]]]; [cbn; lia|].
  exists nv. split; [exact Hr|]. split; [exact Hsh|exact Hwf].
Qed.

Lemma hop_loop_Ok (vs : list (tensor R)) (n hop : nat) (acc : list (tensor R)) :
  vectors_shaped b m d vs -> (hop + n < length vs)%nat ->
  vectors_shaped b m d acc -> length acc = hop ->
  exists out, hop_loop self b vs n hop acc = Ok out
              /\ length out = (hop + n)%nat /\ vectors_shaped b m d out.
Proof.
  intros Hvs. revert hop acc. induction n as [|n IH]; intros hop acc Hlen Hacc Hal.
  - exists acc. split; [reflexivity|]. split; [lia|exact Hacc].
  - cbn [hop_loop]. unfold py_nth.
    destruct (nth_error vs (hop + 1)) as [ev|] eqn:Hev.
    2:{ apply nth_error_None in Hev. lia. }
    cbn [bind]. destruct (Hvs _ _ Hev) as [Hs Hw].
    replace (hop + 1)%nat with (S hop) in Hs by lia.
    destruct (neighbor_mean_Ok hop Hs Hw) as [nv [Hnv [Hsnv Hwnv]]].
    destruct (view_infer [b] [max_neighbor_size self; embedding_size self] ev) as [v|];
      [|discriminate]. cbn [bind] in Hnv |- *. rewrite Hnv. cbn [bind].
    destruct (IH (S hop) (acc ++ [nv])) as [out [Ho [Hlo Hso]]].
    + lia.
    + intros k t Hk. destruct (Nat.lt_ge_cases k (length acc)) as [Hlt|Hge].
      * rewrite nth_error_app1 in Hk by exact Hlt. now apply Hacc.
      * rewrite nth_error_app2 in Hk by exact Hge.
        destruct (k - length acc)%nat as [|j] eqn:Hj.
        -- cbn in Hk. injection Hk as <-. assert (k = hop) by lia. subst k. tauto.
        -- cbn in Hk. destruct j; discriminate.
    + rewrite length_app. cbn. lia.
    + exists out. split; [exact Ho|]. split; [lia|exact Hso].
Qed.

Lemma layer_loop_Ok (n i : nat) (vs l : list (tensor R)) (sq : list nat) :
  sq = filter (fun x => negb (x =? 1)%nat) [b; 1%nat; d] ->
  (n_kg_layers self - i = n)%nat ->
  vectors_shaped b m d vs -> length vs = S n ->
  all_shaped sq l ->
  exists out, layer_loop self b n i vs l = Ok out
              /\ length out = (length l + n)%nat /\ all_shaped sq out.
Proof.
  intros Hsq. revert i vs l. induction n as [|n IH]; intros i vs l Hi Hvs Hlen Hl.
  - exists l. split; [reflexivity|]. split; [lia|exact Hl].
  - cbn [layer_loop]. rewrite Hi.
    destruct (@hop_loop_Ok vs (S n) 0 []) as [next [Hn [Hln Hsn]]].
    + exact Hvs.
    + lia.
    + intros k t Hk. destruct k; discriminate.
    + reflexivity.
    + rewrite Hn. cbn [bind]. unfold py_nth.
      destruct next as [|e0 next']; [cbn in Hln; lia|]. cbn [nth_error bind].
      destruct (Hsn 0%nat e0 eq_refl) as [Hs0 Hw0].
      destruct (IH (S i) (e0 :: next') (l ++ [squeeze e0])) as [out [Ho [Hlo Hso]]].
      * lia.
      * exact Hsn.
      * cbn in Hln |- *. lia.
      * apply Forall_app. split; [exact Hl|]. constructor; [|constructor].
        split; [|now apply wf_squeeze].
        unfold squeeze. cbn [shape]. rewrite Hs0, Hsq. reflexivity.
      * exists out. split; [exact Ho|]. split; [|exact Hso].
        rewrite Hlo, length_app. cbn. lia.
Qed.

End CfEmbedding.
Lemma wf_map_seq_shape {A} (g : nat -> A) (s : list nat) :
  wf (mkTensor s (map g (seq 0 (numel s)))).
Proof. unfold wf. cbn [shape data]. now rewrite length_map, length_seq. Qed.

Lemma get_batch_neighbors_hops (self : CGKR) (items kg_neighbors : tensor nat) (b m n : nat) :
  shape items = [b] -> shape kg_neighbors = [n; m]%nat ->
  ids_below n items -> ids_below n kg_neighbors -> (1 <= b)%nat ->
  get_batch_neighbors self items kg_neighbors
  = Ok (map (hop kg_neighbors items b m) (seq 0 (S (n_kg_layers self)))).
Proof.
  intros Hi Hk Ii Ik Hb. unfold get_batch_neighbors, shape0, unsqueeze, ndim. rewrite Hi.
  cbn [bind length Nat.leb firstn skipn app].
  apply (batch_neighbors_loop_hops Hk Ii Ik (n_kg_layers self) 0 Hb).
Qed.

Lemma mapM_index_hops (W : tensor R) (kg_neighbors items : tensor nat) (b m n ne d : nat)
    (start len : nat) :
  shape W = [ne; d]%nat -> wf W ->
  shape items = [b] -> wf items -> shape kg_neighbors = [n; m]%nat -> wf kg_neighbors ->
  ids_below n items -> ids_below n kg_neighbors ->
  ids_below ne items -> ids_below ne kg_neighbors ->
  exists vs,
    mapM (index W) (map (hop kg_neighbors items b m) (seq start len)) = Ok vs
    /\ length vs = len
    /\ forall k t, nth_error vs k = Some t ->
         shape t = [b; (m ^ (start + k))%nat; d] /\ wf t.
Proof.
  intros HW WW Hi Wi Hk Wk Ii Ik Ji Jk. revert start.
  induction len as [|len IH]; intros start.
  - exists []. split; [reflexivity|]. split; [reflexivity|].
    intros k t Hkt. destruct k; discriminate.
  - cbn [seq map mapM].
    destruct (@index_Ok W (hop kg_neighbors items b m start) ne d HW WW)
      as [v [Hv [Hsv [Hwv _]]]].
    + now apply wf_hop with (n := n).
    + now apply ids_below_hop.
    + rewrite Hv. cbn [bind]. destruct (IH (S start)) as [vs [Hvs [Hl Hsh]]].
      rewrite Hvs. cbn [bind]. exists (v :: vs). split; [reflexivity|].
      split; [cbn; lia|]. intros k t Hkt. destruct k as [|k].
      * cbn in Hkt. injection Hkt as <-. rewrite Hsv, shape_hop, Nat.add_0_r.
        split; [reflexivity|exact Hwv].
      * cbn in Hkt. destruct (Hsh k t Hkt) as [Hs Hw].
        replace (start + S k)%nat with (S start + k)%nat by lia. tauto.
Qed.

Section CfEmbeddingOk.
Variables (self : CGKR) (items kg_neighbors : tensor nat) (b m d n ne : nat).
Hypothesis Hm : max_neighbor_size self = m.
Hypothesis Hd : embedding_size self = d.
Hypothesis HW : shape (entity_embedding self) = [ne; d]%nat.
Hypothesis WW : wf (entity_embedding self).
Hypothesis Hitems : shape items = [b].
Hypothesis Witems : wf items.
Hypothesis Hkg : shape kg_neighbors = [n; m]%nat.
Hypothesis Wkg : wf kg_neighbors.
Hypothesis Iitems : ids_below n items.
Hypothesis Ikg : ids_below n kg_neighbors.
Hypothesis Jitems : ids_below ne items.
Hypothesis Jkg : ids_below ne kg_neighbors.
Hypothesis Hb2 : (2 <= b)%nat.
Hypothesis Hd2 : (2 <= d)%nat.
Hypothesis Hm1 : (1 <= m)%nat.

Lemma get_cf_i_embeddings_Ok :
  exists cf, get_cf_i_embeddings self items kg_neighbors = Ok cf
             /\ shape cf = [b; d]%nat /\ wf cf.
Proof.
  unfold get_cf_i_embeddings. unfold shape0 at 1. rewrite Hitems. cbn [bind].
  rewrite (@get_batch_neighbors_hops self items kg_neighbors b m n) by (assumption || lia).
  cbn [bind].
  destruct (@mapM_index_hops (entity_embedding self) kg_neighbors items b m n ne d
              0 (S (n_kg_layers self))) as [vs [Hvs [Hlen Hsh]]]; try assumption.
  rewrite Hvs. cbn [bind].
  assert (Hshaped : vectors_shaped b m d vs).
  { intros k t Hk. apply (Hsh k t Hk). }
  destruct vs as [|e0 vs']; [cbn in Hlen; lia|]. unfold py_nth. cbn [nth_error bind].
  destruct (Hshaped 0%nat e0 eq_refl) as [Hs0 Hw0].
  assert (Hsq : filter (fun x => negb (x =? 1)%nat) [b; 1%nat; d] = [b; d]%nat).
  { cbn [filter]. destruct (Nat.eqb_spec b 1); [lia|].
    destruct (Nat.eqb_spec d 1); [lia|]. reflexivity. }
  destruct (@layer_loop_Ok self b m d Hm Hd ltac:(lia) Hm1 ltac:(lia)
              (n_kg_layers self) 0 (e0 :: vs') [squeeze e0] [b; d]%nat)
    as [out [Ho [Hlo Hso]]].
  - symmetry. exact Hsq.
  - lia.
  - exact Hshaped.
  - exact Hlen.
  - constructor; [|constructor]. split; [|now apply wf_squeeze].
    unfold squeeze. cbn [shape]. rewrite Hs0. exact Hsq.
  - rewrite Ho. cbn [bind]. rewrite stack_mean with (n := b) (rest := [d]).
    + eexists. split; [reflexivity|]. split; [reflexivity|]. apply wf_map_seq_shape.
    + intros ->. cbn in Hlo. lia.
    + exact Hso.
Qed.

End CfEmbeddingOk.
(** ** Scores of a batch *)

Lemma chunk_flat_map_const {A B} (f : A -> list B) (l : list A) (w i : nat) (a0 : A) :
  (forall a, In a l -> length (f a) = w) -> (i < length l)%nat ->
  chunk w i (flat_map f l) = f (nth i l a0).
Proof.
  revert i. induction l as [|a l IH]; intros i Hlen Hi; [cbn in Hi; lia|].
  cbn [flat_map]. assert (Ha : length (f a) = w) by (apply Hlen; left; reflexivity).
  destruct i as [|i].
  - cbn [nth]. rewrite chunk_0, firstn_app, Ha, Nat.sub_diag, firstn_O, app_nil_r.
    apply firstn_all2. lia.
  - rewrite chunk_S, skipn_app, Ha, Nat.sub_diag, skipn_O, skipn_all2 by lia.
    cbn [app nth]. apply IH; [|cbn in Hi; lia].
    intros x Hx. apply Hlen. right; exact Hx.
Qed.

Lemma firstn_zip_with {A B C} (f : A -> B -> C) (n : nat) (l1 : list A) (l2 : list B) :
  firstn n (zip_with f l1 l2) = zip_with f (firstn n l1) (firstn n l2).
Proof.
  revert l1 l2. induction n as [|n IH]; intros [|a l1] [|x l2]; cbn; try reflexivity.
  f_equal. apply IH.
Qed.

Lemma skipn_zip_with {A B C} (f : A -> B -> C) (n : nat) (l1 : list A) (l2 : list B) :
  skipn n (zip_with f l1 l2) = zip_with f (skipn n l1) (skipn n l2).
Proof.
  revert l1 l2. induction n as [|n IH]; intros [|a l1] [|x l2]; cbn; try reflexivity.
  - destruct (skipn n l1); reflexivity.
  - apply IH.
Qed.

Lemma chunk_zip_with {A B C} (f : A -> B -> C) (w i : nat) (l1 : list A) (l2 : list B) :
  chunk w i (zip_with f l1 l2) = zip_with f (chunk w i l1) (chunk w i l2).
Proof. unfold chunk. now rewrite skipn_zip_with, firstn_zip_with. Qed.

Lemma index_rows (table : tensor R) (idx : tensor nat) (n d b : nat) :
  shape table = [n; d]%nat -> wf table ->
  shape idx = [b] -> wf idx -> ids_below n idx ->
  exists t, index table idx = Ok t
            /\ shape t = [b; d]%nat /\ wf t
            /\ forall i, (i < b)%nat -> row t i = row table (nth i (data idx) 0%nat).
Proof.
  intros Hs Hw Hi Wi Hb.
  destruct (@index_Ok table idx n d Hs Hw Wi Hb) as [t [Ht [Hst [Hwt Hdt]]]].
  exists t. split; [exact Ht|]. rewrite Hi in Hst. cbn [app] in Hst.
  split; [exact Hst|]. split; [exact Hwt|].
  intros i Hlt. unfold row. rewrite Hst, Hs, Hdt. cbn [tl app].
  replace (numel [d]) with d by (cbn; lia).
  apply (chunk_flat_map_const (fun e => chunk d e (data table))).
  - intros e He. apply length_chunk.
    unfold ids_below in Hb. rewrite Forall_forall in Hb. specialize (Hb e He).
    rewrite Hw, Hs. cbn [numel fold_right]. rewrite Nat.mul_1_r.
    apply Nat.mul_le_mono_r. lia.
  - rewrite Wi, Hi. cbn. lia.
Qed.

Lemma scores_rows (u p : tensor R) (b d : nat) :
  shape u = [b; d]%nat -> wf u -> shape p = [b; d]%nat -> wf p ->
  (m <- mul u p ;; sum_dim 1 m)
  = Ok (mkTensor [b] (map (fun i => dot (row u i) (row p i)) (seq 0 b))).
Proof.
  intros Hu Wu Hp Wp. unfold mul. rewrite binop_same by congruence. cbn [bind].
  unfold sum_dim. rewrite reduce_rows with (B := b) (D := d).
  - f_equal. f_equal. apply map_ext. intros i. unfold row, dot. cbn [shape data].
    rewrite Hu, Hp. cbn [tl]. now rewrite chunk_zip_with.
  - exact Hu.
  - unfold wf. cbn [shape data]. rewrite length_zip_with, Wu, Wp, Hu, Hp. lia.
Qed.

Lemma pair_scores_rows (U E : tensor R) (users items : tensor nat) (nu ne d b : nat) :
  shape U = [nu; d]%nat -> wf U -> shape E = [ne; d]%nat -> wf E ->
  shape users = [b] -> wf users -> ids_below nu users ->
  shape items = [b] -> wf items -> ids_below ne items ->
  pair_scores U E users items
  = Ok (mkTensor [b]
          (map (fun i => dot (row U (nth i (data users) 0%nat))
                             (row E (nth i (data items) 0%nat))) (seq 0 b))).
Proof.
  intros HU WU HE WE Hu Wu Iu Hi Wi Ii. unfold pair_scores.
  destruct (@index_rows U users nu d b HU WU Hu Wu Iu) as [u [Eu [Su [Wfu Ru]]]].
  destruct (@index_rows E items ne d b HE WE Hi Wi Ii) as [e [Ee [Se [Wfe Re]]]].
  rewrite Eu, Ee. cbn [bind]. rewrite (@scores_rows u e b d Su Wfu Se Wfe).
  f_equal. f_equal. apply map_ext_in. intros i Hin. apply in_seq in Hin.
  rewrite Ru, Re by lia. reflexivity.
Qed.

(** ** The reward entry points *)

Lemma at_map_seq (g : nat -> R) (n i : nat) :
  (i < n)%nat -> at_ (mkTensor [n] (map g (seq 0 n))) i = g i.
Proof. intros H. unfold at_. cbn [data]. now apply nth_map_seq. Qed.

Section RewardEntryPoints.
Variables (self : CGKR) (interaction : Interaction) (kg_neighbors1 kg_neighbors2 : tensor nat).
Variables (U E : tensor R) (b d m n ne nu nE : nat).
Hypothesis Hm : max_neighbor_size self = m.
Hypothesis Hd : embedding_size self = d.
Hypothesis HW : shape (entity_embedding self) = [ne; d]%nat.
Hypothesis WW : wf (entity_embedding self).
Hypothesis HU : shape U = [nu; d]%nat.
Hypothesis WU : wf U.
Hypothesis HE : shape E = [nE; d]%nat.
Hypothesis WE : wf E.
Hypothesis Husers : shape (USER_ID interaction) = [b].
Hypothesis Wusers : wf (USER_ID interaction).
Hypothesis Iusers : ids_below nu (USER_ID interaction).
Hypothesis Hpos : shape (ITEM_ID interaction) = [b].
Hypothesis Wpos : wf (ITEM_ID interaction).
Hypothesis Ipos : ids_below (Nat.min nE (Nat.min n ne)) (ITEM_ID interaction).
Hypothesis Hneg : shape (NEG_ITEM_ID interaction) = [b].
Hypothesis Wneg : wf (NEG_ITEM_ID interaction).
Hypothesis Ineg : ids_below (Nat.min nE (Nat.min n ne)) (NEG_ITEM_ID interaction).
Hypothesis Hkg1 : shape kg_neighbors1 = [n; m]%nat.
Hypothesis Wkg1 : wf kg_neighbors1.
Hypothesis Ikg1 : ids_below (Nat.min n ne) kg_neighbors1.
Hypothesis Hkg2 : shape kg_neighbors2 = [n; m]%nat.
Hypothesis Wkg2 : wf kg_neighbors2.
Hypothesis Ikg2 : ids_below (Nat.min n ne) kg_neighbors2.
Hypothesis Hb2 : (2 <= b)%nat.
Hypothesis Hd2 : (2 <= d)%nat.
Hypothesis Hm1 : (1 <= m)%nat.

Lemma ids_below_weaken (k k' : nat) (t : tensor nat) :
  (k <= k')%nat -> ids_below k t -> ids_below k' t.
Proof.
  intros Hle H. unfold ids_below in *. rewrite Forall_forall in *.
  intros i Hi. specialize (H i Hi). lia.
Qed.

Lemma cf_embedding_Ok (items table : tensor nat) :
  shape items = [b] -> wf items -> ids_below (Nat.min nE (Nat.min n ne)) items ->
  shape table = [n; m]%nat -> wf table -> ids_below (Nat.min n ne) table ->
  exists cf, get_cf_i_embeddings self items table = Ok cf
             /\ shape cf = [b; d]%nat /\ wf cf.
Proof.
  intros Hi Wi Ii Ht Wt It.
  apply (@get_cf_i_embeddings_Ok self items table b m d n ne); try assumption;
    eapply ids_below_weaken; try eassumption; lia.
Qed.

Lemma batch_rows :
  exists u pe nge,
    index U (USER_ID interaction) = Ok u
    /\ index E (ITEM_ID interaction) = Ok pe
    /\ index E (NEG_ITEM_ID interaction) = Ok nge
    /\ (shape u = [b; d]%nat /\ wf u /\ forall i, (i < b)%nat -> row u i = batch_row U (USER_ID interaction) i)
    /\ (shape pe = [b; d]%nat /\ wf pe /\ forall i, (i < b)%nat -> row pe i = batch_row E (ITEM_ID interaction) i)
    /\ (shape nge = [b; d]%nat /\ wf nge /\ forall i, (i < b)%nat -> row nge i = batch_row E (NEG_ITEM_ID interaction) i).
Proof.
  destruct (@index_rows U (USER_ID interaction) nu d b HU WU Husers Wusers Iusers)
    as [u [Eu Pu]].
  destruct (@index_rows E (ITEM_ID interaction) nE d b HE WE Hpos Wpos)
    as [pe [Ep Pp]]; [eapply ids_below_weaken; [|exact Ipos]; lia|].
  destruct (@index_rows E (NEG_ITEM_ID interaction) nE d b HE WE Hneg Wneg)
    as [nge [En Pn]]; [eapply ids_below_weaken; [|exact Ineg]; lia|].
  exists u, pe, nge. tauto.
Qed.

Lemma generate_pos_reward_formula :
  exists cf1 cf2,
    get_cf_i_embeddings self (ITEM_ID interaction) kg_neighbors1 = Ok cf1
    /\ get_cf_i_embeddings self (ITEM_ID interaction) kg_neighbors2 = Ok cf2
    /\ generate_pos_reward self interaction kg_neighbors1 kg_neighbors2 U E
       = Ok ((mkTensor [b]
               (map (fun i =>
                       ln (1e-10 + sigmoid
                             (dot (batch_row U (USER_ID interaction) i) (row cf1 i)
                              - dot (batch_row U (USER_ID interaction) i)
                                    (batch_row E (NEG_ITEM_ID interaction) i)))
                       - ib_beta self * norm2 (row cf1 i)) (seq 0 b)),
             mkTensor [b]
               (map (fun i =>
                       ln (1e-10 + sigmoid
                             (dot (batch_row U (USER_ID interaction) i)
                                  (batch_row E (ITEM_ID interaction) i)
                              - dot (batch_row U (USER_ID interaction) i) (row cf2 i))))
                    (seq 0 b))), self).
Proof.
  destruct batch_rows as [u [pe [nge [Eu [Ep [En [[Su [Wu Ru]] [[Sp [Wp Rp]] [Sn [Wn Rn]]]]]]]]]].
  destruct (cf_embedding_Ok Hpos Wpos Ipos Hkg1 Wkg1 Ikg1) as [cf1 [C1 [S1 W1]]].
  destruct (cf_embedding_Ok Hpos Wpos Ipos Hkg2 Wkg2 Ikg2) as [cf2 [C2 [S2 W2]]].
  exists cf1, cf2. split; [exact C1|]. split; [exact C2|].
  unfold generate_pos_reward. rewrite Eu, Ep, En. cbn [bind].
  rewrite (@scores_rows u pe b d Su Wu Sp Wp). cbn [bind].
  rewrite (@scores_rows u nge b d Su Wu Sn Wn). cbn [bind].
  rewrite C1. cbn [bind]. rewrite (@scores_rows u cf1 b d Su Wu S1 W1). cbn [bind].
  rewrite get_reward1_rows with (B := b) (D := d);
    try reflexivity; try apply wf_map_seq; try assumption.
  cbn [bind]. rewrite C2. cbn [bind].
  rewrite (@scores_rows u cf2 b d Su Wu S2 W2). cbn [bind].
  rewrite get_reward2_rows with (B := b); try reflexivity; try apply wf_map_seq.
  cbn [bind]. f_equal. f_equal. f_equal; f_equal; apply map_ext_in; intros i Hi;
    apply in_seq in Hi;
    rewrite !at_map_seq by lia; rewrite ?Ru, ?Rp, ?Rn by lia; reflexivity.
Qed.

Lemma generate_neg_reward_formula :
  exists cf1 cf2,
    get_cf_i_embeddings self (NEG_ITEM_ID interaction) kg_neighbors1 = Ok cf1
    /\ get_cf_i_embeddings self (NEG_ITEM_ID interaction) kg_neighbors2 = Ok cf2
    /\ generate_neg_reward self interaction kg_neighbors1 kg_neighbors2 U E
       = Ok ((mkTensor [b]
               (map (fun i =>
                       ln (1e-10 + sigmoid
                             (dot (batch_row U (USER_ID interaction) i)
                                  (batch_row E (ITEM_ID interaction) i)
                              - dot (batch_row U (USER_ID interaction) i) (row cf1 i)))
                       - ib_beta self * norm2 (row cf1 i)) (seq 0 b)),
             mkTensor [b]
               (map (fun i =>
                       ln (1e-10 + sigmoid
                             (dot (batch_row U (USER_ID interaction) i) (row cf2 i)
                              - dot (batch_row U (USER_ID interaction) i)
                                    (batch_row E (NEG_ITEM_ID interaction) i))))
                    (seq 0 b))), self).
Proof.
  destruct batch_rows as [u [pe [nge [Eu [Ep [En [[Su [Wu Ru]] [[Sp [Wp Rp]] [Sn [Wn Rn]]]]]]]]]].
  destruct (cf_embedding_Ok Hneg Wneg Ineg Hkg1 Wkg1 Ikg1) as [cf1 [C1 [S1 W1]]].
  destruct (cf_embedding_Ok Hneg Wneg Ineg Hkg2 Wkg2 Ikg2) as [cf2 [C2 [S2 W2]]].
  exists cf1, cf2. split; [exact C1|]. split; [exact C2|].
  unfold generate_neg_reward. rewrite Eu, Ep, En. cbn [bind].
  rewrite (@scores_rows u pe b d Su Wu Sp Wp). cbn [bind].
  rewrite (@scores_rows u nge b d Su Wu Sn Wn). cbn [bind].
  rewrite C1. cbn [bind]. rewrite (@scores_rows u cf1 b d Su Wu S1 W1). cbn [bind].
  rewrite get_reward1_rows with (B := b) (D := d);
    try reflexivity; try apply wf_map_seq; try assumption.
  cbn [bind]. rewrite C2. cbn [bind].
  rewrite (@scores_rows u cf2 b d Su Wu S2 W2). cbn [bind].
  rewrite get_reward2_rows with (B := b); try reflexivity; try apply wf_map_seq.
  cbn [bind]. f_equal. f_equal. f_equal; f_equal; apply map_ext_in; intros i Hi;
    apply in_seq in Hi;
    rewrite !at_map_seq by lia; rewrite ?Ru, ?Rp, ?Rn by lia; reflexivity.
Qed.

End RewardEntryPoints.

(** Claim C1 fails on the code for a batch of one line.  [squeeze()] then
    drops the batch dimension as well, the counterfactual embedding comes
    out as a vector of [embedding_size] entries, and [torch.norm(dim=1)] in
    [get_reward1] raises: neither entry point returns a reward. *)
Theorem generate_reward_single_line_batch :
  (exists cf,
     get_cf_i_embeddings Toy.model (ITEM_ID Toy.single) Toy.kg_neighbors = Ok cf
     /\ shape cf = [2%nat])
  /\ generate_pos_reward Toy.model Toy.single Toy.kg_neighbors Toy.kg_neighbors
       (user_embedding Toy.model) (entity_embedding Toy.model) = Raise IndexError
  /\ generate_neg_reward Toy.model Toy.single Toy.kg_neighbors Toy.kg_neighbors
       (user_embedding Toy.model) (entity_embedding Toy.model) = Raise IndexError.
Proof.
  split; [eexists; split; reflexivity|]. split; reflexivity.
Qed.

(** On batches of at least two lines the entry points do return the
    rewards of the formulas; here on the two-line batch. *)
Lemma generate_pos_reward_formula_example :
  exists cf1 cf2,
    get_cf_i_embeddings Toy.model (ITEM_ID Toy.interaction) Toy.kg_neighbors = Ok cf1
    /\ get_cf_i_embeddings Toy.model (ITEM_ID Toy.interaction) Toy.kg_neighbors = Ok cf2
    /\ generate_pos_reward Toy.model Toy.interaction Toy.kg_neighbors Toy.kg_neighbors
         (user_embedding Toy.model) (entity_embedding Toy.model)
       = Ok ((mkTensor [2%nat]
               (map (fun i =>
                       ln (1e-10 + sigmoid
                             (dot (batch_row (user_embedding Toy.model) Toy.users i) (row cf1 i)
                              - dot (batch_row (user_embedding Toy.model) Toy.users i)
                                    (batch_row (entity_embedding Toy.model) Toy.neg_items i)))
                       - ib_beta Toy.model * norm2 (row cf1 i)) (seq 0 2)),
             mkTensor [2%nat]
               (map (fun i =>
                       ln (1e-10 + sigmoid
                             (dot (batch_row (user_embedding Toy.model) Toy.users i)
                                  (batch_row (entity_embedding Toy.model) Toy.items i)
                              - dot (batch_row (user_embedding Toy.model) Toy.users i)
                                    (row cf2 i))))
                    (seq 0 2))), Toy.model).
Proof.
  apply (@generate_pos_reward_formula Toy.model Toy.interaction Toy.kg_neighbors
           Toy.kg_neighbors (user_embedding Toy.model) (entity_embedding Toy.model)
           2 2 2 3 3 3 3);
    try reflexivity; try lia;
    unfold ids_below; cbn; repeat constructor.
Defined.

(** ** [calculate_loss] returns on well-shaped calls *)

Lemma BPRLoss_Ok (a c : tensor R) (b : nat) :
  shape a = [b] -> shape c = [b] -> wf a -> wf c -> exists l, BPRLoss a c = Ok l.
Proof.
  intros Ha Hc Wa Wc. unfold BPRLoss. rewrite (sub_vectors Ha Hc Wa Wc). cbn [bind]. eauto.
Qed.

Lemma L1Loss_Ok (a c : tensor R) (b : nat) :
  shape a = [b] -> shape c = [b] -> wf a -> wf c -> exists l, L1Loss a c = Ok l.
Proof.
  intros Ha Hc Wa Wc. unfold L1Loss. rewrite (sub_vectors Ha Hc Wa Wc). cbn [bind]. eauto.
Qed.

Lemma consistency_loss_Ok (self : CGKR) (a c e : tensor R) (b : nat) :
  shape a = [b] -> shape c = [b] -> shape e = [b] -> wf a -> wf c -> wf e ->
  exists l, (if String.eqb (cf_loss_function self) "mae"
             then L1Loss a c else get_bpr_loss self c e) = Ok l
  /\ exists l', (if String.eqb (cf_loss_function self) "mae"
                 then L1Loss a c else get_bpr_loss self e c) = Ok l'.
Proof.
  intros Ha Hc He Wa Wc We. unfold get_bpr_loss.
  destruct (L1Loss_Ok Ha Hc Wa Wc) as [l1 H1].
  destruct (BPRLoss_Ok Hc He Wc We) as [l2 H2].
  destruct (BPRLoss_Ok He Hc We Wc) as [l3 H3].
  destruct (String.eqb (cf_loss_function self) "mae"); eauto.
Qed.

Lemma calculate_loss_returns (self : CGKR) (interaction : Interaction)
    (table_pos table_neg : tensor nat) (U E : tensor R) (b d : nat) :
  well_shaped_batch self interaction table_pos table_neg U E b d ->
  (cf_pos_flag self = true -> cf_pos_kg_neighbors interaction = Some table_pos) ->
  (cf_neg_flag self = true -> cf_neg_kg_neighbors interaction = Some table_neg) ->
  exists losses self',
    calculate_loss self interaction (Some U) (Some E) = Ok (losses, self').
Proof.
  intros [m [n [ne [nu [nE H]]]]] Hpt Hnt.
  destruct H as [Hm [Hd [HW [WW [HU [WU [HE [WE [Hu [Wu [Iu [Hp [Wp [Ip [Hn [Wn [In_
                [Hk1 [Wk1 [Ik1 [Hk2 [Wk2 [Ik2 [Hb2 [Hd2 Hm1]]]]]]]]]]]]]]]]]]]]]]]]].
  destruct (@batch_rows self interaction table_pos table_neg U E b d m n ne nu nE
              Hm Hd HU WU HE WE Hu Wu Iu Hp Wp Ip Hn Wn In_ Ik1 Ik2 Hb2 Hd2 Hm1)
    as [u [pe [nge [Eu [Ep [En [[Su [Wfu _]] [[Sp [Wfp _]] [Sn [Wfn _]]]]]]]]]].
  destruct (@cf_embedding_Ok self interaction table_pos table_neg b d m n ne nu nE
              Hm Hd HW WW Iu Ip In_ Ik1 Ik2 Hb2 Hd2 Hm1 _ _ Hp Wp Ip Hk1 Wk1 Ik1)
    as [cfp [Cp [Scp Wcp]]].
  destruct (@cf_embedding_Ok self interaction table_pos table_neg b d m n ne nu nE
              Hm Hd HW WW Iu Ip In_ Ik1 Ik2 Hb2 Hd2 Hm1 _ _ Hn Wn In_ Hk2 Wk2 Ik2)
    as [cfn [Cn [Scn Wcn]]].
  unfold calculate_loss.
  pose proof (calculate_loss_state self) as St.
  pose proof (calculate_loss_state_cf self) as Scf.
  set (s := if is_some (restore_user_e self) || is_some (restore_item_e self)
            then set_restore self None None else self) in *.
  cbv zeta in St. destruct St as [_ [_ [_ [_ [Hpf [Hnf _]]]]]].
  cbn [bind subscript]. rewrite Eu, Ep, En. cbn [bind].
  rewrite (@scores_rows u pe b d Su Wfu Sp Wfp). cbn [bind].
  rewrite (@scores_rows u nge b d Su Wfu Sn Wfn). cbn [bind].
  set (pos := mkTensor [b] (map (fun i => dot (row u i) (row pe i)) (seq 0 b))).
  set (neg := mkTensor [b] (map (fun i => dot (row u i) (row nge i)) (seq 0 b))).
  assert (Wpos : wf pos) by apply wf_map_seq.
  assert (Wneg : wf neg) by apply wf_map_seq.
  destruct (@BPRLoss_Ok pos neg b eq_refl eq_refl Wpos Wneg) as [bpr Hbpr].
  unfold get_bpr_loss at 1. rewrite Hbpr. cbn [bind].
  rewrite Hpf, Hnf.
  assert (P : exists l1,
    (if cf_pos_flag self
     then
       table <- get_field (cf_pos_kg_neighbors interaction) ;;
       cf_posi_embeddings <- get_cf_i_embeddings s (ITEM_ID interaction) table ;;
       cf_pos_scores <- (m0 <- mul u cf_posi_embeddings ;; sum_dim 1 m0) ;;
       cf_pos_loss <-
         (if String.eqb (cf_loss_function s) "mae"
          then L1Loss pos cf_pos_scores
          else get_bpr_loss s cf_pos_scores neg) ;;
       Ok ([bpr] ++ [cf_pos_weight s * cf_pos_loss])
     else Ok [bpr]) = Ok l1).
  { destruct (cf_pos_flag self); [|eauto].
    rewrite (Hpt eq_refl). cbn [get_field bind].
    rewrite (get_cf_i_embeddings_ext (ITEM_ID interaction) table_pos Scf), Cp. cbn [bind].
    rewrite (@scores_rows u cfp b d Su Wfu Scp Wcp). cbn [bind].
    destruct (@consistency_loss_Ok s pos
                (mkTensor [b] (map (fun i => dot (row u i) (row cfp i)) (seq 0 b))) neg b
                eq_refl eq_refl eq_refl Wpos (wf_map_seq _ _) Wneg) as [l [Hl _]].
    rewrite Hl. cbn [bind]. eauto. }
  destruct P as [l1 ->]. cbn [bind].
  assert (N : exists l2,
    (if cf_neg_flag self
     then
       table <- get_field (cf_neg_kg_neighbors interaction) ;;
       cf_negi_embeddings <- get_cf_i_embeddings s (NEG_ITEM_ID interaction) table ;;
       cf_neg_scores <- (m0 <- mul u cf_negi_embeddings ;; sum_dim 1 m0) ;;
       cf_neg_loss <-
         (if String.eqb (cf_loss_function s) "mae"
          then L1Loss neg cf_neg_scores
          else get_bpr_loss s pos cf_neg_scores) ;;
       Ok (l1 ++ [cf_neg_weight s * cf_neg_loss])
     else Ok l1) = Ok l2).
  { destruct (cf_neg_flag self); [|eauto].
    rewrite (Hnt eq_refl). cbn [get_field bind].
    rewrite (get_cf_i_embeddings_ext (NEG_ITEM_ID interaction) table_neg Scf), Cn. cbn [bind].
    rewrite (@scores_rows u cfn b d Su Wfu Scn Wcn). cbn [bind].
    destruct (@consistency_loss_Ok s neg
                (mkTensor [b] (map (fun i => dot (row u i) (row cfn i)) (seq 0 b))) pos b
                eq_refl eq_refl eq_refl Wneg (wf_map_seq _ _) Wpos) as [l0 [_ [l Hl]]].
    rewrite Hl. cbn [bind]. eauto. }
  destruct N as [l2 ->]. cbn [bind]. eauto.
Qed.

Lemma toy_well_shaped :
  well_shaped_batch Toy.model Toy.interaction Toy.kg_neighbors Toy.kg_neighbors
    (user_embedding Toy.model) (entity_embedding Toy.model) 2 2.
Proof.
  exists 2%nat, 3%nat, 3%nat, 3%nat, 3%nat.
  repeat split; try reflexivity; try lia; unfold ids_below; cbn; repeat constructor.
Defined.

(** ** The knowledge-graph adjacency, in general *)

Lemma key_eqb_eq (a c : nat * nat) : key_eqb a c = true <-> a = c.
Proof.
  unfold key_eqb. destruct a as [a1 a2], c as [c1 c2]. cbn [fst snd].
  rewrite andb_true_iff, !Nat.eqb_eq. split; [intros [-> ->]; reflexivity|].
  intros H. injection H as -> ->. tauto.
Qed.

Lemma dict_set_keys_in (k k0 : nat * nat) (v : R) (d : dict) :
  In k0 (map fst (dict_set k v d)) <-> In k0 (map fst d) \/ k0 = k.
Proof.
  induction d as [|[k' v'] d IH]; cbn [dict_set map fst In].
  - intuition congruence.
  - destruct (key_eqb k k') eqn:Hk; cbn [map fst In].
    + apply key_eqb_eq in Hk. subst k'. intuition congruence.
    + rewrite IH. tauto.
Qed.

Lemma dict_set_NoDup (k : nat * nat) (v : R) (d : dict) :
  NoDup (map fst d) -> NoDup (map fst (dict_set k v d)).
Proof.
  induction d as [|[k' v'] d IH]; intros H; cbn [dict_set map fst].
  - constructor; [intros []|constructor].
  - cbn [map fst] in H. apply NoDup_cons_iff in H. destruct H as [Hn Hd].
    destruct (key_eqb k k') eqn:Hk; cbn [map fst].
    + constructor; assumption.
    + constructor; [|now apply IH].
      rewrite dict_set_keys_in. intros [Hin| ->]; [contradiction|].
      assert (Hr : key_eqb k k = true) by now apply key_eqb_eq.
      congruence.
Qed.

Lemma dict_update_keys_in (d : dict) (kvs : list ((nat * nat) * R)) (k0 : nat * nat) :
  In k0 (map fst (dict_update d kvs)) <-> In k0 (map fst d) \/ In k0 (map fst kvs).
Proof.
  unfold dict_update. revert d. induction kvs as [|[k v] kvs IH]; intros d; cbn [fold_left map fst In].
  - tauto.
  - rewrite IH, dict_set_keys_in. cbn [fst snd]. intuition congruence.
Qed.

Lemma dict_update_NoDup (d : dict) (kvs : list ((nat * nat) * R)) :
  NoDup (map fst d) -> NoDup (map fst (dict_update d kvs)).
Proof.
  unfold dict_update. revert d. induction kvs as [|[k v] kvs IH]; intros d H; cbn [fold_left].
  - exact H.
  - apply IH. now apply dict_set_NoDup.
Qed.

Lemma map_fst_combine_repeat {A} (ks : list A) (w : R) :
  map fst (combine ks (repeat w (length ks))) = ks.
Proof. induction ks as [|k ks IH]; cbn; [reflexivity|now rewrite IH]. Qed.

Lemma map_fst_combine_repeat_n {A} (ks : list A) (w : R) (n : nat) :
  n = length ks -> map fst (combine ks (repeat w n)) = ks.
Proof. intros ->. apply map_fst_combine_repeat. Qed.

Lemma kg_edges_Ok (kg_neighbors : tensor nat) (n m : nat) (rows : list nat) :
  shape kg_neighbors = [n; m]%nat -> Forall (fun i => (i < n)%nat) rows ->
  kg_edges kg_neighbors rows
  = Ok (flat_map (fun i => map (fun c => (i, c))
                             (filter (fun c => negb (c =? 0)%nat)
                                     (chunk m i (data kg_neighbors)))) rows).
Proof.
  intros Hs. induction rows as [|i rows IH]; intros H; [reflexivity|].
  apply Forall_cons_iff in H. destruct H as [Hi H].
  cbn [kg_edges flat_map]. unfold table_row. rewrite Hs.
  destruct (Nat.ltb_spec i n); [|lia]. cbn [bind]. rewrite (IH H). reflexivity.
Qed.

(** What [get_kg_adj] stores for a table of plain integers: one entry per
    distinct pair of an entity and a non-padding id in its slots, each of
    weight [1 / max_neighbor_size]. *)
Lemma get_kg_adj_entries (n_entities m n : nat) (kg_neighbors : tensor nat) (adj : sparse) :
  shape kg_neighbors = [n; m]%nat -> (n_entities <= n)%nat ->
  get_kg_adj IntSlots n_entities m kg_neighbors = Ok adj ->
  nrows adj = n_entities /\ ncols adj = n_entities
  /\ NoDup (map (fun e => fst e) (entries adj))
  /\ Forall (fun e => snd e = 1 / INR m) (entries adj)
  /\ forall i c, In (i, c) (map (fun e => fst e) (entries adj)) <->
                 (i < n_entities)%nat /\ c <> 0%nat /\ In c (chunk m i (data kg_neighbors)).
Proof.
  intros Hs Hle H. unfold get_kg_adj, kg_dok in H.
  rewrite (@kg_edges_Ok kg_neighbors n m (seq 0 n_entities) Hs) in H.
  2:{ apply Forall_forall. intros i Hi. apply in_seq in Hi. lia. }
  cbn [bind] in H. destruct (m =? 0)%nat; [discriminate|]. cbn [bind] in H.
  apply convert_to_tensor_Ok in H. subst adj. unfold dok_to_coo. cbn [nrows ncols entries dok_rows dok_cols dok_dict].
  set (edges := flat_map _ (seq 0 n_entities)).
  set (dd := dict_of (combine edges (repeat (1 / INR m) (length edges)))).
  assert (Hk : map (fun e : nat * nat * R => fst e)
                   (map (fun kv : nat * nat * R => (fst (fst kv), snd (fst kv), snd kv)) dd)
               = map fst dd).
  { rewrite map_map. apply map_ext. intros [[a c] v]. reflexivity. }
  split; [reflexivity|]. split; [reflexivity|]. rewrite Hk. split; [|split].
  - unfold dd, dict_of. apply dict_update_NoDup. constructor.
  - apply Forall_forall. intros e He. apply in_map_iff in He. destruct He as [kv [<- Hkv]].
    cbn [snd]. assert (Hv : Forall (fun kv => snd kv = 1 / INR m) dd).
    { unfold dd, dict_of. apply dict_update_values; [constructor|apply combine_repeat_values]. }
    rewrite Forall_forall in Hv. now apply Hv.
  - intros i c. unfold dd, dict_of. rewrite dict_update_keys_in, map_fst_combine_repeat.
    cbn [map In]. unfold edges. rewrite in_flat_map. split.
    + intros [[]|[j [Hj Hin]]]. apply in_map_iff in Hin. destruct Hin as [c' [Heq Hc]].
      injection Heq as -> ->. apply filter_In in Hc. destruct Hc as [Hc Hnz].
      apply in_seq in Hj. split; [lia|]. split; [|exact Hc].
      intros ->. discriminate.
    + intros [Hi [Hnz Hc]]. right. exists i. split; [apply in_seq; lia|].
      apply in_map_iff. exists c. split; [reflexivity|]. apply filter_In. split; [exact Hc|].
      destruct c; [contradiction|reflexivity].
Qed.

Lemma Rsum_Permutation (l l' : list R) : Permutation l l' -> Rsum l = Rsum l'.
Proof.
  induction 1 as [|x l l' _ IH|x y l|l l' l'' _ IH1 _ IH2]; cbn [Rsum fold_right].
  - reflexivity.
  - fold (Rsum l) (Rsum l'). now rewrite IH.
  - fold (Rsum l). lra.
  - congruence.
Qed.

Lemma Rsum_map_scale (w : R) {A} (g : A -> R) (l : list A) :
  Rsum (map (fun a => w * g a) l) = w * Rsum (map g l).
Proof.
  induction l as [|a l IH]; cbn [map Rsum fold_right]; [lra|].
  fold (Rsum (map (fun a => w * g a) l)) (Rsum (map g l)). rewrite IH. lra.
Qed.

Lemma Rsum_map_skip_zero (g : nat -> R) (l : list nat) :
  g 0%nat = 0 ->
  Rsum (map g (filter (fun c => negb (c =? 0)%nat) l)) = Rsum (map g l).
Proof.
  intros H0. induction l as [|c l IH]; [reflexivity|].
  cbn [filter]. destruct (Nat.eqb_spec c 0) as [->|Hc]; cbn [negb map Rsum fold_right].
  - fold (Rsum (map g l)). rewrite H0. fold (Rsum (map g (filter (fun c => negb (c =? 0)%nat) l))).
    rewrite IH. lra.
  - fold (Rsum (map g l)) (Rsum (map g (filter (fun c => negb (c =? 0)%nat) l))).
    now rewrite IH.
Qed.

Lemma row_columns_NoDup (i : nat) (es : list (nat * nat * R)) :
  NoDup (map (fun e => fst e) es) ->
  NoDup (map (fun e => snd (fst e)) (row_entries i es)).
Proof.
  unfold row_entries. induction es as [|e es IH]; intros H; [constructor|].
  cbn [map] in H. apply NoDup_cons_iff in H. destruct H as [Hn Hd].
  cbn [filter]. destruct (Nat.eqb_spec (fst (fst e)) i) as [Hi|Hi]; [|now apply IH].
  cbn [map]. constructor; [|now apply IH].
  intros Hin. apply in_map_iff in Hin. destruct Hin as [e' [Hc He']].
  apply filter_In in He'. destruct He' as [He' Hr]. apply Nat.eqb_eq in Hr.
  apply Hn. apply in_map_iff. exists e'. split; [|exact He'].
  destruct e as [[a c] v], e' as [[a' c'] v']. cbn [fst snd] in *. congruence.
Qed.

Lemma row_columns_in (i c : nat) (es : list (nat * nat * R)) :
  In c (map (fun e => snd (fst e)) (row_entries i es))
  <-> In (i, c) (map (fun e => fst e) es).
Proof.
  unfold row_entries. rewrite !in_map_iff. split.
  - intros [e [Hc He]]. apply filter_In in He. destruct He as [He Hr].
    apply Nat.eqb_eq in Hr. exists e. split; [|exact He].
    destruct e as [[a c'] v]. cbn [fst snd] in *. congruence.
  - intros [e [Hk He]]. exists e. destruct e as [[a c'] v]. cbn [fst snd] in *.
    injection Hk as -> ->. split; [reflexivity|]. apply filter_In. split; [exact He|].
    cbn [fst]. apply Nat.eqb_refl.
Qed.

(** For a table of plain integers: where no neighbor is repeated in the
    slots of entity [i] (and row 0 of [x], the padding row, is zero), row
    [i] of the product of the adjacency with [x] is the uniform average over
    the slots of [i]. *)
Lemma get_kg_adj_row_average (n_entities m n d i : nat) (kg_neighbors : tensor nat)
    (adj : sparse) (x : list R) :
  shape kg_neighbors = [n; m]%nat -> (n_entities <= n)%nat ->
  get_kg_adj IntSlots n_entities m kg_neighbors = Ok adj ->
  (i < n_entities)%nat ->
  NoDup (filter (fun c => negb (c =? 0)%nat) (chunk m i (data kg_neighbors))) ->
  (forall k, (k < d)%nat -> nth k x 0 = 0) ->
  chunk d i (spmm_data adj d x) = slot_average kg_neighbors m d x i.
Proof.
  intros Hs Hle Hadj Hi Hnd Hz.
  destruct (get_kg_adj_entries _ Hs Hle Hadj) as [Hr [_ [Hkeys [Hval Hin]]]].
  unfold spmm_data, slot_average. rewrite Hr.
  rewrite chunk_flat_map_const with (a0 := 0%nat).
  2:{ intros a _. now rewrite length_map, length_seq. }
  2:{ now rewrite length_seq. }
  rewrite seq_nth by exact Hi. cbn [Nat.add].
  apply map_ext_in. intros k Hk. apply in_seq in Hk.
  set (slots := chunk m i (data kg_neighbors)) in *.
  set (cols := map (fun e : nat * nat * R => snd (fst e)) (row_entries i (entries adj))).
  assert (E1 : Rsum (map (fun e : nat * nat * R => snd e * nth (snd (fst e) * d + k) x 0)
                         (row_entries i (entries adj)))
               = Rsum (map (fun c => 1 / INR m * nth (c * d + k) x 0) cols)).
  { unfold cols. rewrite map_map. f_equal. apply map_ext_in. intros e He.
    unfold row_entries in He. apply filter_In in He. destruct He as [He _].
    rewrite Forall_forall in Hval. now rewrite (Hval e He). }
  rewrite E1.
  assert (P : Permutation cols (filter (fun c => negb (c =? 0)%nat) slots)).
  { apply NoDup_Permutation.
    - now apply row_columns_NoDup.
    - exact Hnd.
    - intros c. unfold cols. rewrite row_columns_in, Hin, filter_In. split.
      + intros [_ [Hnz Hc]]. split; [exact Hc|]. destruct c; [contradiction|reflexivity].
      + intros [Hc Hnz]. split; [exact Hi|]. split; [|exact Hc]. intros ->. discriminate. }
  rewrite (Rsum_Permutation (Permutation_map _ P)).
  rewrite Rsum_map_scale, (Rsum_map_skip_zero (fun c => nth (c * d + k) x 0)).
  - unfold Rdiv. lra.
  - cbn [Nat.mul Nat.add]. apply Hz. lia.
Qed.

(** ** The knowledge-graph adjacency for either kind of table *)

Lemma filter_none {A} (f : A -> bool) (l : list A) :
  (forall x, In x l -> f x = false) -> filter f l = [].
Proof.
  induction l as [|a l IH]; intros H; [reflexivity|].
  cbn [filter]. rewrite (H a (or_introl eq_refl)). apply IH. intros x Hx. apply H. now right.
Qed.

Lemma filter_all {A} (f : A -> bool) (l : list A) :
  (forall x, In x l -> f x = true) -> filter f l = l.
Proof.
  induction l as [|a l IH]; intros H; [reflexivity|].
  cbn [filter]. rewrite (H a (or_introl eq_refl)). f_equal. apply IH.
  intros x Hx. apply H. now right.
Qed.

Lemma row_entries_flat_map_seq (g : nat -> list (nat * nat * R)) (e s len : nat) :
  (forall i x, In x (g i) -> fst (fst x) = i) ->
  row_entries e (flat_map g (seq s len))
  = if ((s <=? e) && (e <? s + len))%nat then g e else [].
Proof.
  intros Hg. revert s. induction len as [|len IH]; intros s.
  - cbn [seq flat_map row_entries filter].
    destruct (Nat.leb_spec s e), (Nat.ltb_spec e (s + 0)); cbn [andb]; try reflexivity; lia.
  - cbn [seq flat_map]. unfold row_entries in *. rewrite filter_app, IH.
    destruct (Nat.eq_dec s e) as [->|Hne].
    + rewrite filter_all.
      2:{ intros x Hx. apply Nat.eqb_eq. now apply Hg. }
      destruct (Nat.leb_spec (S e) e); [lia|]. cbn [andb]. rewrite app_nil_r.
      destruct (Nat.leb_spec e e); [|lia]. destruct (Nat.ltb_spec e (e + S len)); [|lia].
      reflexivity.
    + rewrite filter_none.
      2:{ intros x Hx. apply Nat.eqb_neq. rewrite (Hg s x Hx). exact Hne. }
      cbn [app].
      destruct (Nat.leb_spec (S s) e), (Nat.ltb_spec e (S s + len)),
               (Nat.leb_spec s e), (Nat.ltb_spec e (s + S len)); cbn [andb]; try reflexivity; lia.
Qed.

(** A key that is not in the dictionary is appended. *)
Lemma dict_set_fresh (k : nat * nat) (v : R) (d : dict) :
  ~ In k (map fst d) -> dict_set k v d = d ++ [(k, v)].
Proof.
  induction d as [|[k' v'] d IH]; intros Hn; [reflexivity|].
  cbn [dict_set app]. destruct (key_eqb k k') eqn:Hk.
  - apply key_eqb_eq in Hk. subst k'. exfalso. apply Hn. now left.
  - f_equal. apply IH. intros Hin. apply Hn. now right.
Qed.

Lemma dict_update_fresh (d : dict) (kvs : list ((nat * nat) * R)) :
  NoDup (map fst kvs) -> (forall k, In k (map fst kvs) -> ~ In k (map fst d)) ->
  dict_update d kvs = d ++ kvs.
Proof.
  unfold dict_update. revert d. induction kvs as [|[k v] kvs IH]; intros d Hnd Hfresh.
  - cbn [fold_left]. now rewrite app_nil_r.
  - cbn [map fst] in Hnd. apply NoDup_cons_iff in Hnd. destruct Hnd as [Hk Hnd].
    cbn [fold_left fst snd]. rewrite dict_set_fresh by (apply Hfresh; now left).
    rewrite IH; [now rewrite <- app_assoc|exact Hnd|].
    intros k0 Hin. rewrite map_app, in_app_iff. cbn [map fst In].
    intros [Hd|[<-|[]]]; [|contradiction].
    apply (Hfresh k0); [now right|exact Hd].
Qed.

(** A dictionary built from pairwise distinct keys keeps every item. *)
Lemma dict_of_distinct_keys (kvs : list ((nat * nat) * R)) :
  NoDup (map fst kvs) -> dict_of kvs = kvs.
Proof.
  intros H. unfold dict_of. rewrite dict_update_fresh; [reflexivity|exact H|].
  intros k _ [].
Qed.

(** Keys that pair anything with distinct objects are distinct. *)
Lemma NoDup_combine_seq {A} (l : list A) (s n : nat) : NoDup (combine l (seq s n)).
Proof.
  revert s n. induction l as [|a l IH]; intros s n; [constructor|].
  destruct n as [|n]; [constructor|]. cbn [seq combine]. constructor; [|apply IH].
  intros Hin. apply in_combine_r, in_seq in Hin. lia.
Qed.

Lemma tensor_keys_entries (edges : list (nat * nat)) (w : R) (pre : list nat) :
  map (fun kv : nat * nat * R =>
         (fst (fst kv), nth (snd (fst kv)) (pre ++ map snd edges) 0%nat, snd kv))
      (combine (combine (map fst edges) (seq (length pre) (length edges)))
               (repeat w (length edges)))
  = map (fun e => (fst e, snd e, w)) edges.
Proof.
  revert pre. induction edges as [|[i c] edges IH]; intros pre; [reflexivity|].
  cbn [map fst snd length seq combine repeat]. f_equal.
  - now rewrite nth_middle.
  - specialize (IH (pre ++ [c])). rewrite <- app_assoc, length_app in IH. cbn [app length] in IH.
    rewrite Nat.add_1_r in IH. exact IH.
Qed.

Lemma map_flat_map_pairs {A B C} (f : B -> C) (g : A -> list B) (l : list A) :
  map f (flat_map g l) = flat_map (fun a => map f (g a)) l.
Proof.
  induction l as [|a l IH]; [reflexivity|]. cbn [flat_map]. now rewrite map_app, IH.
Qed.

(** What [get_kg_adj] stores for a tensor table: one entry for every slot
    that does not hold the padding id, in slot order, each of weight
    [1 / max_neighbor_size]. *)
Lemma get_kg_adj_tensor_entries (n_entities msize m n : nat) (kg_neighbors : tensor nat)
    (adj : sparse) :
  shape kg_neighbors = [n; m]%nat -> (n_entities <= n)%nat ->
  get_kg_adj TensorSlots n_entities msize kg_neighbors = Ok adj ->
  nrows adj = n_entities /\ ncols adj = n_entities
  /\ entries adj
     = flat_map (fun i => map (fun c => (i, c, 1 / INR msize))
                              (filter (fun c => negb (c =? 0)%nat)
                                      (chunk m i (data kg_neighbors))))
                (seq 0 n_entities).
Proof.
  intros Hs Hle H. unfold get_kg_adj, kg_dok_tensor in H.
  rewrite (@kg_edges_Ok kg_neighbors n m (seq 0 n_entities) Hs) in H.
  2:{ apply Forall_forall. intros i Hi. apply in_seq in Hi. lia. }
  cbn [bind] in H. destruct (msize =? 0)%nat; [discriminate|]. cbn [bind] in H.
  apply convert_to_tensor_Ok in H. subst adj. unfold tensor_dok_to_coo.
  cbn [nrows ncols entries dok_rows dok_cols dok_dict].
  split; [reflexivity|]. split; [reflexivity|].
  set (edges := flat_map _ (seq 0 n_entities)).
  rewrite !length_map.
  rewrite dict_of_distinct_keys.
  - pose proof (tensor_keys_entries edges (1 / INR msize) []) as Hk.
    cbn [app length] in Hk. rewrite Hk.
    unfold edges. rewrite map_flat_map_pairs. apply flat_map_ext_in. intros i _.
    now rewrite map_map.
  - rewrite map_fst_combine_repeat_n; [apply NoDup_combine_seq|].
    now rewrite length_combine, length_map, length_seq, Nat.min_id.
Qed.

Lemma row_entries_tensor_table (n_entities msize m n i : nat) (kg_neighbors : tensor nat)
    (adj : sparse) :
  shape kg_neighbors = [n; m]%nat -> (n_entities <= n)%nat ->
  get_kg_adj TensorSlots n_entities msize kg_neighbors = Ok adj ->
  (i < n_entities)%nat ->
  row_entries i (entries adj)
  = map (fun c => (i, c, 1 / INR msize))
        (filter (fun c => negb (c =? 0)%nat) (chunk m i (data kg_neighbors))).
Proof.
  intros Hs Hle H Hi.
  destruct (@get_kg_adj_tensor_entries _ _ _ _ _ _ Hs Hle H) as (_ & _ & ->).
  rewrite row_entries_flat_map_seq.
  - destruct (Nat.leb_spec 0 i); [|lia]. destruct (Nat.ltb_spec i (0 + n_entities)); [|lia].
    reflexivity.
  - intros j x Hx. apply in_map_iff in Hx. destruct Hx as [c [<- _]]. reflexivity.
Qed.

(** For either kind of table: the size, the weights and the stored
    coordinates. *)
Lemma kg_adj_coords (slots : slot_kind) (n_entities m n : nat) (kg_neighbors : tensor nat)
    (adj : sparse) :
  shape kg_neighbors = [n; m]%nat -> (n_entities <= n)%nat ->
  get_kg_adj slots n_entities m kg_neighbors = Ok adj ->
  nrows adj = n_entities /\ ncols adj = n_entities
  /\ Forall (fun e => snd e = 1 / INR m) (entries adj)
  /\ forall i c, In (i, c) (map (fun e => fst e) (entries adj)) <->
                 (i < n_entities)%nat /\ c <> 0%nat /\ In c (chunk m i (data kg_neighbors)).
Proof.
  intros Hs Hle H. destruct slots.
  - destruct (@get_kg_adj_tensor_entries _ _ _ _ _ _ Hs Hle H) as (Hr & Hc & He).
    split; [exact Hr|]. split; [exact Hc|]. rewrite He. split.
    + apply Forall_forall. intros e Hin. apply in_flat_map in Hin.
      destruct Hin as [i [_ Hin]]. apply in_map_iff in Hin. destruct Hin as [c [<- _]].
      reflexivity.
    + intros i c. rewrite in_map_iff. split.
      * intros [e [Heq Hin]]. apply in_flat_map in Hin. destruct Hin as [j [Hj Hin]].
        apply in_map_iff in Hin. destruct Hin as [c' [<- Hc']]. cbn [fst] in Heq.
        injection Heq as -> ->. apply filter_In in Hc'. destruct Hc' as [Hc' Hnz].
        apply in_seq in Hj. split; [lia|]. split; [|exact Hc'].
        intros ->. discriminate.
      * intros [Hi [Hnz Hc']]. exists (i, c, 1 / INR m). split; [reflexivity|].
        apply in_flat_map. exists i. split; [apply in_seq; lia|].
        apply in_map_iff. exists c. split; [reflexivity|]. apply filter_In.
        split; [exact Hc'|]. destruct c; [contradiction|reflexivity].
  - destruct (@get_kg_adj_entries _ _ _ _ _ Hs Hle H) as [Hr [Hc [_ [Hv Hin]]]]. tauto.
Qed.

(** For either kind of table: where no neighbor is repeated in the slots
    of entity [i] (and row 0 of [x], the padding row, is zero), row [i] of
    the product of the adjacency with [x] is the uniform average over the
    slots of [i]. *)
Lemma kg_adj_row_average (slots : slot_kind) (n_entities m n d i : nat)
    (kg_neighbors : tensor nat) (adj : sparse) (x : list R) :
  shape kg_neighbors = [n; m]%nat -> (n_entities <= n)%nat ->
  get_kg_adj slots n_entities m kg_neighbors = Ok adj ->
  (i < n_entities)%nat ->
  (slots = IntSlots ->
   NoDup (filter (fun c => negb (c =? 0)%nat) (chunk m i (data kg_neighbors)))) ->
  (forall k, (k < d)%nat -> nth k x 0 = 0) ->
  chunk d i (spmm_data adj d x) = slot_average kg_neighbors m d x i.
Proof.
  intros Hs Hle Hadj Hi Hnd Hz. destruct slots.
  - destruct (@get_kg_adj_tensor_entries _ _ _ _ _ _ Hs Hle Hadj) as (Hr & _ & _).
    unfold spmm_data, slot_average. rewrite Hr.
    rewrite chunk_flat_map_const with (a0 := 0%nat).
    2:{ intros a _. now rewrite length_map, length_seq. }
    2:{ now rewrite length_seq. }
    rewrite seq_nth by exact Hi. cbn [Nat.add].
    apply map_ext_in. intros k Hk. apply in_seq in Hk.
    rewrite (@row_entries_tensor_table _ _ _ _ _ _ _ Hs Hle Hadj Hi), map_map. cbn [fst snd].
    rewrite Rsum_map_scale, (Rsum_map_skip_zero (fun c => nth (c * d + k) x 0)).
    + unfold Rdiv. lra.
    + cbn [Nat.mul Nat.add]. apply Hz. lia.
  - apply (@get_kg_adj_row_average _ _ _ _ _ _ _ _ Hs Hle Hadj Hi (Hnd eq_refl) Hz).
Qed.

Lemma kg_edges_IndexError (kg_neighbors : tensor nat) (n m : nat) (rows : list nat) :
  shape kg_neighbors = [n; m]%nat -> Exists (fun i => (n <= i)%nat) rows ->
  kg_edges kg_neighbors rows = Raise IndexError.
Proof.
  intros Hs. induction rows as [|i rows IH]; intros H; [inversion H|].
  cbn [kg_edges]. unfold table_row. rewrite Hs.
  destruct (Nat.ltb_spec i n) as [Hlt|Hge]; [|reflexivity].
  cbn [bind]. rewrite IH; [reflexivity|].
  apply Exists_cons in H. destruct H as [H|H]; [lia|exact H].
Qed.

Lemma chunk_incl {A} (w i : nat) (l : list A) (x : A) : In x (chunk w i l) -> In x l.
Proof.
  unfold chunk. intros H.
  rewrite <- (firstn_skipn (i * w) l). apply in_or_app. right.
  rewrite <- (firstn_skipn w (skipn (i * w) l)). apply in_or_app. now left.
Qed.

Lemma in_range_forall (a : coo_matrix) :
  (forall i c v, In (i, c, v) (entries a) -> (i < nrows a)%nat /\ (c < ncols a)%nat) ->
  in_range a = true.
Proof.
  intros H. unfold in_range. apply forallb_forall. intros [[i c] v] Hin. cbn [fst snd].
  destruct (H i c v Hin) as [Hi Hc].
  apply andb_true_iff. split; apply Nat.ltb_lt; assumption.
Qed.

(** A tensor table with a row for every entity and ids below
    [n_entities] gives an adjacency. *)
Lemma get_kg_adj_tensor_Ok (n_entities m n : nat) (kg_neighbors : tensor nat) :
  shape kg_neighbors = [n; m]%nat -> (n_entities <= n)%nat -> (1 <= m)%nat ->
  ids_below n_entities kg_neighbors ->
  exists adj, get_kg_adj TensorSlots n_entities m kg_neighbors = Ok adj.
Proof.
  intros Hs Hle Hm Hids. unfold get_kg_adj, kg_dok_tensor.
  rewrite (@kg_edges_Ok kg_neighbors n m (seq 0 n_entities) Hs).
  2:{ apply Forall_forall. intros i Hi. apply in_seq in Hi. lia. }
  cbn [bind]. destruct (Nat.eqb_spec m 0); [lia|]. cbn [bind].
  set (edges := flat_map _ (seq 0 n_entities)).
  unfold convert_to_tensor. rewrite in_range_forall; [eexists; reflexivity|].
  unfold tensor_dok_to_coo. cbn [nrows ncols entries dok_rows dok_cols dok_dict].
  rewrite !length_map. rewrite dict_of_distinct_keys.
  2:{ rewrite map_fst_combine_repeat_n; [apply NoDup_combine_seq|].
      now rewrite length_combine, length_map, length_seq, Nat.min_id. }
  pose proof (tensor_keys_entries edges (1 / INR m) []) as Hk.
  cbn [app length] in Hk. rewrite Hk.
  intros i c v Hin. apply in_map_iff in Hin. destruct Hin as [[i' c'] [Heq Hin]].
  cbn [fst snd] in Heq. injection Heq as -> -> _.
  unfold edges in Hin. apply in_flat_map in Hin. destruct Hin as [j [Hj Hin]].
  apply in_map_iff in Hin. destruct Hin as [c0 [Heq Hc0]]. injection Heq as -> ->.
  apply filter_In in Hc0. destruct Hc0 as [Hc0 _]. apply in_seq in Hj. split; [lia|].
  unfold ids_below in Hids. rewrite Forall_forall in Hids. apply Hids.
  apply (chunk_incl _ _ _ _ Hc0).
Qed.

(** Claim C6.  For a [torch.LongTensor] table with [max_neighbor_size]
    slots per entity and every id in range, [get_kg_adj] returns a square
    adjacency over the entities with one entry of weight
    [1 / max_neighbor_size] for every slot that does not hold the padding
    id, a repeated neighbor counted once per slot, and none for a padding
    slot; so row [i] of the product with a matrix whose padding row 0 is
    zero is the uniform average over the [max_neighbor_size] slots of
    entity [i]. *)
Theorem get_kg_adj_slot_weights (n_entities m n : nat) (kg_neighbors : tensor nat) :
  shape kg_neighbors = [n; m]%nat -> (n_entities <= n)%nat -> (1 <= m)%nat ->
  ids_below n_entities kg_neighbors ->
  exists adj,
    get_kg_adj TensorSlots n_entities m kg_neighbors = Ok adj
    /\ nrows adj = n_entities /\ ncols adj = n_entities
    /\ entries adj
       = flat_map (fun i => map (fun c => (i, c, 1 / INR m))
                                (filter (fun c => negb (c =? 0)%nat)
                                        (chunk m i (data kg_neighbors))))
                  (seq 0 n_entities)
    /\ (forall i c v, In (i, c, v) (entries adj) -> v = 1 / INR m /\ c <> 0%nat)
    /\ (forall i d x, (i < n_entities)%nat -> (forall k, (k < d)%nat -> nth k x 0 = 0) ->
          chunk d i (spmm_data adj d x) = slot_average kg_neighbors m d x i).
Proof.
  intros Hs Hle Hm Hids.
  destruct (@get_kg_adj_tensor_Ok _ _ _ _ Hs Hle Hm Hids) as [adj Hadj].
  destruct (@get_kg_adj_tensor_entries _ _ _ _ _ _ Hs Hle Hadj) as (Hr & Hc & He).
  destruct (@kg_adj_coords _ _ _ _ _ _ Hs Hle Hadj) as (_ & _ & Hv & Hin).
  exists adj. split; [exact Hadj|]. split; [exact Hr|]. split; [exact Hc|].
  split; [exact He|]. split.
  - intros i c v Hi. rewrite Forall_forall in Hv. split; [apply (Hv _ Hi)|].
    apply (Hin i c). apply in_map_iff. exists (i, c, v). split; [reflexivity|exact Hi].
  - intros i d x Hi Hz.
    apply (@kg_adj_row_average TensorSlots n_entities m n d i kg_neighbors adj x
             Hs Hle Hadj Hi); [discriminate|exact Hz].
Qed.

Lemma get_kg_adj_slot_weights_witness :
  exists adj,
    get_kg_adj TensorSlots 3 2 Toy.kg_neighbors = Ok adj
    /\ entries adj
       = [(1%nat, 2%nat, 1 / INR 2); (1%nat, 2%nat, 1 / INR 2); (2%nat, 1%nat, 1 / INR 2)]
    /\ chunk 2 1 (spmm_data adj 2 (data (entity_embedding Toy.model)))
       = slot_average Toy.kg_neighbors 2 2 (data (entity_embedding Toy.model)) 1.
Proof.
  destruct (@get_kg_adj_slot_weights 3 2 3 Toy.kg_neighbors eq_refl (le_n 3))
    as (adj & Hadj & _ & _ & He & _ & Havg).
  - lia.
  - unfold ids_below. cbn. repeat constructor.
  - exists adj. split; [exact Hadj|]. split; [exact He|].
    apply Havg; [lia|].
    intros k Hk. destruct k as [|[|k]]; [reflexivity|reflexivity|lia].
Defined.

(** ** More on the knowledge-graph adjacency *)

(** Property X1.  When [get_kg_adj] returns, for either kind of table,
    the adjacency is square of size [n_entities], every entry has weight
    [1 / max_neighbor_size], no entry points to the padding id 0, and a
    coordinate is stored exactly when the entity holds the id in one of its
    slots.  A table of plain integers stores each such coordinate once,
    however often the id is repeated in the slots; a tensor table stores
    one entry per slot, in slot order. *)
Theorem kg_adj_edges (slots : slot_kind) (n_entities m n : nat) (kg_neighbors : tensor nat)
    (adj : sparse) :
  shape kg_neighbors = [n; m]%nat -> (n_entities <= n)%nat ->
  get_kg_adj slots n_entities m kg_neighbors = Ok adj ->
  nrows adj = n_entities /\ ncols adj = n_entities
  /\ (forall i c v, In (i, c, v) (entries adj) -> v = 1 / INR m /\ c <> 0%nat)
  /\ (forall i c, In (i, c) (map (fun e => fst e) (entries adj)) <->
                  (i < n_entities)%nat /\ c <> 0%nat
                  /\ In c (chunk m i (data kg_neighbors)))
  /\ (slots = IntSlots -> NoDup (map (fun e => fst e) (entries adj)))
  /\ (slots = TensorSlots ->
      entries adj
      = flat_map (fun i => map (fun c => (i, c, 1 / INR m))
                               (filter (fun c => negb (c =? 0)%nat)
                                       (chunk m i (data kg_neighbors))))
                 (seq 0 n_entities)).
Proof.
  intros Hs Hle H.
  destruct (@kg_adj_coords _ _ _ _ _ _ Hs Hle H) as (Hr & Hc & Hv & Hin).
  split; [exact Hr|]. split; [exact Hc|]. split; [|split; [exact Hin|split]].
  - intros i c v He. rewrite Forall_forall in Hv. split; [apply (Hv _ He)|].
    apply (Hin i c). apply in_map_iff. exists (i, c, v). split; [reflexivity|exact He].
  - intros ->. now destruct (@get_kg_adj_entries _ _ _ _ _ Hs Hle H) as (_ & _ & Hnd & _).
  - intros ->. now destruct (@get_kg_adj_tensor_entries _ _ _ _ _ _ Hs Hle H) as (_ & _ & He).
Qed.

Lemma kg_adj_edges_witness :
  (exists adj,
     get_kg_adj IntSlots 3 2 Toy.kg_neighbors = Ok adj
     /\ NoDup (map (fun e => fst e) (entries adj)))
  /\ (exists adj,
        get_kg_adj TensorSlots 3 2 Toy.kg_neighbors = Ok adj
        /\ entries adj
           = [(1%nat, 2%nat, 1 / INR 2); (1%nat, 2%nat, 1 / INR 2);
              (2%nat, 1%nat, 1 / INR 2)]).
Proof.
  split.
  - eexists. split; [reflexivity|].
    destruct (@kg_adj_edges IntSlots 3 2 3 Toy.kg_neighbors _ eq_refl (le_n 3) eq_refl)
      as (_ & _ & _ & _ & Hnd & _).
    now apply Hnd.
  - eexists. split; [reflexivity|].
    destruct (@kg_adj_edges TensorSlots 3 2 3 Toy.kg_neighbors _ eq_refl (le_n 3) eq_refl)
      as (_ & _ & _ & _ & _ & He).
    now apply He.
Defined.

(** Property X2.  For a matrix [x] whose padding row 0 is zero, the row of
    [kg_adj * x] of an entity is the uniform average of the rows of [x]
    over the [max_neighbor_size] slots of the entity: for a tensor table
    always, for a table of plain integers when none of the non-padding
    neighbors of the entity is repeated in its slots. *)
Theorem kg_adj_row_is_slot_average (slots : slot_kind) (n_entities m n d i : nat)
    (kg_neighbors : tensor nat) (adj : sparse) (x : list R) :
  shape kg_neighbors = [n; m]%nat -> (n_entities <= n)%nat ->
  get_kg_adj slots n_entities m kg_neighbors = Ok adj ->
  (i < n_entities)%nat ->
  (slots = IntSlots ->
   NoDup (filter (fun c => negb (c =? 0)%nat) (chunk m i (data kg_neighbors)))) ->
  (forall k, (k < d)%nat -> nth k x 0 = 0) ->
  chunk d i (spmm_data adj d x) = slot_average kg_neighbors m d x i.
Proof.
  intros Hs Hle Hadj Hi Hnd Hz.
  apply (@kg_adj_row_average slots n_entities m n d i kg_neighbors adj x Hs Hle Hadj Hi);
    [exact Hnd|exact Hz].
Qed.

Lemma kg_adj_row_is_slot_average_witness :
  exists adj,
    get_kg_adj IntSlots 3 2 Toy.kg_neighbors = Ok adj
    /\ chunk 2 2 (spmm_data adj 2 (data (entity_embedding Toy.model)))
       = slot_average Toy.kg_neighbors 2 2 (data (entity_embedding Toy.model)) 2.
Proof.
  eexists. split; [reflexivity|].
  apply (@kg_adj_row_is_slot_average IntSlots 3 2 3 2 2 Toy.kg_neighbors _
           (data (entity_embedding Toy.model)) eq_refl (le_n 3) eq_refl).
  - lia.
  - intros _. cbn. repeat constructor; intros [].
  - intros k Hk. destruct k as [|[|k]]; [reflexivity|reflexivity|lia].
Defined.

(** Property X3.  For either kind of table, [get_kg_adj] raises
    [IndexError] when the raw table has fewer rows than there are entities,
    and [ZeroDivisionError] when the table has a row for every entity but
    [max_neighbor_size] is 0. *)
Theorem get_kg_adj_errors (slots : slot_kind) (n_entities max_neighbor_size n m : nat)
    (kg_neighbors : tensor nat) :
  shape kg_neighbors = [n; m]%nat ->
  ((n < n_entities)%nat ->
     get_kg_adj slots n_entities max_neighbor_size kg_neighbors = Raise IndexError)
  /\ ((n_entities <= n)%nat -> max_neighbor_size = 0%nat ->
        get_kg_adj slots n_entities max_neighbor_size kg_neighbors
        = Raise ZeroDivisionError).
Proof.
  intros Hs. split.
  - intros Hlt. destruct slots; unfold get_kg_adj, kg_dok, kg_dok_tensor;
      (rewrite (@kg_edges_IndexError kg_neighbors n m (seq 0 n_entities) Hs);
       [reflexivity|]);
      apply Exists_exists; exists n; (split; [apply in_seq; lia|lia]).
  - intros Hle ->. destruct slots; unfold get_kg_adj, kg_dok, kg_dok_tensor;
      (rewrite (@kg_edges_Ok kg_neighbors n m (seq 0 n_entities) Hs); [reflexivity|]);
      apply Forall_forall; intros i Hi; apply in_seq in Hi; lia.
Qed.

Lemma get_kg_adj_errors_witness :
  get_kg_adj TensorSlots 4 2 Toy.kg_neighbors = Raise IndexError
  /\ get_kg_adj IntSlots 3 0 Toy.kg_neighbors = Raise ZeroDivisionError.
Proof.
  destruct (@get_kg_adj_errors TensorSlots 4 2 3 2 Toy.kg_neighbors eq_refl) as [H1 _].
  destruct (@get_kg_adj_errors IntSlots 3 0 3 2 Toy.kg_neighbors eq_refl) as [_ H2].
  split; [apply H1; lia|apply H2; [lia|reflexivity]].
Defined.

(** ** More on the user-item adjacency *)

Lemma dict_of_keys_in (kvs : list ((nat * nat) * R)) (k : nat * nat) :
  In k (map fst (dict_of kvs)) <-> In k (map fst kvs).
Proof. unfold dict_of. rewrite dict_update_keys_in. cbn. tauto. Qed.

Lemma dict_of_NoDup (kvs : list ((nat * nat) * R)) : NoDup (map fst (dict_of kvs)).
Proof. unfold dict_of. apply dict_update_NoDup. constructor. Qed.

Lemma combine_map_in {A B C} (f : A -> B) (g : A -> C) (l : list A) (b : B) (c : C) :
  In (b, c) (combine (map f l) (map g l)) <-> exists a, In a l /\ f a = b /\ g a = c.
Proof.
  induction l as [|a l IH]; cbn [map combine In].
  - split; [intros []|intros [a [[] _]]].
  - rewrite IH. split.
    + intros [H|[a' [Ha H]]]; [injection H as <- <-; eauto|exists a'; tauto].
    + intros [a' [[->|Ha] [<- <-]]]; [left; reflexivity|right; eauto].
Qed.

Lemma ui_dok_keys (n_users n_items : nat) (ui_graph : coo_matrix) (k : nat * nat) :
  In k (map fst (dok_dict (ui_dok n_users n_items ui_graph))) <-> In k (ui_keys n_users ui_graph).
Proof.
  unfold ui_dok, ui_keys. cbn [dok_dict].
  rewrite dict_update_keys_in, !dict_of_keys_in.
  rewrite !map_fst_combine_repeat_n
    by (rewrite length_combine, !length_map; lia).
  rewrite map_map.
  destruct k as [a b]. rewrite in_flat_map.
  rewrite (combine_map_in (fun e : nat * nat * R => fst (fst e))
             (fun e : nat * nat * R => (snd (fst e) + n_users)%nat)).
  rewrite <- (map_map (fun e : nat * nat * R => snd (fst e)) (fun c => (c + n_users)%nat)).
  rewrite map_map.
  rewrite (combine_map_in (fun e : nat * nat * R => (snd (fst e) + n_users)%nat)
             (fun e : nat * nat * R => fst (fst e))).
  split.
  - intros [[e [He [<- <-]]]|[e [He [<- <-]]]]; exists e; (split; [exact He|]); cbn; tauto.
  - intros [e [He Hin]]. cbn [In] in Hin.
    destruct Hin as [H|[H|[]]]; injection H as <- <-; [left|right]; exists e; tauto.
Qed.

Lemma ui_keys_sym (n_users : nat) (ui_graph : coo_matrix) (a b : nat) :
  In (a, b) (ui_keys n_users ui_graph) -> In (b, a) (ui_keys n_users ui_graph).
Proof.
  unfold ui_keys. rewrite !in_flat_map. intros [e [He Hin]]. exists e. split; [exact He|].
  cbn [In] in *. destruct Hin as [H|[H|[]]]; injection H as <- <-; tauto.
Qed.

Lemma ui_dok_NoDup (n_users n_items : nat) (ui_graph : coo_matrix) :
  NoDup (map fst (dok_dict (ui_dok n_users n_items ui_graph))).
Proof. unfold ui_dok. cbn [dok_dict]. apply dict_update_NoDup. apply dict_of_NoDup. Qed.

Lemma norm_adj_entry (adj : dok_matrix) (i j : nat) (v : R) :
  Forall (fun kv => snd kv = 1) (dok_dict adj) ->
  (In (i, j, v) (entries (norm_adj adj)) <->
   In (i, j) (map fst (dok_dict adj)) /\ v = norm_diag adj i * 1 * norm_diag adj j).
Proof.
  intros Hv. unfold norm_adj. cbn [entries]. rewrite !in_map_iff. split.
  - intros [kv [Heq Hkv]]. rewrite Forall_forall in Hv. rewrite (Hv kv Hkv) in Heq.
    destruct kv as [[a b] w]. cbn [fst snd] in *. injection Heq as -> -> <-.
    split; [|reflexivity]. exists (i, j, w). split; [reflexivity|exact Hkv].
  - intros [[kv [Hk Hkv]] ->]. exists kv. split; [|exact Hkv].
    rewrite Forall_forall in Hv. rewrite (Hv kv Hkv).
    destruct kv as [[a b] w]. cbn [fst snd] in *. injection Hk as -> ->. reflexivity.
Qed.

Lemma ui_adj_symmetric_aux (n_users n_items : nat) (ui_graph : coo_matrix) (A : sparse)
    (i j : nat) (v : R) :
  get_ui_adj n_users n_items ui_graph = Ok A ->
  In (i, j, v) (entries A) -> In (j, i, v) (entries A).
Proof.
  intros HA Hin. unfold get_ui_adj in HA. apply convert_to_tensor_Ok in HA. subst A.
  pose proof (ui_dok_values n_users n_items ui_graph) as Hv.
  apply (norm_adj_entry _ i j v Hv) in Hin. destruct Hin as [Hk ->].
  apply (norm_adj_entry _ j i _ Hv). split; [|lra].
  apply (proj2 (ui_dok_keys n_users n_items ui_graph (j, i))). apply ui_keys_sym.
  exact (proj1 (ui_dok_keys n_users n_items ui_graph (i, j)) Hk).
Qed.

(** Property X4.  The adjacency [get_ui_adj] returns is symmetric: an entry
    at (i, j) comes with an entry of the same value at (j, i). *)
Theorem ui_adj_symmetric (n_users n_items : nat) (ui_graph : coo_matrix) (A : sparse)
    (i j : nat) (v : R) :
  get_ui_adj n_users n_items ui_graph = Ok A ->
  In (i, j, v) (entries A) -> In (j, i, v) (entries A).
Proof. apply ui_adj_symmetric_aux. Qed.

Lemma ui_adj_symmetric_witness :
  exists A v,
    get_ui_adj 3 2 Toy.ui_graph = Ok A
    /\ In (1%nat, 4%nat, v) (entries A) /\ In (4%nat, 1%nat, v) (entries A).
Proof.
  do 2 eexists. split; [reflexivity|].
  assert (H : In (1%nat, 4%nat,
                  norm_diag (ui_dok 3 2 Toy.ui_graph) 1 * 1 * norm_diag (ui_dok 3 2 Toy.ui_graph) 4)
                 (entries (norm_adj (ui_dok 3 2 Toy.ui_graph)))) by (left; reflexivity).
  split; [exact H|].
  exact (@ui_adj_symmetric 3 2 Toy.ui_graph _ 1 4 _ eq_refl H).
Defined.

Lemma norm_adj_coords (adj : dok_matrix) :
  map (fun e : nat * nat * R => fst e) (entries (norm_adj adj)) = map fst (dok_dict adj).
Proof.
  unfold norm_adj. cbn [entries]. rewrite map_map. apply map_ext. intros [[a b] w]. reflexivity.
Qed.

Lemma degree_pos (A : sparse) (i j : nat) (v : R) :
  In (i, j, v) (entries A) -> (1 <= degree A i)%nat.
Proof.
  intros H. unfold degree, row_entries.
  assert (Hin : In (i, j, v) (filter (fun e : nat * nat * R => (fst (fst e) =? i)%nat) (entries A))).
  { apply filter_In. split; [exact H|]. cbn. apply Nat.eqb_refl. }
  destruct (filter _ (entries A)); [destruct Hin|cbn; lia].
Qed.

(** Property X5.  The adjacency [get_ui_adj] returns stores each of the
    coordinates (user, n_users + item) and (n_users + item, user) of an
    interaction once, however often the interaction is listed, and nothing
    else; the entry at (i, j) is [1 / sqrt ((d_i + 1e-7) * (d_j + 1e-7))]
    with [d_i], [d_j] the numbers of entries of rows [i] and [j], which are
    at least 1, so every entry lies strictly between 0 and 1. *)
Theorem ui_adj_entries (n_users n_items : nat) (ui_graph : coo_matrix) (A : sparse) :
  get_ui_adj n_users n_items ui_graph = Ok A ->
  nrows A = (n_users + n_items)%nat /\ ncols A = (n_users + n_items)%nat
  /\ NoDup (map (fun e => fst e) (entries A))
  /\ (forall i j, In (i, j) (map (fun e => fst e) (entries A))
                  <-> In (i, j) (ui_keys n_users ui_graph))
  /\ (forall i j v, In (i, j, v) (entries A) ->
        (1 <= degree A i)%nat /\ (1 <= degree A j)%nat
        /\ v = / sqrt ((INR (degree A i) + 1e-7) * (INR (degree A j) + 1e-7))
        /\ 0 < v < 1).
Proof.
  intros HA. pose proof HA as HA'.
  unfold get_ui_adj in HA. apply convert_to_tensor_Ok in HA. subst A.
  set (adj := ui_dok n_users n_items ui_graph) in *.
  pose proof (ui_dok_values n_users n_items ui_graph) as Hv. fold adj in Hv.
  split; [reflexivity|]. split; [reflexivity|]. rewrite norm_adj_coords.
  split; [apply ui_dok_NoDup|]. split; [intros i j; apply ui_dok_keys|].
  intros i j v Hin.
  pose proof (@degree_pos _ _ _ _ Hin) as Di.
  pose proof (@degree_pos _ _ _ _ (@ui_adj_symmetric_aux _ _ _ _ _ _ _ HA' Hin)) as Dj.
  split; [exact Di|]. split; [exact Dj|].
  apply (norm_adj_entry adj i j v Hv) in Hin. destruct Hin as [_ ->].
  unfold norm_diag. rewrite <- !(degree_norm_adj adj _ Hv).
  set (x := INR (degree (norm_adj adj) i) + 1e-7).
  set (y := INR (degree (norm_adj adj) j) + 1e-7).
  assert (Hx : 1 < x).
  { unfold x. assert (1 <= INR (degree (norm_adj adj) i)) by (change 1 with (INR 1); now apply le_INR). lra. }
  assert (Hy : 1 < y).
  { unfold y. assert (1 <= INR (degree (norm_adj adj) j)) by (change 1 with (INR 1); now apply le_INR). lra. }
  rewrite !inv_sqrt_power by lra. rewrite Rmult_1_r.
  assert (Sx : 1 < sqrt x) by (rewrite <- sqrt_1; apply sqrt_lt_1_alt; lra).
  assert (Sy : 1 < sqrt y) by (rewrite <- sqrt_1; apply sqrt_lt_1_alt; lra).
  rewrite sqrt_mult by lra. rewrite Rinv_mult.
  split; [reflexivity|].
  assert (Ix : 0 < / sqrt x < 1).
  { split; [apply Rinv_0_lt_compat; lra|].
    assert (I : / sqrt x < / 1) by (apply Rinv_lt_contravar; lra). now rewrite Rinv_1 in I. }
  assert (Iy : 0 < / sqrt y < 1).
  { split; [apply Rinv_0_lt_compat; lra|].
    assert (I : / sqrt y < / 1) by (apply Rinv_lt_contravar; lra). now rewrite Rinv_1 in I. }
  nra.
Qed.

Lemma ui_adj_entries_witness :
  exists A,
    get_ui_adj 3 2 Toy.ui_graph = Ok A
    /\ NoDup (map (fun e => fst e) (entries A))
    /\ (forall i j, In (i, j) (map (fun e => fst e) (entries A))
                    <-> In (i, j) (ui_keys 3 Toy.ui_graph)).
Proof.
  eexists. split; [reflexivity|].
  destruct (@ui_adj_entries 3 2 Toy.ui_graph _ eq_refl) as [_ [_ [Hnd [Hk _]]]].
  split; [exact Hnd|exact Hk].
Defined.

(** ** More on propagation *)

Lemma through_graph_layers (adj : sparse) (E : tensor R) (n d L : nat) :
  nrows adj = n -> ncols adj = n -> shape E = [n; d]%nat -> wf E ->
  through_graph adj E L = Ok (tensor_mean (map (layer adj E) (seq 0 (S L)))).
Proof.
  intros Hr Hc Hs Hw. unfold through_graph. rewrite <- (layer_0 adj E) at 1 2.
  rewrite (@propagate_layers_layers adj E n d L 0 _ Hr Hc Hs). cbn [bind].
  change ([layer adj E 0] ++ map (layer adj E) (seq 1 L))
    with (map (layer adj E) (seq 0 (S L))).
  rewrite stack_mean with (n := n) (rest := [d]).
  - rewrite tensor_mean_layers, Hs. reflexivity.
  - discriminate.
  - now apply all_shaped_layers.
Qed.

Lemma mean_at_single (t : tensor R) (p : nat) : mean_at [t] p = nth p (data t) 0.
Proof. unfold mean_at, Rmean. cbn. field. Qed.

(** Property X6.  With zero layers [through_graph] returns its input
    unchanged, whatever the adjacency. *)
Theorem through_graph_no_layers (adj : sparse) (E : tensor R) (n : nat) (rest : list nat) :
  shape E = n :: rest -> wf E -> through_graph adj E 0 = Ok E.
Proof.
  intros Hs Hw. unfold through_graph. cbn [propagate_layers bind].
  rewrite stack_mean with (n := n) (rest := rest).
  - f_equal. destruct E as [s dt]. cbn [shape data] in *. subst s. f_equal.
    rewrite (map_ext _ (fun p => nth p dt 0)) by (intros p; apply mean_at_single).
    unfold wf in Hw. cbn [shape data] in Hw.
    replace (n * numel rest)%nat with (length dt) by (rewrite Hw; reflexivity).
    apply map_nth_seq.
  - discriminate.
  - constructor; [tauto|constructor].
Qed.

Lemma through_graph_no_layers_witness : through_graph Toy.adj Toy.E 0 = Ok Toy.E.
Proof. apply (@through_graph_no_layers Toy.adj Toy.E 2 [2%nat]); reflexivity. Defined.

Lemma nth_spmm_data (adj : sparse) (d r k : nat) (x : list R) :
  (r < nrows adj)%nat -> (k < d)%nat ->
  nth (r * d + k) (spmm_data adj d x) 0
  = Rsum (map (fun e => snd e * nth (snd (fst e) * d + k) x 0) (row_entries r (entries adj))).
Proof.
  intros Hr Hk. unfold spmm_data.
  rewrite nth_flat_map_const with (a0 := 0%nat) (w := d).
  - rewrite seq_nth by exact Hr. cbn [Nat.add]. now rewrite nth_map_seq.
  - intros a _. now rewrite length_map, length_seq.
  - now rewrite length_seq.
  - exact Hk.
Qed.

Lemma layer_zero_row (adj : sparse) (E : tensor R) (n d r l : nat) :
  nrows adj = n -> shape E = [n; d]%nat -> (r < n)%nat ->
  row_entries r (entries adj) = [] -> zero_row (data E) d r ->
  zero_row (data (layer adj E l)) d r.
Proof.
  intros Hn Hs Hr He Hz. destruct l as [|l]; [now rewrite layer_0|].
  intros k Hk. unfold layer. cbn [data]. rewrite Hs. cbn [nth].
  rewrite Nat.iter_succ, nth_spmm_data by (rewrite ?Hn; assumption).
  rewrite He. reflexivity.
Qed.

Lemma Rsum_zeros (l : list R) : Forall (fun x => x = 0) l -> Rsum l = 0.
Proof. intros H. rewrite (Rsum_const H). lra. Qed.

(** Property X7.  Propagation keeps a zero row zero when the adjacency
    has no entry in that row: the padding row is never filled in. *)
Theorem through_graph_keeps_zero_row (adj : sparse) (E out : tensor R) (n d L r : nat) :
  nrows adj = n -> ncols adj = n -> shape E = [n; d]%nat -> wf E ->
  (r < n)%nat -> row_entries r (entries adj) = [] -> zero_row (data E) d r ->
  through_graph adj E L = Ok out ->
  shape out = [n; d]%nat /\ wf out /\ zero_row (data out) d r.
Proof.
  intros Hn Hc Hs Hw Hr He Hz Hout.
  rewrite (@through_graph_layers adj E n d L Hn Hc Hs Hw) in Hout.
  assert (Heq : out = tensor_mean (map (layer adj E) (seq 0 (S L)))) by congruence.
  subst out. rewrite tensor_mean_layers. cbn [shape data]. rewrite Hs.
  split; [reflexivity|]. split; [apply wf_map_seq_shape|].
  intros k Hk. cbn [numel fold_right]. rewrite Nat.mul_1_r.
  rewrite nth_map_seq by nia.
  unfold mean_at, Rmean. rewrite Rsum_zeros; [unfold Rdiv; lra|].
  apply Forall_forall. intros y Hy. apply in_map_iff in Hy. destruct Hy as [t [<- Ht]].
  apply in_map_iff in Ht. destruct Ht as [l [<- _]].
  now apply (@layer_zero_row adj E n d r l).
Qed.

Lemma through_graph_keeps_zero_row_witness :
  exists out,
    through_graph (kg_adj Toy.model) (entity_embedding Toy.model) 2 = Ok out
    /\ zero_row (data out) 2 0.
Proof.
  eexists. split; [reflexivity|].
  apply (@through_graph_keeps_zero_row (kg_adj Toy.model) (entity_embedding Toy.model) _
           3 2 2 0); try reflexivity; try lia.
  intros k Hk. destruct k as [|[|k]]; [reflexivity|reflexivity|lia].
Defined.

(** ** Propagation over the whole model *)

Lemma through_graph_rows (adj : sparse) (E : tensor R) (n d L : nat) :
  nrows adj = n -> ncols adj = n -> shape E = [n; d]%nat -> wf E ->
  exists out,
    through_graph adj E L = Ok out /\ shape out = [n; d]%nat /\ wf out
    /\ forall r, (r < n)%nat -> row_entries r (entries adj) = [] ->
         zero_row (data E) d r -> zero_row (data out) d r.
Proof.
  intros Hn Hc Hs Hw. eexists. split; [apply (@through_graph_layers adj E n d L Hn Hc Hs Hw)|].
  rewrite tensor_mean_layers. cbn [shape data]. rewrite Hs.
  split; [reflexivity|]. split; [apply wf_map_seq_shape|].
  intros r Hr He Hz k Hk. cbn [numel fold_right]. rewrite Nat.mul_1_r.
  rewrite nth_map_seq by nia.
  unfold mean_at, Rmean. rewrite Rsum_zeros; [unfold Rdiv; lra|].
  apply Forall_forall. intros y Hy. apply in_map_iff in Hy. destruct Hy as [t [<- Ht]].
  apply in_map_iff in Ht. destruct Ht as [l [<- _]].
  now apply (@layer_zero_row adj E n d r l).
Qed.

(** Property X8.  With at least one layer, [through_graph] raises
    RuntimeError unless the adjacency is square over the rows of the
    embedding matrix. *)
Theorem through_graph_shape_mismatch (adj : sparse) (E : tensor R) (n d L : nat) :
  shape E = [n; d]%nat -> (1 <= L)%nat -> (nrows adj <> n \/ ncols adj <> n) ->
  through_graph adj E L = Raise RuntimeError.
Proof.
  intros Hs HL Hne. destruct L as [|L]; [lia|].
  unfold through_graph. cbn [propagate_layers]. unfold sparse_mm at 1. rewrite Hs.
  destruct (Nat.eqb_spec (ncols adj) n) as [Hc|Hc]; [|reflexivity].
  assert (Hr : nrows adj <> n) by tauto. cbn [bind].
  destruct L as [|L].
  - cbn [propagate_layers bind app]. unfold stack1. cbn [forallb shape].
    rewrite list_eqb_refl. cbn [andb]. rewrite Hs.
    unfold list_eqb. destruct (list_eq_dec Nat.eq_dec [nrows adj; d] [n; d]) as [Heq|Heq].
    + injection Heq as Heq. contradiction.
    + reflexivity.
  - cbn [propagate_layers]. unfold sparse_mm at 1. cbn [shape].
    destruct (Nat.eqb_spec (ncols adj) (nrows adj)) as [Hc'|Hc']; [congruence|reflexivity].
Qed.

Lemma through_graph_shape_mismatch_witness :
  through_graph (mkSparse 3 2 []) Toy.E 1 = Raise RuntimeError
  /\ through_graph (mkSparse 2 3 []) Toy.E 2 = Raise RuntimeError.
Proof.
  split.
  - apply (@through_graph_shape_mismatch (mkSparse 3 2 []) Toy.E 2 2 1);
      [reflexivity|lia|left; cbn; lia].
  - apply (@through_graph_shape_mismatch (mkSparse 2 3 []) Toy.E 2 2 2);
      [reflexivity|lia|right; cbn; lia].
Defined.

Lemma numel_1 (d : nat) : numel [d] = d.
Proof. cbn. lia. Qed.

Lemma zero_row0_zero_row (t : tensor R) (n d : nat) :
  shape t = [n; d]%nat -> wf t -> (1 <= n)%nat ->
  (zero_row0 t <-> zero_row (data t) d 0).
Proof.
  intros Hs Hw Hn. unfold zero_row0, zero_row, row, chunk. rewrite Hs.
  cbn [tl skipn Nat.mul Nat.add]. rewrite numel_1.
  assert (Hlen : (d <= length (data t))%nat).
  { rewrite Hw, Hs. cbn. nia. }
  split.
  - intros H k Hk. rewrite <- (firstn_skipn d (data t)), app_nth1
      by (rewrite length_firstn; lia).
    rewrite H. apply nth_repeat.
  - intros H. apply nth_ext with (d := 0) (d' := 0).
    + rewrite length_firstn, repeat_length. lia.
    + intros k Hk. rewrite length_firstn in Hk.
      assert (Hk' : (k < d)%nat) by lia. specialize (H k Hk').
      rewrite <- (firstn_skipn d (data t)), app_nth1 in H by (rewrite length_firstn; lia).
      rewrite H. symmetry. apply nth_repeat.
Qed.

Lemma forward_consistent (self : CGKR) :
  consistent self -> (n_items self <= n_entities self)%nat ->
  exists U E self',
    forward self = Ok ((U, E), self')
    /\ shape U = [n_users self; embedding_size self] /\ wf U
    /\ shape E = [n_entities self; embedding_size self] /\ wf E
    /\ (row_entries 0 (entries (kg_adj self)) = [] -> zero_row0 (entity_embedding self) ->
        zero_row0 E)
    /\ (row_entries 0 (entries (kg_adj self)) = [] -> zero_row0 (entity_embedding self) ->
        row_entries 0 (entries (ui_adj self)) = [] -> zero_row0 (user_embedding self) ->
        zero_row0 U).
Proof.
  intros (Hkr & Hkc & Hur & Huc & HsU & HwU & HsE & HwE & Hnu & Hne) Hle.
  set (D := embedding_size self) in *.
  destruct (@through_graph_rows (kg_adj self) (entity_embedding self) _ D (n_kg_layers self)
              Hkr Hkc HsE HwE) as (E1 & HE1 & HsE1 & HwE1 & HzE1).
  unfold forward. rewrite HE1. cbn [bind].
  unfold slice0. rewrite HsE1. cbn [bind]. rewrite Nat.min_l by exact Hle. rewrite numel_1.
  unfold cat0. rewrite HsU. cbn [shape data]. rewrite list_eqb_refl. cbn [bind].
  set (cat := mkTensor [(n_users self + n_items self)%nat; D]
                (data (user_embedding self) ++ firstn (n_items self * D) (data E1))).
  assert (HlenU : length (data (user_embedding self)) = (n_users self * D)%nat).
  { rewrite HwU, HsU. cbn. lia. }
  assert (HlenE : length (data E1) = (n_entities self * D)%nat).
  { rewrite HwE1, HsE1. cbn. lia. }
  assert (Hwcat : wf cat).
  { unfold wf, cat. cbn [shape data]. rewrite length_app, length_firstn, HlenU, HlenE.
    cbn [numel fold_right]. nia. }
  destruct (@through_graph_rows (ui_adj self) cat _ D (n_ui_layers self)
              Hur Huc eq_refl Hwcat) as (P & HP & HsP & HwP & HzP).
  rewrite HP. cbn [bind]. unfold split2. rewrite HsP, Nat.eqb_refl. cbn [bind]. rewrite numel_1.
  assert (HlenP : length (data P) = ((n_users self + n_items self) * D)%nat).
  { rewrite HwP, HsP. cbn. lia. }
  set (U := mkTensor [n_users self; D] (firstn (n_users self * D) (data P))).
  assert (HwUo : wf U).
  { unfold wf, U. cbn [shape data]. rewrite length_firstn, HlenP. cbn [numel fold_right]. nia. }
  assert (HzE : row_entries 0 (entries (kg_adj self)) = [] -> zero_row0 (entity_embedding self) ->
                zero_row0 E1).
  { intros He Hz. apply (zero_row0_zero_row HsE1 HwE1 Hne). apply HzE1; [lia|exact He|].
    now apply (zero_row0_zero_row HsE HwE Hne). }
  do 3 eexists. split; [reflexivity|]. fold U.
  split; [reflexivity|]. split; [exact HwUo|]. split; [exact HsE1|]. split; [exact HwE1|].
  split; [exact HzE|].
  intros He Hz Hue Hzu.
  apply (@zero_row0_zero_row U (n_users self) D eq_refl HwUo Hnu).
  assert (HzP0 : zero_row (data P) D 0).
  { apply HzP; [lia|exact Hue|]. intros k Hk. unfold cat. cbn [data Nat.mul Nat.add].
    rewrite app_nth1 by (rewrite HlenU; nia).
    now apply (proj1 (zero_row0_zero_row HsU HwU Hnu) Hzu). }
  intros k Hk. unfold U. cbn [data Nat.mul Nat.add].
  specialize (HzP0 k Hk). cbn [Nat.mul Nat.add] in HzP0.
  rewrite <- (firstn_skipn (n_users self * D) (data P)), app_nth1 in HzP0
    by (rewrite length_firstn, HlenP; nia).
  exact HzP0.
Qed.

(** Property X9.  On a model whose attributes have consistent sizes and
    with no more items than entities, [forward] returns: the user matrix
    has one row per user, the entity matrix one row per entity, both with
    [embedding_size] columns. *)
Theorem forward_returns (self : CGKR) :
  consistent self -> (n_items self <= n_entities self)%nat ->
  exists U E self',
    forward self = Ok ((U, E), self')
    /\ shape U = [n_users self; embedding_size self] /\ wf U
    /\ shape E = [n_entities self; embedding_size self] /\ wf E.
Proof.
  intros Hc Hle. destruct (forward_consistent Hc Hle) as (U & E & s & H & HU & WU & HE & WE & _).
  exists U, E, s. tauto.
Qed.

(** Property X10.  The padding rows survive propagation: when row 0 of
    both adjacencies is empty and row 0 of both tables is zero, row 0 of
    both matrices that [forward] returns is zero. *)
Theorem forward_padding_rows (self self' : CGKR) (U E : tensor R) :
  consistent self -> (n_items self <= n_entities self)%nat ->
  row_entries 0 (entries (kg_adj self)) = [] ->
  row_entries 0 (entries (ui_adj self)) = [] ->
  padding_rows_zero self ->
  forward self = Ok ((U, E), self') ->
  row U 0 = repeat 0 (embedding_size self) /\ row E 0 = repeat 0 (embedding_size self).
Proof.
  intros Hc Hle Hk Hu [Zu Ze] Hf.
  destruct (forward_consistent Hc Hle) as (U' & E' & s & H & HU & WU & HE & WE & ZE & ZU).
  rewrite H in Hf. injection Hf as -> -> _.
  specialize (ZE Hk Ze). specialize (ZU Hk Ze Hu Zu).
  unfold zero_row0 in ZE, ZU. rewrite HU in ZU. rewrite HE in ZE.
  cbn [tl] in ZE, ZU. rewrite numel_1 in ZE, ZU. tauto.
Qed.

Lemma row_entries_none (A : sparse) (r : nat) :
  (forall j, ~ In (r, j) (map (fun e => fst e) (entries A))) ->
  row_entries r (entries A) = [].
Proof.
  intros H. unfold row_entries. apply filter_none. intros [[i j] v] Hin.
  cbn [fst]. destruct (Nat.eqb_spec i r) as [->|]; [|reflexivity].
  exfalso. apply (H j). apply in_map_iff. exists (r, j, v). split; [reflexivity|exact Hin].
Qed.

Lemma get_ui_adj_coords (n_users n_items : nat) (ui_graph : coo_matrix) (A : sparse) :
  get_ui_adj n_users n_items ui_graph = Ok A ->
  nrows A = (n_users + n_items)%nat /\ ncols A = (n_users + n_items)%nat
  /\ forall i j, In (i, j) (map (fun e => fst e) (entries A))
                 <-> In (i, j) (ui_keys n_users ui_graph).
Proof.
  intros HA. unfold get_ui_adj in HA. apply convert_to_tensor_Ok in HA. subst A.
  split; [reflexivity|]. split; [reflexivity|]. rewrite norm_adj_coords.
  intros i j. apply ui_dok_keys.
Qed.

Lemma get_kg_adj_rows (slots : slot_kind) (n_entities max_neighbor_size n m : nat)
    (kg_neighbors : tensor nat) (adj : sparse) :
  shape kg_neighbors = [n; m]%nat ->
  get_kg_adj slots n_entities max_neighbor_size kg_neighbors = Ok adj ->
  (n_entities <= n)%nat /\ (1 <= max_neighbor_size)%nat.
Proof.
  intros Hs H. destruct (Nat.le_gt_cases n_entities n) as [Hle|Hlt].
  - split; [exact Hle|]. destruct slots; unfold get_kg_adj, kg_dok, kg_dok_tensor in H;
      (rewrite (@kg_edges_Ok kg_neighbors n m (seq 0 n_entities) Hs) in H;
       [cbn [bind] in H; destruct max_neighbor_size; [discriminate|lia]|]);
      apply Forall_forall; intros i Hi; apply in_seq in Hi; lia.
  - destruct slots; unfold get_kg_adj, kg_dok, kg_dok_tensor in H;
      (rewrite (@kg_edges_IndexError kg_neighbors n m (seq 0 n_entities) Hs) in H;
       [discriminate|]);
      apply Exists_exists; exists n; (split; [apply in_seq; lia|lia]).
Qed.

Lemma new_embedding_rows (num dim : nat) (draw : nat -> R) (w : tensor R) :
  new_embedding num dim draw = Ok w -> (1 <= num)%nat.
Proof.
  unfold new_embedding. destruct (Nat.ltb_spec 0 num); [lia|discriminate].
Qed.

(** Property X11.  A model that [__init__] returns has consistent sizes;
    its knowledge-graph adjacency has no entry in row 0 when every slot of
    entity 0 holds the padding id, and its user-item adjacency has no entry
    in row 0 when no interaction names user 0. *)
Theorem init_consistent (slots : slot_kind) (config : Config) (dataset : Dataset)
    (raw_kg_neighbors : tensor nat) (draw_user draw_entity : nat -> R) (self : CGKR)
    (n : nat) :
  shape raw_kg_neighbors = [n; cfg_max_neighbor_size config] ->
  init slots config dataset raw_kg_neighbors draw_user draw_entity = Ok self ->
  consistent self
  /\ (ds_n_entities dataset <= n)%nat /\ (1 <= cfg_max_neighbor_size config)%nat
  /\ (Forall (fun c => c = 0%nat)
        (chunk (cfg_max_neighbor_size config) 0 (data raw_kg_neighbors)) ->
      row_entries 0 (entries (kg_adj self)) = [])
  /\ ((forall e, In e (entries (ds_inter_matrix dataset)) -> fst (fst e) <> 0%nat) ->
      row_entries 0 (entries (ui_adj self)) = []).
Proof.
  intros Hs H. unfold init in H.
  apply bind_Ok in H. destruct H as [ui [Hui H]].
  apply bind_Ok in H. destruct H as [kg [Hkg H]].
  apply bind_Ok in H. destruct H as [ue [Hu H]].
  apply bind_Ok in H. destruct H as [ee [He H]].
  apply bind_Ok in H. destruct H as [ee0 [Fe H]].
  apply bind_Ok in H. destruct H as [ue0 [Fu H]].
  injection H as <-. unfold consistent.
  cbn [kg_adj ui_adj n_users n_items n_entities embedding_size user_embedding entity_embedding].
  destruct (new_embedding_Ok _ _ _ Hu) as [Su Wu].
  destruct (new_embedding_Ok _ _ _ He) as [Se We].
  destruct (fill_row0_zero Su Wu Fu) as [Su0 [Wu0 _]].
  destruct (fill_row0_zero Se We Fe) as [Se0 [We0 _]].
  destruct (get_ui_adj_coords _ _ _ Hui) as (Hur & Huc & Hukeys).
  destruct (@get_kg_adj_rows _ _ _ _ _ _ _ Hs Hkg) as [Hle Hm].
  destruct (@kg_adj_coords _ _ _ _ _ _ Hs Hle Hkg) as (Hkr & Hkc & _ & Hkkeys).
  pose proof (new_embedding_rows _ _ _ Hu) as Hnu.
  pose proof (new_embedding_rows _ _ _ He) as Hne.
  split; [tauto|]. split; [exact Hle|]. split; [exact Hm|]. split.
  - intros Hz. apply row_entries_none. intros j Hin. apply Hkkeys in Hin.
    destruct Hin as (_ & Hj & Hin). rewrite Forall_forall in Hz. now apply Hj, Hz.
  - intros Hno. apply row_entries_none. intros j Hin. apply Hukeys in Hin.
    unfold ui_keys in Hin. apply in_flat_map in Hin. destruct Hin as [e [He' Hin]].
    cbn [In] in Hin. destruct Hin as [Heq|[Heq|[]]]; injection Heq as Heq1 Heq2.
    + now apply (Hno e He').
    + lia.
Qed.

Lemma init_consistent_witness :
  exists self,
    init TensorSlots Toy.config Toy.dataset Toy.kg_neighbors (fun _ => 1) (fun _ => 1)
    = Ok self
    /\ consistent self
    /\ row_entries 0 (entries (kg_adj self)) = []
    /\ row_entries 0 (entries (ui_adj self)) = [].
Proof.
  eexists. split; [reflexivity|].
  destruct (@init_consistent TensorSlots Toy.config Toy.dataset Toy.kg_neighbors (fun _ => 1) (fun _ => 1)
              _ 3 eq_refl eq_refl) as (Hc & _ & _ & Hk & Hu).
  split; [exact Hc|]. split.
  - apply Hk. repeat constructor.
  - apply Hu. intros e [<-|[<-|[]]]; discriminate.
Defined.

Lemma toy_consistent : consistent Toy.model.
Proof. unfold consistent. cbn. repeat split; lia. Qed.

Lemma forward_returns_witness :
  exists U E self',
    forward Toy.model = Ok ((U, E), self')
    /\ shape U = [3; 2]%nat /\ wf U /\ shape E = [3; 2]%nat /\ wf E.
Proof.
  apply (@forward_returns Toy.model toy_consistent). cbn. lia.
Defined.

Lemma forward_padding_rows_witness :
  exists U E self',
    forward Toy.model = Ok ((U, E), self')
    /\ row U 0 = repeat 0 2 /\ row E 0 = repeat 0 2.
Proof.
  do 3 eexists. split; [reflexivity|].
  eapply (@forward_padding_rows Toy.model).
  - exact toy_consistent.
  - cbn. lia.
  - reflexivity.
  - reflexivity.
  - split; reflexivity.
  - reflexivity.
Defined.

(** Property X12.  With more items than entities [forward] raises
    RuntimeError: the item block cut from the entity matrix is too short
    for the user-item graph. *)
Theorem forward_more_items_than_entities (self : CGKR) :
  consistent self -> (n_entities self < n_items self)%nat ->
  forward self = Raise RuntimeError.
Proof.
  intros (Hkr & Hkc & Hur & Huc & HsU & HwU & HsE & HwE & Hnu & Hne) Hlt.
  set (D := embedding_size self) in *.
  destruct (@through_graph_rows (kg_adj self) (entity_embedding self) _ D (n_kg_layers self)
              Hkr Hkc HsE HwE) as (E1 & HE1 & HsE1 & HwE1 & _).
  unfold forward. rewrite HE1. cbn [bind].
  unfold slice0. rewrite HsE1. cbn [bind]. rewrite Nat.min_r by lia.
  unfold cat0. rewrite HsU. cbn [shape data]. rewrite list_eqb_refl. cbn [bind].
  set (cat := mkTensor _ _).
  destruct (n_ui_layers self) as [|L] eqn:HL.
  - unfold through_graph. cbn [propagate_layers bind].
    rewrite stack_mean with (n := (n_users self + n_entities self)%nat) (rest := [D]).
    + cbn [bind]. unfold split2. cbn [shape].
      destruct (Nat.eqb_spec (n_users self + n_items self) (n_users self + n_entities self));
        [lia|reflexivity].
    + discriminate.
    + constructor; [|constructor]. split; [reflexivity|].
      unfold wf, cat. cbn [shape data]. rewrite length_app, length_firstn, HwU, HsU, HwE1, HsE1.
      cbn [numel fold_right]. nia.
  - unfold through_graph. cbn [propagate_layers]. unfold sparse_mm at 1. unfold cat at 1.
    cbn [shape]. rewrite Huc.
    destruct (Nat.eqb_spec (n_users self + n_items self) (n_users self + n_entities self));
      [lia|reflexivity].
Qed.

Lemma forward_more_items_than_entities_witness :
  forward (mkCGKR 2 1 1 true true 2 "mae" (5 / 100) 1 (1 / 2) 3 4 3
             (mkSparse 7 7 []) (mkSparse 3 3 [])
             (mkTensor [3; 2]%nat [0; 0; 1; 2; 3; 4])
             (mkTensor [3; 2]%nat [0; 0; 1; 1; 2; 0]) None None 0)
  = Raise RuntimeError.
Proof.
  apply forward_more_items_than_entities.
  - unfold consistent. cbn. repeat split; lia.
  - cbn. lia.
Defined.

(** ** More on the batch neighbors *)

Lemma forallb_ids_not_below (n : nat) (l : list nat) :
  ~ Forall (fun i => (i < n)%nat) l -> forallb (fun i => i <? n)%nat l = false.
Proof.
  intros H. destruct (forallb (fun i => i <? n)%nat l) eqn:Hf; [|reflexivity].
  exfalso. apply H. rewrite forallb_forall in Hf. apply Forall_forall.
  intros x Hx. apply Nat.ltb_lt. now apply Hf.
Qed.

(** Property X13.  The edge cases of [get_batch_neighbors]: with no
    knowledge-graph layer the table is not read and the only level is the
    column of items; with at least one layer an empty batch raises
    RuntimeError (the inferred extent of the view is ambiguous) and an item
    id outside the table raises IndexError. *)
Theorem get_batch_neighbors_edge_cases (self : CGKR) (items kg_neighbors : tensor nat)
    (B M N : nat) :
  shape items = [B] -> shape kg_neighbors = [N; M]%nat ->
  (n_kg_layers self = 0%nat ->
     get_batch_neighbors self items kg_neighbors = Ok [mkTensor [B; 1%nat] (data items)])
  /\ ((1 <= n_kg_layers self)%nat -> B = 0%nat -> wf items ->
        get_batch_neighbors self items kg_neighbors = Raise RuntimeError)
  /\ ((1 <= n_kg_layers self)%nat -> ~ ids_below N items ->
        get_batch_neighbors self items kg_neighbors = Raise IndexError).
Proof.
  intros Hi Hk. unfold get_batch_neighbors, shape0, unsqueeze, ndim. rewrite Hi.
  cbn [bind length Nat.leb firstn skipn app]. split; [|split].
  - intros ->. reflexivity.
  - intros HL -> Hw. assert (Hd : data items = []).
    { apply length_zero_iff_nil. rewrite Hw, Hi. reflexivity. }
    destruct (n_kg_layers self) as [|L]; [lia|].
    cbn [batch_neighbors_loop py_nth nth_error bind]. unfold index. rewrite Hk.
    cbn [data shape]. rewrite Hd. cbn [forallb bind flat_map app]. reflexivity.
  - intros HL Hnb. destruct (n_kg_layers self) as [|L]; [lia|].
    cbn [batch_neighbors_loop py_nth nth_error bind]. unfold index. rewrite Hk.
    cbn [data shape]. rewrite (forallb_ids_not_below Hnb). reflexivity.
Qed.

Lemma get_batch_neighbors_edge_cases_witness :
  get_batch_neighbors Toy.model (mkTensor [0%nat] []) Toy.kg_neighbors = Raise RuntimeError
  /\ get_batch_neighbors Toy.model (mkTensor [1%nat] [3%nat]) Toy.kg_neighbors
     = Raise IndexError.
Proof.
  split.
  - apply (proj1 (proj2 (@get_batch_neighbors_edge_cases Toy.model (mkTensor [0%nat] [])
                           Toy.kg_neighbors 0 2 3 eq_refl eq_refl))); [cbn; lia|reflexivity|reflexivity].
  - apply (proj2 (proj2 (@get_batch_neighbors_edge_cases Toy.model (mkTensor [1%nat] [3%nat])
                           Toy.kg_neighbors 1 2 3 eq_refl eq_refl))); [cbn; lia|].
    unfold ids_below. cbn. intros H. apply Forall_cons_iff in H. lia.
Defined.

(** ** Batches of one line *)

Lemma ids_below_le (k k' : nat) (t : tensor nat) :
  (k <= k')%nat -> ids_below k t -> ids_below k' t.
Proof.
  intros Hle H. unfold ids_below in *. rewrite Forall_forall in *.
  intros i Hi. specialize (H i Hi). lia.
Qed.

Section CfEmbeddingSqueezed.
Variables (self : CGKR) (items kg_neighbors : tensor nat) (b m d n ne : nat).
Hypothesis Hm : max_neighbor_size self = m.
Hypothesis Hd : embedding_size self = d.
Hypothesis HW : shape (entity_embedding self) = [ne; d]%nat.
Hypothesis WW : wf (entity_embedding self).
Hypothesis Hitems : shape items = [b].
Hypothesis Witems : wf items.
Hypothesis Hkg : shape kg_neighbors = [n; m]%nat.
Hypothesis Wkg : wf kg_neighbors.
Hypothesis Iitems : ids_below n items.
Hypothesis Ikg : ids_below n kg_neighbors.
Hypothesis Jitems : ids_below ne items.
Hypothesis Jkg : ids_below ne kg_neighbors.
Hypothesis Hb1 : (1 <= b)%nat.
Hypothesis Hd1 : (1 <= d)%nat.
Hypothesis Hm1 : (1 <= m)%nat.

(** The shape of the result is that of the squeezed level 0, whatever
    dimensions [squeeze()] drops, as long as one is left. *)
Lemma get_cf_i_embeddings_squeezed (n0 : nat) (rest : list nat) :
  filter (fun x => negb (x =? 1)%nat) [b; 1%nat; d] = n0 :: rest ->
  exists cf, get_cf_i_embeddings self items kg_neighbors = Ok cf
             /\ shape cf = n0 :: rest /\ wf cf.
Proof.
  intros Hsq.
  unfold get_cf_i_embeddings. unfold shape0 at 1. rewrite Hitems. cbn [bind].
  rewrite (@get_batch_neighbors_hops self items kg_neighbors b m n) by (assumption || lia).
  cbn [bind].
  destruct (@mapM_index_hops (entity_embedding self) kg_neighbors items b m n ne d
              0 (S (n_kg_layers self))) as [vs [Hvs [Hlen Hsh]]]; try assumption.
  rewrite Hvs. cbn [bind].
  assert (Hshaped : vectors_shaped b m d vs).
  { intros k t Hk. apply (Hsh k t Hk). }
  destruct vs as [|e0 vs']; [cbn in Hlen; lia|]. unfold py_nth. cbn [nth_error bind].
  destruct (Hshaped 0%nat e0 eq_refl) as [Hs0 Hw0].
  destruct (@layer_loop_Ok self b m d Hm Hd Hb1 Hm1 Hd1
              (n_kg_layers self) 0 (e0 :: vs') [squeeze e0] (n0 :: rest))
    as [out [Ho [Hlo Hso]]].
  - symmetry. exact Hsq.
  - lia.
  - exact Hshaped.
  - exact Hlen.
  - constructor; [|constructor]. split; [|now apply wf_squeeze].
    unfold squeeze. cbn [shape]. rewrite Hs0. exact Hsq.
  - rewrite Ho. cbn [bind]. rewrite stack_mean with (n := n0) (rest := rest).
    + eexists. split; [reflexivity|]. split; [reflexivity|].
      apply (wf_map_seq_shape _ (n0 :: rest)).
    + intros ->. cbn in Hlo. lia.
    + exact Hso.
Qed.

End CfEmbeddingSqueezed.

Lemma broadcast_row_vector (d : nat) : broadcast_shapes [1%nat; d] [d] = Some [1%nat; d].
Proof.
  unfold broadcast_shapes. cbn [rev app broadcast_rev]. rewrite Nat.eqb_refl. reflexivity.
Qed.

(** The score of a one-line batch against a squeezed embedding: the product
    broadcasts the vector over the single row. *)
Lemma scores_row_vector (u cf : tensor R) (d : nat) :
  shape u = [1%nat; d] -> shape cf = [d] ->
  exists s, (m <- mul u cf ;; sum_dim 1 m) = Ok s /\ shape s = [1%nat].
Proof.
  intros Hu Hc. unfold mul, binop. rewrite Hu, Hc, broadcast_row_vector. cbn [bind].
  destruct (@reduce_Ok Rsum 1 (mkTensor [1%nat; d] (zip_with Rmult (expand [1%nat; d] u)
                                                     (expand [1%nat; d] cf))))
    as [s [Hs [Hsh _]]]; [cbn; lia|].
  exists s. split; [exact Hs|exact Hsh].
Qed.

Lemma sub_Ok_shape (a c : tensor R) (s : list nat) :
  shape a = s -> shape c = s -> exists r, sub a c = Ok r.
Proof.
  intros Ha Hc. unfold sub, binop. rewrite Ha, Hc, broadcast_shapes_same. eexists. reflexivity.
Qed.

Lemma get_reward1_vector (self : CGKR) (s1 s2 cf : tensor R) (d : nat) :
  shape s1 = [1%nat] -> shape s2 = [1%nat] -> shape cf = [d] ->
  get_reward1 self s1 s2 cf = Raise IndexError.
Proof.
  intros H1 H2 Hc. unfold get_reward1.
  destruct (@sub_Ok_shape s1 s2 [1%nat] H1 H2) as [r Hr]. rewrite Hr. cbn [bind].
  unfold norm_dim, reduce, ndim. rewrite Hc. reflexivity.
Qed.

Section SingleLine.
Variables (self : CGKR) (interaction : Interaction) (kg_neighbors1 kg_neighbors2 : tensor nat).
Variables (U E : tensor R) (d : nat).
Hypothesis Hone : single_line_batch self interaction kg_neighbors1 kg_neighbors2 U E d.

Lemma single_line_cf (items table : tensor nat) (m n ne nE : nat) :
  max_neighbor_size self = m -> embedding_size self = d ->
  shape (entity_embedding self) = [ne; d]%nat -> wf (entity_embedding self) ->
  shape items = [1%nat] -> wf items -> ids_below (Nat.min nE (Nat.min n ne)) items ->
  shape table = [n; m]%nat -> wf table -> ids_below (Nat.min n ne) table ->
  (2 <= d)%nat -> (1 <= m)%nat ->
  exists cf, get_cf_i_embeddings self items table = Ok cf /\ shape cf = [d] /\ wf cf.
Proof.
  intros Hm Hd HW WW Hi Wi Ii Ht Wt It Hd2 Hm1.
  assert (I1 : ids_below n items) by (apply (@ids_below_le (Nat.min nE (Nat.min n ne))); [lia|exact Ii]).
  assert (I2 : ids_below ne items) by (apply (@ids_below_le (Nat.min nE (Nat.min n ne))); [lia|exact Ii]).
  assert (I3 : ids_below n table) by (apply (@ids_below_le (Nat.min n ne)); [lia|exact It]).
  assert (I4 : ids_below ne table) by (apply (@ids_below_le (Nat.min n ne)); [lia|exact It]).
  assert (Hb1 : (1 <= 1)%nat) by lia.
  assert (Hd1 : (1 <= d)%nat) by lia.
  apply (@get_cf_i_embeddings_squeezed self items table 1 m d n ne
           Hm Hd HW WW Hi Wi Ht Wt I1 I3 I2 I4 Hb1 Hd1 Hm1 d []).
  cbn [filter Nat.eqb negb]. destruct (Nat.eqb_spec d 1); [lia|reflexivity].
Qed.

Lemma single_line_pos_reward :
  generate_pos_reward self interaction kg_neighbors1 kg_neighbors2 U E = Raise IndexError.
Proof.
  destruct Hone as (m & n & ne & nu & nE & Hm & Hd & HW & WW & HU & WU & HE & WE
                    & Hus & Wus & Ius & Hp & Wp & Ip & Hn & Wn & In_ & Hk1 & Wk1 & Ik1
                    & Hk2 & Wk2 & Ik2 & Hd2 & Hm1).
  unfold generate_pos_reward.
  destruct (@index_rows U (USER_ID interaction) nu d 1 HU WU Hus Wus Ius) as (u & Hu & Su & Wu & _).
  destruct (@index_rows E (ITEM_ID interaction) nE d 1 HE WE Hp Wp) as (pe & Hpe & Spe & Wpe & _).
  { eapply ids_below_le; [|exact Ip]. lia. }
  destruct (@index_rows E (NEG_ITEM_ID interaction) nE d 1 HE WE Hn Wn) as (nge & Hnge & Snge & Wnge & _).
  { eapply ids_below_le; [|exact In_]. lia. }
  rewrite Hu, Hpe, Hnge. cbn [bind].
  rewrite (scores_rows Su Wu Spe Wpe), (scores_rows Su Wu Snge Wnge). cbn [bind].
  destruct (@single_line_cf (ITEM_ID interaction) kg_neighbors1 m n ne nE)
    as (cf1 & Hcf1 & Scf1 & _); try assumption.
  rewrite Hcf1. cbn [bind].
  destruct (@scores_row_vector u cf1 d Su Scf1) as (s1 & Hs1 & Ss1). rewrite Hs1. cbn [bind].
  erewrite get_reward1_vector; [reflexivity|exact Ss1|reflexivity|exact Scf1].
Qed.

Lemma single_line_neg_reward :
  generate_neg_reward self interaction kg_neighbors1 kg_neighbors2 U E = Raise IndexError.
Proof.
  destruct Hone as (m & n & ne & nu & nE & Hm & Hd & HW & WW & HU & WU & HE & WE
                    & Hus & Wus & Ius & Hp & Wp & Ip & Hn & Wn & In_ & Hk1 & Wk1 & Ik1
                    & Hk2 & Wk2 & Ik2 & Hd2 & Hm1).
  unfold generate_neg_reward.
  destruct (@index_rows U (USER_ID interaction) nu d 1 HU WU Hus Wus Ius) as (u & Hu & Su & Wu & _).
  destruct (@index_rows E (ITEM_ID interaction) nE d 1 HE WE Hp Wp) as (pe & Hpe & Spe & Wpe & _).
  { eapply ids_below_le; [|exact Ip]. lia. }
  destruct (@index_rows E (NEG_ITEM_ID interaction) nE d 1 HE WE Hn Wn) as (nge & Hnge & Snge & Wnge & _).
  { eapply ids_below_le; [|exact In_]. lia. }
  rewrite Hu, Hpe, Hnge. cbn [bind].
  rewrite (scores_rows Su Wu Spe Wpe), (scores_rows Su Wu Snge Wnge). cbn [bind].
  destruct (@single_line_cf (NEG_ITEM_ID interaction) kg_neighbors1 m n ne nE)
    as (cf1 & Hcf1 & Scf1 & _); try assumption.
  rewrite Hcf1. cbn [bind].
  destruct (@scores_row_vector u cf1 d Su Scf1) as (s1 & Hs1 & Ss1). rewrite Hs1. cbn [bind].
  erewrite get_reward1_vector; [reflexivity|reflexivity|exact Ss1|exact Scf1].
Qed.

End SingleLine.

(** Property X14.  On every batch of one line, with an embedding size of
    at least two, [get_cf_i_embeddings] returns a vector of shape [[d]]
    instead of a [[1; d]] matrix ([squeeze()] drops the batch dimension),
    and both reward entry points raise IndexError at the norm over
    dimension 1. *)
Theorem single_line_batch_rewards_raise (self : CGKR) (interaction : Interaction)
    (kg_neighbors1 kg_neighbors2 : tensor nat) (U E : tensor R) (d : nat) :
  single_line_batch self interaction kg_neighbors1 kg_neighbors2 U E d ->
  (exists cf, get_cf_i_embeddings self (ITEM_ID interaction) kg_neighbors1 = Ok cf
              /\ shape cf = [d])
  /\ generate_pos_reward self interaction kg_neighbors1 kg_neighbors2 U E = Raise IndexError
  /\ generate_neg_reward self interaction kg_neighbors1 kg_neighbors2 U E = Raise IndexError.
Proof.
  intros H. split; [|split].
  - destruct H as (m & n & ne & nu & nE & Hm & Hd & HW & WW & HU & WU & HE & WE
                    & Hus & Wus & Ius & Hp & Wp & Ip & Hn & Wn & In_ & Hk1 & Wk1 & Ik1
                    & Hk2 & Wk2 & Ik2 & Hd2 & Hm1).
    destruct (@single_line_cf self d (ITEM_ID interaction) kg_neighbors1 m n ne nE)
      as (cf & Hcf & Scf & _); try assumption.
    exists cf. tauto.
  - now apply single_line_pos_reward with (d := d).
  - now apply single_line_neg_reward with (d := d).
Qed.

Lemma single_line_batch_rewards_raise_witness :
  generate_pos_reward Toy.model Toy.single Toy.kg_neighbors Toy.kg_neighbors
    (user_embedding Toy.model) (entity_embedding Toy.model) = Raise IndexError.
Proof.
  apply (@single_line_batch_rewards_raise Toy.model Toy.single Toy.kg_neighbors Toy.kg_neighbors
           (user_embedding Toy.model) (entity_embedding Toy.model) 2).
  exists 2%nat, 3%nat, 3%nat, 3%nat, 3%nat.
  repeat split; try reflexivity; try lia; unfold ids_below; cbn; repeat constructor.
Defined.

(** ** The counterfactual embedding as a propagation *)

Lemma row_entries_slot_adj (kg_neighbors : tensor nat) (n m e : nat) :
  (e < n)%nat ->
  row_entries e (entries (slot_adj kg_neighbors n m))
  = map (fun c => (e, c, 1 / INR m)) (chunk m e (data kg_neighbors)).
Proof.
  intros He. unfold slot_adj. cbn [entries]. rewrite row_entries_flat_map_seq.
  - destruct (Nat.leb_spec 0 e); [|lia]. destruct (Nat.ltb_spec e (0 + n)); [|lia]. reflexivity.
  - intros i x Hx. apply in_map_iff in Hx. destruct Hx as [c [<- _]]. reflexivity.
Qed.

(** One product with the slot adjacency averages, for every entity, the
    rows its slots name. *)
Lemma chunk_spmm_slot_adj (kg_neighbors : tensor nat) (n m d e : nat) (x : list R) :
  (e < n)%nat ->
  chunk d e (spmm_data (slot_adj kg_neighbors n m) d x)
  = slot_average kg_neighbors m d x e.
Proof.
  intros He. unfold spmm_data. cbn [nrows].
  rewrite chunk_flat_map_const with (a0 := 0%nat).
  - rewrite seq_nth by exact He. cbn [Nat.add]. unfold slot_average.
    apply map_ext. intros k. rewrite (row_entries_slot_adj kg_neighbors m He), map_map.
    cbn [fst snd]. rewrite Rsum_map_scale. unfold Rdiv. lra.
  - intros a _. now rewrite length_map, length_seq.
  - now rewrite length_seq.
Qed.

Lemma flat_map_nth_seq {A B} (f : A -> list B) (l : list A) (a0 : A) :
  flat_map f l = flat_map (fun o => f (nth o l a0)) (seq 0 (length l)).
Proof.
  induction l as [|a l IH]; [reflexivity|].
  cbn [length seq flat_map nth]. rewrite flat_map_seq_shift. f_equal. exact IH.
Qed.

Section NeighborMean.
Variables (kg_neighbors : tensor nat) (n m d : nat).
Hypothesis Hkg : shape kg_neighbors = [n; m]%nat.
Hypothesis Wkg : wf kg_neighbors.
Hypothesis Ikg : ids_below n kg_neighbors.

Lemma length_table_row (e : nat) : (e < n)%nat -> length (chunk m e (data kg_neighbors)) = m.
Proof.
  intros He. apply length_chunk. rewrite Wkg, Hkg. cbn [numel fold_right]. nia.
Qed.

(** The mean over the slot dimension of the rows of [X] named by the next
    hop level is the slot average of [X] at the ids of this level. *)
Lemma neighbor_mean_data (X : list R) (H : list nat) (outer : nat) :
  length X = (n * d)%nat -> Forall (fun e => (e < n)%nat) H -> outer = length H ->
  flat_map (fun o =>
     map (fun k =>
       Rmean (map (fun j =>
                nth ((o * m + j) * d + k)
                    (flat_map (fun e => chunk d e X)
                       (flat_map (fun e => chunk m e (data kg_neighbors)) H)) 0)
              (seq 0 m)))
       (seq 0 d))
     (seq 0 outer)
  = flat_map (fun e => chunk d e (spmm_data (slot_adj kg_neighbors n m) d X)) H.
Proof.
  intros HX HH ->.
  rewrite (flat_map_nth_seq (fun e => chunk d e (spmm_data (slot_adj kg_neighbors n m) d X)) H 0%nat).
  apply flat_map_ext_in.
  intros o Ho. apply in_seq in Ho.
  rewrite Forall_forall in HH.
  assert (He : (nth o H 0 < n)%nat) by (apply HH, nth_In; lia).
  rewrite (chunk_spmm_slot_adj kg_neighbors m d X He). unfold slot_average.
  apply map_ext_in. intros k Hk. apply in_seq in Hk.
  set (H' := flat_map (fun e => chunk m e (data kg_neighbors)) H).
  assert (HH' : Forall (fun e => (e < n)%nat) H').
  { apply Forall_flat_map_in. intros a _. apply Forall_chunk. exact Ikg. }
  assert (LH' : length H' = (length H * m)%nat).
  { apply length_flat_map_const. intros a Ha. apply length_table_row. now apply HH. }
  rewrite Forall_forall in HH'.
  assert (Hlenc : forall c, In c H' -> length (chunk d c X) = d).
  { intros c Hc. apply length_chunk. rewrite HX. specialize (HH' c Hc). nia. }
  rewrite (map_ext_in _ (fun j => nth (nth j (chunk m (nth o H 0%nat) (data kg_neighbors)) 0%nat * d + k) X 0)).
  - rewrite <- (length_table_row He) at 1.
    rewrite (map_nth_list (fun c => nth (c * d + k) X 0)).
    unfold Rmean. rewrite length_map, (length_table_row He). reflexivity.
  - intros j Hj. apply in_seq in Hj.
    rewrite (nth_flat_map_const (fun e => chunk d e X) H' 0%nat 0 Hlenc) by (try rewrite LH'; nia).
    rewrite nth_chunk by lia. f_equal. f_equal. f_equal. unfold H'.
    assert (Hlenm : forall a, In a H -> length (chunk m a (data kg_neighbors)) = m).
    { intros a Ha. apply length_table_row. now apply HH. }
    rewrite (nth_flat_map_const (fun e => chunk m e (data kg_neighbors)) H 0%nat 0%nat Hlenm)
      by lia.
    reflexivity.
Qed.

End NeighborMean.

Section CfValues.
Variables (self : CGKR) (items kg_neighbors : tensor nat) (b m d n : nat).
Hypothesis Hm : max_neighbor_size self = m.
Hypothesis Hd : embedding_size self = d.
Hypothesis HW : shape (entity_embedding self) = [n; d]%nat.
Hypothesis WW : wf (entity_embedding self).
Hypothesis Hitems : shape items = [b].
Hypothesis Witems : wf items.
Hypothesis Hkg : shape kg_neighbors = [n; m]%nat.
Hypothesis Wkg : wf kg_neighbors.
Hypothesis Iitems : ids_below n items.
Hypothesis Ikg : ids_below n kg_neighbors.
Hypothesis Hb1 : (1 <= b)%nat.
Hypothesis Hm1 : (1 <= m)%nat.
Hypothesis Hd1 : (1 <= d)%nat.

Local Abbreviation X := (slot_layers kg_neighbors n m d (data (entity_embedding self))).
Local Abbreviation V := (hop_vectors kg_neighbors items b m d X).

Lemma length_slot_layers (i : nat) : length (X i) = (n * d)%nat.
Proof.
  destruct i as [|i].
  - unfold slot_layers. cbn [Nat.iter]. rewrite WW, HW. cbn [numel fold_right]. lia.
  - unfold slot_layers. rewrite Nat.iter_succ, length_spmm_data. reflexivity.
Qed.

Lemma neighbor_mean_value (i h : nat) :
  (v <- view_infer [b] [max_neighbor_size self; embedding_size self] (V i (S h)) ;;
   mean_dim 2 v) = Ok (V (S i) h).
Proof.
  unfold view_infer. rewrite Hm, Hd. unfold hop_vectors at 1 2 3. cbn [shape data].
  assert (Hk : (numel [b] * numel [m; d] = b * m * d)%nat) by (cbn; lia).
  assert (Ht : (numel [b; (m ^ S h)%nat; d] = m ^ h * (b * m * d))%nat)
    by (cbn [numel fold_right]; rewrite Nat.pow_succ_r'; lia).
  rewrite Hk, Ht.
  assert (Hnz : (b * m * d <> 0)%nat) by nia.
  destruct (Nat.eqb_spec (b * m * d) 0); [contradiction|].
  rewrite Nat.Div0.mod_mul, Nat.eqb_refl, Nat.div_mul by exact Hnz.
  cbn [bind app]. unfold mean_dim, reduce, ndim. cbn [shape data length Nat.ltb Nat.leb].
  cbn [firstn skipn nth app]. f_equal. unfold hop_vectors. f_equal.
  replace (numel [d]) with d by (cbn; lia).
  change (data (hop kg_neighbors items b m (S h)))
    with (flat_map (fun e => chunk m e (data kg_neighbors))
                   (data (hop kg_neighbors items b m h))).
  change (X (S i)) with (spmm_data (slot_adj kg_neighbors n m) d (X i)).
  apply (@neighbor_mean_data kg_neighbors n m d Hkg Wkg Ikg).
  - apply length_slot_layers.
  - apply (ids_below_hop b m Iitems Ikg).
  - rewrite (wf_hop Hitems Witems Hkg Wkg Iitems Ikg h), shape_hop. reflexivity.
Qed.

Lemma hop_loop_values (i len nn hp : nat) (acc : list (tensor R)) :
  (hp + nn < len)%nat ->
  hop_loop self b (map (V i) (seq 0 len)) nn hp acc
  = Ok (acc ++ map (V (S i)) (seq hp nn)).
Proof.
  revert hp acc. induction nn as [|nn IH]; intros hp acc Hlen.
  - cbn [hop_loop seq map]. now rewrite app_nil_r.
  - cbn [hop_loop]. unfold py_nth.
    rewrite nth_error_map, nth_error_nth' with (d := 0%nat) by (rewrite length_seq; lia).
    rewrite seq_nth by lia. cbn [option_map bind Nat.add].
    replace (hp + 1)%nat with (S hp) by lia.
    pose proof (neighbor_mean_value i hp) as Hs.
    destruct (view_infer [b] [max_neighbor_size self; embedding_size self] (V i (S hp)))
      as [v|]; [|discriminate].
    cbn [bind] in Hs |- *. rewrite Hs. cbn [bind].
    rewrite IH by lia. cbn [seq map]. now rewrite <- app_assoc.
Qed.

Lemma layer_loop_values (nn i : nat) (l : list (tensor R)) :
  (n_kg_layers self - i = nn)%nat ->
  layer_loop self b nn i (map (V i) (seq 0 (S nn))) l
  = Ok (l ++ map (fun j => squeeze (V j 0)) (seq (S i) nn)).
Proof.
  revert i l. induction nn as [|nn IH]; intros i l Hi.
  - cbn [layer_loop seq map]. now rewrite app_nil_r.
  - cbn [layer_loop]. rewrite Hi.
    rewrite (@hop_loop_values i (S (S nn)) (S nn) 0 []) by lia.
    cbn [bind app]. unfold py_nth. cbn [seq map nth_error bind].
    change (V (S i) 0 :: map (V (S i)) (seq 1 nn)) with (map (V (S i)) (seq 0 (S nn))).
    rewrite IH by lia. now rewrite <- app_assoc.
Qed.

Lemma mapM_index_values (start len : nat) :
  mapM (index (entity_embedding self)) (map (hop kg_neighbors items b m) (seq start len))
  = Ok (map (V 0) (seq start len)).
Proof.
  revert start. induction len as [|len IH]; intros start; [reflexivity|].
  cbn [seq map mapM]. unfold index at 1. rewrite HW.
  rewrite (forallb_ids_below (ids_below_hop b m Iitems Ikg start)). cbn [bind].
  rewrite IH. cbn [bind]. rewrite shape_hop. replace (numel [d]) with d by (cbn; lia).
  reflexivity.
Qed.

Lemma get_cf_i_embeddings_value :
  (2 <= b)%nat -> (2 <= d)%nat ->
  get_cf_i_embeddings self items kg_neighbors
  = Ok (mkTensor [b; d]
          (map (mean_at (map (fun j => mkTensor [b; d]
                                (flat_map (fun e => chunk d e (X j)) (data items)))
                             (seq 0 (S (n_kg_layers self)))))
               (seq 0 (b * numel [d])))).
Proof.
  intros Hb2 Hd2.
  unfold get_cf_i_embeddings. unfold shape0 at 1. rewrite Hitems. cbn [bind].
  rewrite (@get_batch_neighbors_hops self items kg_neighbors b m n) by (assumption || lia).
  cbn [bind]. rewrite mapM_index_values. cbn [bind].
  unfold py_nth. cbn [seq map nth_error bind].
  change (V 0 0 :: map (V 0) (seq 1 (n_kg_layers self)))
    with (map (V 0) (seq 0 (S (n_kg_layers self)))).
  rewrite layer_loop_values by lia. cbn [bind].
  change ([squeeze (V 0 0)] ++ map (fun j => squeeze (V j 0)) (seq 1 (n_kg_layers self)))
    with (map (fun j => squeeze (V j 0)) (seq 0 (S (n_kg_layers self)))).
  assert (Hsq : forall j, squeeze (V j 0)
                = mkTensor [b; d] (flat_map (fun e => chunk d e (X j)) (data items))).
  { intros j. unfold squeeze, hop_vectors. cbn [shape data hop Nat.pow filter].
    destruct (Nat.eqb_spec b 1); [lia|]. destruct (Nat.eqb_spec d 1); [lia|].
    cbn [Nat.eqb negb]. reflexivity. }
  rewrite (map_ext _ _ Hsq).
  rewrite stack_mean with (n := b) (rest := [d]).
  - reflexivity.
  - discriminate.
  - apply Forall_forall. intros t Ht. apply in_map_iff in Ht. destruct Ht as [j [<- _]].
    split; [reflexivity|]. unfold wf. cbn [shape data].
    rewrite length_flat_map_const with (w := d).
    + rewrite Witems, Hitems. cbn [numel fold_right]. lia.
    + intros a Ha. apply length_chunk. rewrite length_slot_layers.
      unfold ids_below in Iitems. rewrite Forall_forall in Iitems. specialize (Iitems a Ha). nia.
Qed.

End CfValues.

Lemma chunk_map_seq {A} (g : nat -> A) (w i n : nat) :
  (i < n)%nat -> chunk w i (map g (seq 0 (n * w))) = map (fun k => g (i * w + k)%nat) (seq 0 w).
Proof.
  intros Hi. destruct w as [|w].
  - unfold chunk. reflexivity.
  - rewrite <- (map_nth_chunk (S w) i (map g (seq 0 (n * S w))) (g 0%nat))
      by (rewrite length_map, length_seq; nia).
    apply map_ext_in. intros k Hk. apply in_seq in Hk.
    rewrite (nth_map_seq g (g 0%nat)) by nia. reflexivity.
Qed.

Lemma cf_rows_slot_propagation (self : CGKR) (items kg_neighbors : tensor nat)
    (b m d n : nat) :
  max_neighbor_size self = m -> embedding_size self = d ->
  shape (entity_embedding self) = [n; d]%nat -> wf (entity_embedding self) ->
  shape items = [b] -> wf items ->
  shape kg_neighbors = [n; m]%nat -> wf kg_neighbors ->
  ids_below n items -> ids_below n kg_neighbors ->
  (2 <= b)%nat -> (2 <= d)%nat -> (1 <= m)%nat ->
  exists cf P,
    get_cf_i_embeddings self items kg_neighbors = Ok cf
    /\ through_graph (slot_adj kg_neighbors n m) (entity_embedding self) (n_kg_layers self)
       = Ok P
    /\ shape cf = [b; d]%nat
    /\ forall i, (i < b)%nat -> row cf i = row P (nth i (data items) 0%nat).
Proof.
  intros Hm Hd HW WW Hi Wi Hk Wk Ii Ik Hb2 Hd2 Hm1.
  assert (Hb1 : (1 <= b)%nat) by lia. assert (Hd1 : (1 <= d)%nat) by lia.
  do 2 eexists.
  split; [apply (@get_cf_i_embeddings_value self items kg_neighbors b m d n
                   Hm Hd HW WW Hi Wi Hk Wk Ii Ik Hb1 Hm1 Hd1 Hb2 Hd2)|].
  split; [apply (@through_graph_layers (slot_adj kg_neighbors n m) (entity_embedding self)
                   n d (n_kg_layers self) eq_refl eq_refl HW WW)|].
  split; [reflexivity|].
  intros i Hlt. rewrite tensor_mean_layers. unfold row. cbn [shape data tl]. rewrite HW.
  cbn [tl]. replace (numel [d]) with d by (cbn; lia).
  replace (numel [n; d]%nat) with (n * d)%nat by (cbn; lia).
  assert (Hitem : (nth i (data items) 0 < n)%nat).
  { unfold ids_below in Ii. rewrite Forall_forall in Ii. apply Ii, nth_In.
    rewrite Wi, Hi. cbn. lia. }
  rewrite !chunk_map_seq by lia.
  apply map_ext_in. intros k Hkd. apply in_seq in Hkd.
  unfold mean_at. rewrite !map_map. f_equal. apply map_ext. intros j.
  unfold layer. cbn [data]. rewrite HW. cbn [nth].
  unfold slot_layers.
  set (X := Nat.iter j (spmm_data (slot_adj kg_neighbors n m) d) (data (entity_embedding self))).
  assert (LX : length X = (n * d)%nat).
  { unfold X. destruct j as [|j].
    - cbn [Nat.iter]. rewrite WW, HW. cbn [numel fold_right]. lia.
    - rewrite Nat.iter_succ, length_spmm_data. reflexivity. }
  rewrite (nth_flat_map_const (fun e => chunk d e X) (data items) 0%nat 0).
  - apply nth_chunk. lia.
  - intros a Ha. apply length_chunk. rewrite LX.
    unfold ids_below in Ii. rewrite Forall_forall in Ii. specialize (Ii a Ha). nia.
  - rewrite Wi, Hi. cbn. lia.
  - lia.
Qed.

(** Property X15.  [get_cf_i_embeddings] is a propagation restricted to
    the batch: row [i] of its result is the row of the batch's item in
    [through_graph] run on the entity table with the slot adjacency of the
    neighbor table handed over, in which every slot weighs
    [1 / max_neighbor_size], padding and repeated slots included. *)
Theorem cf_embedding_is_slot_propagation (self : CGKR) (items kg_neighbors : tensor nat)
    (b m d n : nat) :
  max_neighbor_size self = m -> embedding_size self = d ->
  shape (entity_embedding self) = [n; d]%nat -> wf (entity_embedding self) ->
  shape items = [b] -> wf items ->
  shape kg_neighbors = [n; m]%nat -> wf kg_neighbors ->
  ids_below n items -> ids_below n kg_neighbors ->
  (2 <= b)%nat -> (2 <= d)%nat -> (1 <= m)%nat ->
  exists cf P,
    get_cf_i_embeddings self items kg_neighbors = Ok cf
    /\ through_graph (slot_adj kg_neighbors n m) (entity_embedding self) (n_kg_layers self)
       = Ok P
    /\ shape cf = [b; d]%nat
    /\ forall i, (i < b)%nat -> row cf i = row P (nth i (data items) 0%nat).
Proof. apply cf_rows_slot_propagation. Qed.

Lemma cf_embedding_is_slot_propagation_witness :
  exists cf P,
    get_cf_i_embeddings Toy.model Toy.items Toy.kg_neighbors = Ok cf
    /\ through_graph (slot_adj Toy.kg_neighbors 3 2) (entity_embedding Toy.model) 1 = Ok P
    /\ shape cf = [2; 2]%nat
    /\ forall i, (i < 2)%nat -> row cf i = row P (nth i (data Toy.items) 0%nat).
Proof.
  apply (@cf_embedding_is_slot_propagation Toy.model Toy.items Toy.kg_neighbors 2 2 2 3);
    try reflexivity; try lia; unfold ids_below; cbn; repeat constructor.
Defined.

Section OwnTable.
Variables (slots : slot_kind) (raw : tensor nat) (adj : sparse) (n m d : nat).
Hypothesis Hraw : shape raw = [n; m]%nat.
Hypothesis Hadj : get_kg_adj slots n m raw = Ok adj.
Hypothesis Hpad : Forall (fun c => c = 0%nat) (chunk m 0 (data raw)).
Hypothesis Hnodup :
  slots = IntSlots ->
  forall e, (e < n)%nat -> NoDup (filter (fun c => negb (c =? 0)%nat) (chunk m e (data raw))).
Hypothesis Hn1 : (1 <= n)%nat.

Lemma spmm_own_table (x : list R) :
  (forall k, (k < d)%nat -> nth k x 0 = 0) ->
  spmm_data adj d x = spmm_data (slot_adj raw n m) d x.
Proof.
  intros Hz.
  destruct (@kg_adj_coords slots n m n raw adj Hraw (le_n n) Hadj) as [Hr _].
  rewrite <- (flat_map_chunk d n (spmm_data adj d x))
    by (rewrite length_spmm_data, Hr; reflexivity).
  rewrite <- (flat_map_chunk d n (spmm_data (slot_adj raw n m) d x))
    by (rewrite length_spmm_data; reflexivity).
  apply flat_map_ext_in. intros e He. apply in_seq in He.
  assert (He' : (e < n)%nat) by lia.
  rewrite (@kg_adj_row_average slots n m n d e raw adj x Hraw (le_n n) Hadj He'
             (fun Hk => Hnodup Hk He') Hz).
  symmetry. apply chunk_spmm_slot_adj. lia.
Qed.

Lemma slot_adj_keeps_padding (x : list R) :
  (forall k, (k < d)%nat -> nth k x 0 = 0) ->
  forall k, (k < d)%nat -> nth k (spmm_data (slot_adj raw n m) d x) 0 = 0.
Proof.
  intros Hz k Hk.
  change k with (0 * d + k)%nat. rewrite <- (nth_chunk 0 (spmm_data (slot_adj raw n m) d x) 0 Hk).
  rewrite chunk_spmm_slot_adj by lia. unfold slot_average.
  rewrite (nth_map_seq _ 0 Hk). rewrite Rsum_zeros; [unfold Rdiv; lra|].
  apply Forall_forall. intros y Hy. apply in_map_iff in Hy. destruct Hy as [c [<- Hc]].
  rewrite Forall_forall in Hpad. rewrite (Hpad c Hc). cbn [Nat.mul Nat.add]. now apply Hz.
Qed.

Lemma layers_own_table (W : list R) (j : nat) :
  (forall k, (k < d)%nat -> nth k W 0 = 0) ->
  Nat.iter j (spmm_data adj d) W = Nat.iter j (spmm_data (slot_adj raw n m) d) W
  /\ forall k, (k < d)%nat -> nth k (Nat.iter j (spmm_data (slot_adj raw n m) d) W) 0 = 0.
Proof.
  intros Hz. induction j as [|j [IH1 IH2]]; [split; [reflexivity|exact Hz]|].
  rewrite !Nat.iter_succ, IH1. split.
  - now apply spmm_own_table.
  - now apply slot_adj_keeps_padding.
Qed.

Lemma through_graph_own_table (W : tensor R) (L : nat) :
  shape W = [n; d]%nat -> wf W -> zero_row (data W) d 0 ->
  through_graph adj W L = through_graph (slot_adj raw n m) W L.
Proof.
  intros HW WW Hz.
  destruct (@kg_adj_coords slots n m n raw adj Hraw (le_n n) Hadj) as [Hr [Hc _]].
  rewrite (@through_graph_layers adj W n d L Hr Hc HW WW).
  rewrite (@through_graph_layers (slot_adj raw n m) W n d L eq_refl eq_refl HW WW).
  f_equal. f_equal. apply map_ext. intros j. unfold layer. f_equal. rewrite HW. cbn [nth].
  apply layers_own_table. intros k Hk. apply (Hz k Hk).
Qed.

End OwnTable.

(** Property X16.  With the table the model was built from, of either
    kind, [get_cf_i_embeddings] reproduces the propagated entity embeddings
    of the batch items that [forward] returns, provided entity 0 has only
    padding slots, row 0 of the entity table is zero and, where the
    adjacency was built from a table of plain integers, no entity lists a
    neighbor twice. *)
Theorem cf_embedding_matches_forward (slots : slot_kind) (self self' : CGKR)
    (items raw : tensor nat) (U E : tensor R) (b d n : nat) :
  get_kg_adj slots n (max_neighbor_size self) raw = Ok (kg_adj self) ->
  shape raw = [n; max_neighbor_size self] -> wf raw -> ids_below n raw ->
  Forall (fun c => c = 0%nat) (chunk (max_neighbor_size self) 0 (data raw)) ->
  (slots = IntSlots ->
   forall e, (e < n)%nat ->
     NoDup (filter (fun c => negb (c =? 0)%nat) (chunk (max_neighbor_size self) e (data raw)))) ->
  embedding_size self = d ->
  shape (entity_embedding self) = [n; d]%nat -> wf (entity_embedding self) ->
  zero_row (data (entity_embedding self)) d 0 ->
  shape items = [b] -> wf items -> ids_below n items ->
  (2 <= b)%nat -> (2 <= d)%nat ->
  forward self = Ok ((U, E), self') ->
  exists cf,
    get_cf_i_embeddings self items raw = Ok cf
    /\ shape cf = [b; d]%nat
    /\ forall i, (i < b)%nat -> row cf i = row E (nth i (data items) 0%nat).
Proof.
  intros Hadj Hraw Wraw Iraw Hpad Hnodup Hd HW WW Hz Hi Wi Ii Hb2 Hd2 Hf.
  destruct (@get_kg_adj_rows slots n (max_neighbor_size self) n (max_neighbor_size self) raw
              (kg_adj self) Hraw Hadj) as [_ Hm1].
  assert (Hn1 : (1 <= n)%nat).
  { destruct (data items) as [|a l] eqn:Hdata.
    - unfold wf in Wi. rewrite Hdata, Hi in Wi. cbn in Wi. lia.
    - unfold ids_below in Ii. rewrite Hdata in Ii. apply Forall_cons_iff in Ii. lia. }
  destruct (@cf_rows_slot_propagation self items raw b (max_neighbor_size self) d n
              eq_refl Hd HW WW Hi Wi Hraw Wraw Ii Iraw Hb2 Hd2 Hm1)
    as (cf & P & Hcf & HP & Scf & Hrows).
  apply forward_inv in Hf. destruct Hf as [HE _].
  rewrite (@through_graph_own_table slots raw (kg_adj self) n (max_neighbor_size self) d
             Hraw Hadj Hpad Hnodup Hn1 (entity_embedding self) (n_kg_layers self) HW WW Hz)
    in HE.
  rewrite HP in HE. injection HE as <-.
  exists cf. split; [exact Hcf|]. split; [exact Scf|exact Hrows].
Qed.

Lemma own_model_consistent : consistent Toy.own_model.
Proof. unfold consistent. cbn. repeat split; lia. Qed.

Lemma cf_embedding_matches_forward_witness :
  exists U E self',
    forward Toy.own_model = Ok ((U, E), self')
    /\ exists cf,
         get_cf_i_embeddings Toy.own_model Toy.items Toy.own_table = Ok cf
         /\ shape cf = [2; 2]%nat
         /\ forall i, (i < 2)%nat -> row cf i = row E (nth i (data Toy.items) 0%nat).
Proof.
  assert (Hle : (n_items Toy.own_model <= n_entities Toy.own_model)%nat) by (cbn; lia).
  destruct (forward_consistent own_model_consistent Hle) as (U & E & s & Hf & _).
  exists U, E, s. split; [exact Hf|].
  apply (@cf_embedding_matches_forward TensorSlots Toy.own_model s Toy.items Toy.own_table
           U E 2 2 3).
  - reflexivity.
  - reflexivity.
  - reflexivity.
  - unfold ids_below. cbn. repeat constructor.
  - cbn. repeat constructor.
  - discriminate.
  - reflexivity.
  - reflexivity.
  - reflexivity.
  - intros k Hk. destruct k as [|[|k]]; [reflexivity|reflexivity|lia].
  - reflexivity.
  - reflexivity.
  - unfold ids_below. cbn. repeat constructor.
  - lia.
  - lia.
  - exact Hf.
Defined.

(** ** The reward entry points on whole batches *)

(** Property X17.  On a well-shaped batch of at least two lines both reward
    entry points return, with the model unchanged: line [i] of [reward1] is
    the log-sigmoid term of the two scores minus [ib_beta] times the 2-norm
    of the counterfactual embedding built from the first table, and line
    [i] of [reward2] is the log-sigmoid term with the counterfactual score
    built from the second table, in the argument orders the code uses. *)
Theorem reward_entry_points_formulas (self : CGKR) (interaction : Interaction)
    (kg_neighbors1 kg_neighbors2 : tensor nat) (U E : tensor R) (b d : nat) :
  well_shaped_batch self interaction kg_neighbors1 kg_neighbors2 U E b d ->
  (exists cf1 cf2,
    get_cf_i_embeddings self (ITEM_ID interaction) kg_neighbors1 = Ok cf1
    /\ get_cf_i_embeddings self (ITEM_ID interaction) kg_neighbors2 = Ok cf2
    /\ generate_pos_reward self interaction kg_neighbors1 kg_neighbors2 U E
       = Ok ((mkTensor [b]
               (map (fun i =>
                       ln (1e-10 + sigmoid
                             (dot (batch_row U (USER_ID interaction) i) (row cf1 i)
                              - dot (batch_row U (USER_ID interaction) i)
                                    (batch_row E (NEG_ITEM_ID interaction) i)))
                       - ib_beta self * norm2 (row cf1 i)) (seq 0 b)),
             mkTensor [b]
               (map (fun i =>
                       ln (1e-10 + sigmoid
                             (dot (batch_row U (USER_ID interaction) i)
                                  (batch_row E (ITEM_ID interaction) i)
                              - dot (batch_row U (USER_ID interaction) i) (row cf2 i))))
                    (seq 0 b))), self))
  /\ (exists cf1 cf2,
    get_cf_i_embeddings self (NEG_ITEM_ID interaction) kg_neighbors1 = Ok cf1
    /\ get_cf_i_embeddings self (NEG_ITEM_ID interaction) kg_neighbors2 = Ok cf2
    /\ generate_neg_reward self interaction kg_neighbors1 kg_neighbors2 U E
       = Ok ((mkTensor [b]
               (map (fun i =>
                       ln (1e-10 + sigmoid
                             (dot (batch_row U (USER_ID interaction) i)
                                  (batch_row E (ITEM_ID interaction) i)
                              - dot (batch_row U (USER_ID interaction) i) (row cf1 i)))
                       - ib_beta self * norm2 (row cf1 i)) (seq 0 b)),
             mkTensor [b]
               (map (fun i =>
                       ln (1e-10 + sigmoid
                             (dot (batch_row U (USER_ID interaction) i) (row cf2 i)
                              - dot (batch_row U (USER_ID interaction) i)
                                    (batch_row E (NEG_ITEM_ID interaction) i))))
                    (seq 0 b))), self)).
Proof.
  intros (m & n & ne & nu & nE & Hm & Hd & HW & WW & HU & WU & HE & WE
          & Hus & Wus & Ius & Hp & Wp & Ip & Hn & Wn & In_ & Hk1 & Wk1 & Ik1
          & Hk2 & Wk2 & Ik2 & Hb2 & Hd2 & Hm1).
  split.
  - exact (@generate_pos_reward_formula self interaction kg_neighbors1 kg_neighbors2 U E
             b d m n ne nu nE Hm Hd HW WW HU WU HE WE Hus Wus Ius Hp Wp Ip Hn Wn In_
             Hk1 Wk1 Ik1 Hk2 Wk2 Ik2 Hb2 Hd2 Hm1).
  - exact (@generate_neg_reward_formula self interaction kg_neighbors1 kg_neighbors2 U E
             b d m n ne nu nE Hm Hd HW WW HU WU HE WE Hus Wus Ius Hp Wp Ip Hn Wn In_
             Hk1 Wk1 Ik1 Hk2 Wk2 Ik2 Hb2 Hd2 Hm1).
Qed.

Lemma reward_entry_points_formulas_witness :
  exists r self',
    generate_pos_reward Toy.model Toy.interaction Toy.kg_neighbors Toy.kg_neighbors
      (user_embedding Toy.model) (entity_embedding Toy.model) = Ok (r, self')
    /\ self' = Toy.model.
Proof.
  destruct (proj1 (@reward_entry_points_formulas Toy.model Toy.interaction Toy.kg_neighbors
                     Toy.kg_neighbors (user_embedding Toy.model) (entity_embedding Toy.model)
                     2 2 toy_well_shaped)) as (cf1 & cf2 & _ & _ & H).
  eexists. eexists. split; [exact H|reflexivity].
Defined.

Lemma sigmoid_lt_1 (x : R) : sigmoid x < 1.
Proof.
  unfold sigmoid. pose proof (exp_pos (- x)) as He.
  apply Rmult_lt_reg_r with (1 + exp (- x)); [lra|].
  unfold Rdiv. rewrite Rmult_assoc, Rinv_l by lra. lra.
Qed.

Lemma log_sigmoid_bounds (x : R) : ln 1e-10 < ln (1e-10 + sigmoid x) < 1e-10.
Proof.
  pose proof (sigmoid_pos x) as Hp. pose proof (sigmoid_lt_1 x) as Hl. split.
  - apply ln_increasing; lra.
  - apply Rlt_trans with (ln (1 + 1e-10)).
    + apply ln_increasing; lra.
    + rewrite <- (ln_exp 1e-10) at 2. apply ln_increasing; [lra|].
      apply exp_ineq1. lra.
Qed.

Lemma Rsum_nonneg (l : list R) : Forall (fun x => 0 <= x) l -> 0 <= Rsum l.
Proof.
  induction 1 as [|x l Hx _ IH]; cbn [Rsum fold_right]; [lra|]. fold (Rsum l). lra.
Qed.

Lemma norm2_nonneg (l : list R) : 0 <= norm2 l.
Proof. unfold norm2. apply sqrt_pos. Qed.

(** Property X18.  The rewards are bounded: every entry of [reward2] lies
    strictly between [ln 1e-10] and [1e-10], and with [ib_beta >= 0] the
    entry of [reward1] on the same scores is at most that of [reward2], so
    it stays below [1e-10] too. *)
Theorem rewards_bounded (self : CGKR) (scoresA scoresB embeddings : tensor R) (B D : nat) :
  shape scoresA = [B] -> shape scoresB = [B] -> shape embeddings = [B; D]%nat ->
  wf scoresA -> wf scoresB -> wf embeddings ->
  exists r1 r2,
    get_reward1 self scoresA scoresB embeddings = Ok r1
    /\ get_reward2 self scoresA scoresB = Ok r2
    /\ forall i, (i < B)%nat ->
         ln 1e-10 < at_ r2 i < 1e-10
         /\ (0 <= ib_beta self -> at_ r1 i <= at_ r2 i).
Proof.
  intros HA HB HE WA WB WE.
  do 2 eexists.
  split; [apply (get_reward1_rows self HA HB HE WA WB WE)|].
  split; [apply (get_reward2_rows self HA HB WA WB)|].
  intros i Hi. rewrite !at_map_seq by exact Hi. split.
  - apply log_sigmoid_bounds.
  - intros Hbeta. pose proof (norm2_nonneg (row embeddings i)) as Hn. nra.
Qed.

Lemma rewards_bounded_witness :
  exists r1 r2,
    get_reward1 Toy.model Toy.scoresA Toy.scoresB Toy.embeddings = Ok r1
    /\ get_reward2 Toy.model Toy.scoresA Toy.scoresB = Ok r2
    /\ forall i, (i < 2)%nat ->
         ln 1e-10 < at_ r2 i < 1e-10
         /\ (0 <= ib_beta Toy.model -> at_ r1 i <= at_ r2 i).
Proof.
  apply (@rewards_bounded Toy.model Toy.scoresA Toy.scoresB Toy.embeddings 2 2);
    reflexivity.
Defined.

(** ** Missing inputs and the prediction cache *)

(** Property X19.  What [calculate_loss] raises on missing inputs: given
    user embeddings but no entity embeddings it raises TypeError (None is
    subscripted); on a well-shaped batch it raises KeyError when a
    counterfactual flag is set and the batch carries no neighbor table for
    it, the positive table being looked up first. *)
Theorem calculate_loss_missing_inputs (self : CGKR) (interaction : Interaction) :
  (forall U u, index U (USER_ID interaction) = Ok u ->
     calculate_loss self interaction (Some U) None = Raise TypeError)
  /\ (forall table_pos table_neg U E b d,
        well_shaped_batch self interaction table_pos table_neg U E b d ->
        (cf_pos_flag self = true -> cf_pos_kg_neighbors interaction = None ->
           calculate_loss self interaction (Some U) (Some E) = Raise KeyError)
        /\ ((cf_pos_flag self = true -> cf_pos_kg_neighbors interaction = Some table_pos) ->
            cf_neg_flag self = true -> cf_neg_kg_neighbors interaction = None ->
            calculate_loss self interaction (Some U) (Some E) = Raise KeyError)).
Proof.
  split.
  - intros U u Hu. unfold calculate_loss. cbn [bind subscript]. rewrite Hu. reflexivity.
  - intros table_pos table_neg U E b d [m [n [ne [nu [nE H]]]]].
    destruct H as [Hm [Hd [HW [WW [HU [WU [HE [WE [Hu [Wu [Iu [Hp [Wp [Ip [Hn [Wn [In_
                  [Hk1 [Wk1 [Ik1 [Hk2 [Wk2 [Ik2 [Hb2 [Hd2 Hm1]]]]]]]]]]]]]]]]]]]]]]]]].
    destruct (@batch_rows self interaction table_pos table_neg U E b d m n ne nu nE
                Hm Hd HU WU HE WE Hu Wu Iu Hp Wp Ip Hn Wn In_ Ik1 Ik2 Hb2 Hd2 Hm1)
      as [u [pe [nge [Eu [Ep [En [[Su [Wfu _]] [[Sp [Wfp _]] [Sn [Wfn _]]]]]]]]]].
    destruct (@cf_embedding_Ok self interaction table_pos table_neg b d m n ne nu nE
                Hm Hd HW WW Iu Ip In_ Ik1 Ik2 Hb2 Hd2 Hm1 _ _ Hp Wp Ip Hk1 Wk1 Ik1)
      as [cfp [Cp [Scp Wcp]]].
    unfold calculate_loss.
    pose proof (calculate_loss_state self) as St.
    pose proof (calculate_loss_state_cf self) as Scf.
    set (s := if is_some (restore_user_e self) || is_some (restore_item_e self)
              then set_restore self None None else self) in *.
    cbv zeta in St. destruct St as [_ [_ [_ [_ [Hpf [Hnf _]]]]]].
    cbn [bind subscript]. rewrite Eu, Ep, En. cbn [bind].
    rewrite (@scores_rows u pe b d Su Wfu Sp Wfp). cbn [bind].
    rewrite (@scores_rows u nge b d Su Wfu Sn Wfn). cbn [bind].
    set (pos := mkTensor [b] (map (fun i => dot (row u i) (row pe i)) (seq 0 b))).
    set (neg := mkTensor [b] (map (fun i => dot (row u i) (row nge i)) (seq 0 b))).
    assert (Wpos : wf pos) by apply wf_map_seq.
    assert (Wneg : wf neg) by apply wf_map_seq.
    destruct (@BPRLoss_Ok pos neg b eq_refl eq_refl Wpos Wneg) as [bpr Hbpr].
    split.
    + intros Hflag Hnone. unfold get_bpr_loss at 1. rewrite Hbpr. cbn [bind].
      rewrite Hpf, Hflag, Hnone. reflexivity.
    + intros Hpt Hflag Hnone. unfold get_bpr_loss at 1. rewrite Hbpr. cbn [bind].
      rewrite Hpf, Hnf.
      assert (P : exists l1,
        (if cf_pos_flag self
         then
           table <- get_field (cf_pos_kg_neighbors interaction) ;;
           cf_posi_embeddings <- get_cf_i_embeddings s (ITEM_ID interaction) table ;;
           cf_pos_scores <- (m0 <- mul u cf_posi_embeddings ;; sum_dim 1 m0) ;;
           cf_pos_loss <-
             (if String.eqb (cf_loss_function s) "mae"
              then L1Loss pos cf_pos_scores
              else get_bpr_loss s cf_pos_scores neg) ;;
           Ok ([bpr] ++ [cf_pos_weight s * cf_pos_loss])
         else Ok [bpr]) = Ok l1).
      { destruct (cf_pos_flag self); [|eauto].
        rewrite (Hpt eq_refl). cbn [get_field bind].
        rewrite (get_cf_i_embeddings_ext (ITEM_ID interaction) table_pos Scf), Cp. cbn [bind].
        rewrite (@scores_rows u cfp b d Su Wfu Scp Wcp). cbn [bind].
        destruct (@consistency_loss_Ok s pos
                    (mkTensor [b] (map (fun i => dot (row u i) (row cfp i)) (seq 0 b))) neg b
                    eq_refl eq_refl eq_refl Wpos (wf_map_seq _ _) Wneg) as [l [Hl _]].
        rewrite Hl. cbn [bind]. eauto. }
      destruct P as [l1 ->]. cbn [bind]. rewrite Hflag, Hnone. reflexivity.
Qed.

Lemma calculate_loss_missing_inputs_witness :
  calculate_loss Toy.model Toy.interaction (Some (user_embedding Toy.model)) None
  = Raise TypeError
  /\ calculate_loss Toy.model
       (mkInteraction Toy.users Toy.items Toy.neg_items None None)
       (Some (user_embedding Toy.model)) (Some (entity_embedding Toy.model))
     = Raise KeyError.
Proof.
  split.
  - eapply (proj1 (calculate_loss_missing_inputs Toy.model Toy.interaction)). reflexivity.
  - apply (proj1 (proj2 (calculate_loss_missing_inputs Toy.model
                           (mkInteraction Toy.users Toy.items Toy.neg_items None None))
                    Toy.kg_neighbors Toy.kg_neighbors _ _ 2%nat 2%nat toy_well_shaped));
      reflexivity.
Defined.

Lemma calculate_loss_cache_cleared (self self' : CGKR) (interaction : Interaction)
    (U0 E0 : option (tensor R)) (losses : list R) :
  calculate_loss self interaction U0 E0 = Ok (losses, self') ->
  restore_user_e self' = None /\ restore_item_e self' = None.
Proof.
  intros H. destruct U0 as [U|].
  - unfold calculate_loss in H.
    pose proof (calculate_loss_state self) as St.
    set (s := if is_some (restore_user_e self) || is_some (restore_item_e self)
              then set_restore self None None else self) in *.
    cbv zeta in St. destruct St as [_ [_ [Hru [Hri _]]]]. cbn [bind] in H.
    repeat (apply bind_Ok in H; destruct H as [? [_ H]]).
    injection H as _ <-. tauto.
  - destruct (@calculate_loss_recomputed _ _ _ _ _ H) as [U [E [s1 [_ [_ H1]]]]].
    unfold calculate_loss in H1.
    pose proof (calculate_loss_state s1) as St.
    set (s := if is_some (restore_user_e s1) || is_some (restore_item_e s1)
              then set_restore s1 None None else s1) in *.
    cbv zeta in St. destruct St as [_ [_ [Hru [Hri _]]]]. cbn [bind] in H1.
    repeat (apply bind_Ok in H1; destruct H1 as [? [_ H1]]).
    injection H1 as _ <-. tauto.
Qed.

(** What a call of [full_sort_predict] leaves behind: a filled cache from
    which the scores were computed. *)
Lemma full_sort_predict_step (self self' : CGKR) (interaction : Interaction)
    (scores : tensor R) :
  full_sort_predict self interaction = Ok (scores, self') ->
  exists Ur I,
    restore_user_e self' = Some Ur /\ restore_item_e self' = Some I
    /\ (u <- index Ur (USER_ID interaction) ;;
        t <- transpose01 I ;;
        m <- matmul u t ;;
        fl <- view_flat m ;;
        Ok (fl, self')) = Ok (scores, self')
    /\ (restore_user_e self = None \/ restore_item_e self = None ->
        forward_calls self' = S (forward_calls self))
    /\ (restore_user_e self <> None -> restore_item_e self <> None -> self' = self).
Proof.
  intros H.
  assert (Hmiss : restore_user_e self = None \/ restore_item_e self = None ->
    exists Ur I,
      restore_user_e self' = Some Ur /\ restore_item_e self' = Some I
      /\ (u <- index Ur (USER_ID interaction) ;;
          t <- transpose01 I ;;
          m <- matmul u t ;;
          fl <- view_flat m ;;
          Ok (fl, self')) = Ok (scores, self')
      /\ forward_calls self' = S (forward_calls self)).
  { intros Hnone. unfold full_sort_predict in H.
    apply bind_Ok in H. destruct H as [s2 [Hs2 H]].
    assert (Hs2' : (' (u, restore_entity_e, self') <- forward self ;;
                    let self' := set_restore self' (Some u) (restore_item_e self') in
                    items <- slice0 (n_items self') restore_entity_e ;;
                    Ok (set_restore self' (restore_user_e self') (Some items))) = Ok s2).
    { destruct Hnone as [Hn|Hn]; rewrite Hn in Hs2; [exact Hs2|].
      destruct (restore_user_e self); exact Hs2. }
    clear Hs2. apply bind_Ok in Hs2'. destruct Hs2' as [[[U E] s1] [Hf Hs2]].
    apply bind_Ok in Hs2. destruct Hs2 as [items [Hit Hs2]].
    injection Hs2 as <-.
    destruct (@forward_inv _ _ _ _ Hf) as [_ [_ [_ [_ [_ [_ Hfc]]]]]].
    cbn [restore_user_e restore_item_e set_restore subscript] in H.
    assert (Hself : self' = set_restore (set_restore s1 (Some U) (restore_item_e s1))
                              (Some U) (Some items)).
    { repeat (apply bind_Ok in H; destruct H as [? [_ H]]). now injection H as _ <-. }
    exists U, items. rewrite Hself. cbn [restore_user_e restore_item_e set_restore].
    split; [reflexivity|]. split; [reflexivity|]. split.
    - rewrite Hself in H. exact H.
    - cbn [forward_calls set_restore]. exact Hfc. }
  destruct (restore_user_e self) as [ru|] eqn:Hru;
    [destruct (restore_item_e self) as [ri|] eqn:Hri|].
  - unfold full_sort_predict in H. rewrite Hru, Hri in H. cbn [bind] in H.
    rewrite Hru, Hri in H. cbn [subscript] in H.
    assert (Hself : self' = self).
    { repeat (apply bind_Ok in H; destruct H as [? [_ H]]). now injection H as _ <-. }
    subst self'. exists ru, ri. split; [exact Hru|]. split; [exact Hri|].
    split; [exact H|]. split; [intros [Hn|Hn]; discriminate|reflexivity].
  - destruct (Hmiss (or_intror eq_refl)) as (Ur & I & H1 & H2 & H3 & H4).
    exists Ur, I. split; [exact H1|]. split; [exact H2|]. split; [exact H3|].
    split; [intros _; exact H4|]. intros _ Hn. now contradiction Hn.
  - destruct (Hmiss (or_introl eq_refl)) as (Ur & I & H1 & H2 & H3 & H4).
    exists Ur, I. split; [exact H1|]. split; [exact H2|]. split; [exact H3|].
    split; [intros _; exact H4|]. intros Hn. now contradiction Hn.
Qed.

Lemma full_sort_predict_cached (self : CGKR) (interaction : Interaction) (Ur I : tensor R) :
  restore_user_e self = Some Ur -> restore_item_e self = Some I ->
  full_sort_predict self interaction
  = (u <- index Ur (USER_ID interaction) ;;
     t <- transpose01 I ;;
     m <- matmul u t ;;
     fl <- view_flat m ;;
     Ok (fl, self)).
Proof.
  intros Hu Hi. unfold full_sort_predict. rewrite Hu, Hi. cbn [bind].
  rewrite Hu, Hi. reflexivity.
Qed.

(** Property X20.  [calculate_loss] invalidates the prediction cache: when
    it returns, both cached matrices are None, so the next
    [full_sort_predict] runs [forward] once more. *)
Theorem calculate_loss_clears_cache (self self' : CGKR) (interaction : Interaction)
    (U0 E0 : option (tensor R)) (losses : list R) :
  calculate_loss self interaction U0 E0 = Ok (losses, self') ->
  restore_user_e self' = None /\ restore_item_e self' = None
  /\ forall batch scores self'',
       full_sort_predict self' batch = Ok (scores, self'') ->
       forward_calls self'' = S (forward_calls self').
Proof.
  intros H. destruct (calculate_loss_cache_cleared _ _ _ _ H) as [Hu Hi].
  split; [exact Hu|]. split; [exact Hi|].
  intros batch scores self'' Hp.
  destruct (full_sort_predict_step _ _ Hp) as (_ & _ & _ & _ & _ & Hfc & _).
  apply Hfc. now left.
Qed.

Lemma calculate_loss_clears_cache_witness :
  exists losses self',
    calculate_loss Toy.model Toy.interaction
      (Some (user_embedding Toy.model)) (Some (entity_embedding Toy.model))
    = Ok (losses, self')
    /\ restore_user_e self' = None /\ restore_item_e self' = None.
Proof.
  destruct (@calculate_loss_returns Toy.model Toy.interaction Toy.kg_neighbors Toy.kg_neighbors
              (user_embedding Toy.model) (entity_embedding Toy.model) 2%nat 2%nat
              toy_well_shaped (fun _ => eq_refl) (fun _ => eq_refl))
    as [losses [self' H]].
  exists losses, self'. split; [exact H|].
  destruct (@calculate_loss_clears_cache _ _ _ _ _ _ H) as (Hu & Hi & _).
  split; [exact Hu|exact Hi].
Defined.

(** Property X21.  [full_sort_predict] caches: after a call that returns,
    the same call again returns the same scores, no later call changes the
    model (so [forward] is not run again), and the first call ran [forward]
    exactly when one of the two cached matrices was missing. *)
Theorem full_sort_predict_caches (self self' : CGKR) (interaction : Interaction)
    (scores : tensor R) :
  full_sort_predict self interaction = Ok (scores, self') ->
  full_sort_predict self' interaction = Ok (scores, self')
  /\ (forall batch scores2 self'',
        full_sort_predict self' batch = Ok (scores2, self'') -> self'' = self')
  /\ forward_calls self'
     = (if is_some (restore_user_e self) && is_some (restore_item_e self)
        then forward_calls self else S (forward_calls self)).
Proof.
  intros H.
  destruct (full_sort_predict_step _ _ H) as (Ur & I & Hu & Hi & Hs & Hmiss & Hhit).
  split; [|split].
  - rewrite (full_sort_predict_cached self' interaction Hu Hi). exact Hs.
  - intros batch scores2 self'' H2.
    destruct (full_sort_predict_step _ _ H2) as (_ & _ & _ & _ & _ & _ & Hhit2).
    apply Hhit2; [rewrite Hu|rewrite Hi]; discriminate.
  - destruct (restore_user_e self) as [ru|] eqn:Hru;
      [destruct (restore_item_e self) as [ri|] eqn:Hri|]; cbn [is_some andb].
    + rewrite Hhit; [reflexivity|discriminate|discriminate].
    + apply Hmiss. now right.
    + apply Hmiss. now left.
Qed.

Lemma full_sort_predict_caches_witness :
  exists scores self',
    full_sort_predict Toy.model Toy.interaction = Ok (scores, self')
    /\ full_sort_predict self' Toy.interaction = Ok (scores, self')
    /\ forward_calls self' = 1%nat.
Proof.
  assert (H : exists scores self',
             full_sort_predict Toy.model Toy.interaction = Ok (scores, self')).
  { do 2 eexists. reflexivity. }
  destruct H as (scores & self' & H). exists scores, self'. split; [exact H|].
  destruct (@full_sort_predict_caches _ _ _ _ H) as (H1 & _ & H3).
  split; [exact H1|exact H3].
Defined.

(** ** The scores of full-ranking prediction *)

Lemma chunk_1 {A} (k : nat) (l : list A) (x : A) :
  (k < length l)%nat -> chunk 1 k l = [nth k l x].
Proof.
  intros Hk. unfold chunk. rewrite Nat.mul_1_r. revert k Hk.
  induction l as [|a l IH]; intros k Hk; [cbn in Hk; lia|].
  destruct k as [|k]; [reflexivity|]. cbn [skipn nth]. apply IH. cbn in Hk. lia.
Qed.

Lemma transpose01_matrix (t : tensor R) (n d : nat) :
  shape t = [n; d]%nat -> wf t ->
  transpose01 t
  = Ok (mkTensor [d; n]
          (flat_map (fun j => map (fun i => nth (i * d + j) (data t) 0) (seq 0 n)) (seq 0 d))).
Proof.
  intros Hs Hw. unfold transpose01. rewrite Hs. f_equal. f_equal.
  apply flat_map_ext_in. intros j Hj. apply in_seq in Hj.
  apply flat_map_ext_in_map. intros i Hi. apply in_seq in Hi.
  cbn [numel fold_right]. apply chunk_1. rewrite Hw, Hs. cbn [numel fold_right]. nia.
Qed.

Lemma matmul_matrix (u t : tensor R) (b d n : nat) :
  shape u = [b; d]%nat -> shape t = [d; n]%nat ->
  matmul u t
  = Ok (mkTensor [b; n]
          (flat_map (fun i =>
             map (fun j =>
               Rsum (map (fun c => nth (i * d + c) (data u) 0 * nth (c * n + j) (data t) 0)
                         (seq 0 d)))
               (seq 0 n))
             (seq 0 b))).
Proof.
  intros Hu Ht. unfold matmul. rewrite Hu, Ht. cbn [rev app]. rewrite Nat.eqb_refl.
  replace (numel [b]) with b by (cbn; lia). reflexivity.
Qed.

Lemma view_flat_matrix (b n : nat) (x : list R) :
  view_flat (mkTensor [b; n]%nat x) = Ok (mkTensor [(b * n)%nat] x).
Proof.
  unfold view_flat, view_infer. cbn [shape data app].
  replace (numel [] * numel [])%nat with 1%nat by reflexivity.
  replace (numel [b; n]%nat) with (b * n)%nat by (cbn; lia).
  cbn [Nat.eqb]. rewrite Nat.mod_1_r, Nat.div_1_r. reflexivity.
Qed.

Lemma dot_rows (x y : list R) (i j d : nat) :
  ((S i) * d <= length x)%nat -> ((S j) * d <= length y)%nat ->
  Rsum (map (fun c => nth (i * d + c) x 0 * nth (j * d + c) y 0) (seq 0 d))
  = dot (chunk d i x) (chunk d j y).
Proof.
  intros Hx Hy. unfold dot.
  rewrite <- (map_nth_chunk d i x 0 Hx), <- (map_nth_chunk d j y 0 Hy).
  now rewrite zip_with_map_seq.
Qed.

(** The scores computed from a filled cache. *)
Lemma full_sort_predict_from_cache (self : CGKR) (interaction : Interaction)
    (Ur I : tensor R) (b d nu ni : nat) :
  restore_user_e self = Some Ur -> restore_item_e self = Some I ->
  shape Ur = [nu; d]%nat -> wf Ur -> shape I = [ni; d]%nat -> wf I ->
  shape (USER_ID interaction) = [b] -> wf (USER_ID interaction) ->
  ids_below nu (USER_ID interaction) ->
  full_sort_predict self interaction
  = Ok (mkTensor [(b * ni)%nat]
          (flat_map (fun i =>
             map (fun j => dot (batch_row Ur (USER_ID interaction) i) (row I j)) (seq 0 ni))
             (seq 0 b)),
        self).
Proof.
  intros Hu Hi HU WU HI WI Hus Wus Ius.
  rewrite (full_sort_predict_cached self interaction Hu Hi).
  destruct (@index_rows Ur (USER_ID interaction) nu d b HU WU Hus Wus Ius)
    as (u & Eu & Su & Wu & Ru).
  rewrite Eu. cbn [bind]. rewrite (transpose01_matrix HI WI). cbn [bind].
  erewrite (@matmul_matrix u _ b d ni Su) by reflexivity. cbn [bind data].
  rewrite view_flat_matrix. cbn [bind]. f_equal. f_equal. f_equal.
  apply flat_map_ext_in. intros i Hib. apply in_seq in Hib.
  apply map_ext_in. intros j Hj. apply in_seq in Hj.
  unfold batch_row. rewrite <- (Ru i) by lia. unfold row. rewrite Su, HI. cbn [tl].
  replace (numel [d]) with d by (cbn; lia).
  rewrite <- dot_rows.
  - f_equal. apply map_ext_in. intros c Hc. apply in_seq in Hc. f_equal.
    rewrite (nth_flat_map_const
               (fun j0 => map (fun i0 => nth (i0 * d + j0) (data I) 0) (seq 0 ni))
               (seq 0 d) 0%nat 0).
    + rewrite seq_nth by lia. cbn [Nat.add]. now rewrite (nth_map_seq _ 0) by lia.
    + intros a _. now rewrite length_map, length_seq.
    + rewrite length_seq. lia.
    + lia.
  - rewrite Wu, Su. cbn [numel fold_right]. nia.
  - rewrite WI, HI. cbn [numel fold_right]. nia.
Qed.

Lemma full_sort_predict_refill (self s2 : CGKR) (interaction : Interaction)
    (U E items : tensor R) (s1 : CGKR) :
  restore_user_e self = None \/ restore_item_e self = None ->
  forward self = Ok ((U, E), s1) ->
  slice0 (n_items self) E = Ok items ->
  s2 = set_restore (set_restore s1 (Some U) (restore_item_e s1)) (Some U) (Some items) ->
  full_sort_predict self interaction = full_sort_predict s2 interaction.
Proof.
  intros Hnone Hf Hit ->.
  destruct (@forward_inv _ _ _ _ Hf) as [_ [_ [_ [_ [_ [Hni _]]]]]].
  set (s2 := set_restore _ _ _).
  rewrite (@full_sort_predict_cached s2 interaction U items eq_refl eq_refl).
  unfold full_sort_predict.
  assert (Hfill : match restore_user_e self, restore_item_e self with
                  | Some _, Some _ => Ok self
                  | _, _ =>
                      ' (u, restore_entity_e, self') <- forward self ;;
                      let self' := set_restore self' (Some u) (restore_item_e self') in
                      items <- slice0 (n_items self') restore_entity_e ;;
                      Ok (set_restore self' (restore_user_e self') (Some items))
                  end = Ok s2).
  { assert (Hm : (' (u, restore_entity_e, self') <- forward self ;;
                  let self' := set_restore self' (Some u) (restore_item_e self') in
                  items <- slice0 (n_items self') restore_entity_e ;;
                  Ok (set_restore self' (restore_user_e self') (Some items))) = Ok s2).
    { rewrite Hf. cbn [bind]. cbv zeta. cbn [n_items set_restore]. rewrite Hni, Hit.
      reflexivity. }
    destruct Hnone as [Hn|Hn]; rewrite Hn; [exact Hm|].
    destruct (restore_user_e self); exact Hm. }
  cbv zeta in Hfill. rewrite Hfill. reflexivity.
Qed.

(** Property X22.  On a consistent model with an empty cache,
    [full_sort_predict] runs [forward] and returns, for a batch of [b]
    users, the [b * n_items] scores in user-major order: the score at
    position [i * n_items + j] is the dot product of the propagated row of
    user [i] of the batch with the propagated row of entity [j]. *)
Theorem full_sort_predict_scores (self : CGKR) (interaction : Interaction) (b : nat) :
  consistent self -> (n_items self <= n_entities self)%nat ->
  restore_user_e self = None \/ restore_item_e self = None ->
  shape (USER_ID interaction) = [b] -> wf (USER_ID interaction) ->
  ids_below (n_users self) (USER_ID interaction) ->
  exists U E s1 self',
    forward self = Ok ((U, E), s1)
    /\ full_sort_predict self interaction
       = Ok (mkTensor [(b * n_items self)%nat]
               (flat_map (fun i =>
                  map (fun j => dot (batch_row U (USER_ID interaction) i) (row E j))
                      (seq 0 (n_items self)))
                  (seq 0 b)),
             self').
Proof.
  intros Hc Hle Hnone Hus Wus Ius.
  destruct (forward_consistent Hc Hle) as (U & E & s1 & Hf & HU & WU & HE & WE & _).
  set (d := embedding_size self) in *.
  set (items := mkTensor [n_items self; d] (firstn (n_items self * d) (data E))).
  assert (Hit : slice0 (n_items self) E = Ok items).
  { unfold slice0. rewrite HE, Nat.min_l by exact Hle.
    replace (numel [d]) with d by (cbn; lia). reflexivity. }
  assert (LE : length (data E) = (n_entities self * d)%nat).
  { rewrite WE, HE. cbn [numel fold_right]. lia. }
  assert (Wit : wf items).
  { unfold wf, items. cbn [shape data numel fold_right]. rewrite length_firstn, LE. nia. }
  exists U, E, s1. eexists. split; [exact Hf|].
  rewrite (@full_sort_predict_refill self _ interaction U E items s1 Hnone Hf Hit eq_refl).
  set (s2 := set_restore (set_restore s1 (Some U) (restore_item_e s1)) (Some U) (Some items)).
  rewrite (@full_sort_predict_from_cache s2 interaction U items b d (n_users self)
             (n_items self) eq_refl eq_refl HU WU eq_refl Wit Hus Wus Ius).
  f_equal. f_equal. f_equal.
  apply flat_map_ext_in. intros i _. apply map_ext_in. intros j Hj. apply in_seq in Hj.
  f_equal. unfold row, items. cbn [shape data tl]. rewrite HE. cbn [tl].
  replace (numel [d]) with d by (cbn; lia).
  unfold chunk. rewrite skipn_firstn_comm, firstn_firstn. f_equal. nia.
Qed.

Lemma full_sort_predict_scores_witness :
  exists U E s1 self',
    forward Toy.model = Ok ((U, E), s1)
    /\ full_sort_predict Toy.model Toy.interaction
       = Ok (mkTensor [(2 * 3)%nat]
               (flat_map (fun i =>
                  map (fun j => dot (batch_row U Toy.users i) (row E j)) (seq 0 3))
                  (seq 0 2)),
             self').
Proof.
  apply (@full_sort_predict_scores Toy.model Toy.interaction 2 toy_consistent).
  - cbn. lia.
  - now left.
  - reflexivity.
  - reflexivity.
  - unfold ids_below. cbn. repeat constructor.
Defined.

(** ** The loss tuple of every call *)

Lemma cleared_model (self : CGKR) :
  (if is_some (restore_user_e self) || is_some (restore_item_e self)
   then set_restore self None None else self) = set_restore self None None.
Proof. destruct self as [a b c d e f g h i j k l m n o p q [ru|] [ri|] fc]; reflexivity. Qed.





(** ** The loss without embeddings handed over *)

(** Property X23.  Called without user embeddings, [calculate_loss] is
    [forward] on the model with its cache cleared followed by
    [calculate_loss] on the two matrices [forward] returns; the entity
    embeddings argument is ignored. *)
Theorem calculate_loss_runs_forward (self : CGKR) (interaction : Interaction)
    (E0 : option (tensor R)) :
  calculate_loss self interaction None E0
  = (' (U, E, s1) <- forward (set_restore self None None) ;;
     calculate_loss s1 interaction (Some U) (Some E)).
Proof.
  unfold calculate_loss at 1. rewrite cleared_model.
  destruct (forward (set_restore self None None)) as [[[U E] s1]|e] eqn:Hf;
    cbn [bind]; [|reflexivity].
  destruct (@forward_inv _ _ _ _ Hf) as [_ [_ [_ [Hru [Hri _]]]]].
  cbn [restore_user_e restore_item_e set_restore] in Hru, Hri.
  unfold calculate_loss. rewrite Hru, Hri. cbn [is_some orb bind]. reflexivity.
Qed.

Lemma Rsum_bounds (l : list R) (lo hi : R) :
  l <> [] -> Forall (fun x => lo < x < hi) l ->
  INR (length l) * lo < Rsum l < INR (length l) * hi.
Proof.
  intros Hne H. induction H as [|x l Hx Hl IH]; [contradiction|].
  cbn [Rsum fold_right]. fold (Rsum l). change (length (x :: l)) with (S (length l)).
  rewrite S_INR. destruct l as [|y l'].
  - cbn [Rsum fold_right length INR]. lra.
  - assert (Hne' : y :: l' <> []) by discriminate. specialize (IH Hne'). lra.
Qed.

(** Property X24.  The BPR loss of a non-empty batch is bounded: it lies
    strictly between [-1e-10] and [- ln 1e-10] (about 23.03), whatever the
    scores are. *)
Theorem get_bpr_loss_bounded (self : CGKR) (pos_scores neg_scores : tensor R) (B : nat) :
  shape pos_scores = [B] -> shape neg_scores = [B] -> wf pos_scores -> wf neg_scores ->
  (1 <= B)%nat ->
  exists loss,
    get_bpr_loss self pos_scores neg_scores = Ok loss
    /\ - 1e-10 < loss < - ln 1e-10.
Proof.
  intros Hp Hn Wp Wn HB. unfold get_bpr_loss, BPRLoss.
  rewrite (sub_vectors Hp Hn Wp Wn). cbn [bind]. eexists. split; [reflexivity|].
  unfold mean_all, pointwise, Rmean. cbn [data]. rewrite map_map.
  set (l := map _ (seq 0 B)).
  assert (Hlen : length l = B) by (unfold l; now rewrite length_map, length_seq).
  assert (Hb : INR (length l) * ln 1e-10 < Rsum l < INR (length l) * 1e-10).
  { apply Rsum_bounds.
    - intros Hnil. rewrite Hnil in Hlen. cbn in Hlen. lia.
    - apply Forall_forall. intros x Hx. apply in_map_iff in Hx. destruct Hx as [i [<- _]].
      apply log_sigmoid_bounds. }
  rewrite Hlen in *.
  assert (HB' : 0 < INR B) by (apply lt_0_INR; lia).
  assert (Hdiv : ln 1e-10 < Rsum l / INR B < 1e-10).
  { destruct Hb as [H1 H2]. split.
    - apply Rmult_lt_reg_r with (INR B); [exact HB'|].
      unfold Rdiv. rewrite Rmult_assoc, Rinv_l by lra. lra.
    - apply Rmult_lt_reg_r with (INR B); [exact HB'|].
      unfold Rdiv. rewrite Rmult_assoc, Rinv_l by lra. lra. }
  lra.
Qed.

Lemma get_bpr_loss_bounded_witness :
  exists loss,
    get_bpr_loss Toy.model Toy.scoresA Toy.scoresB = Ok loss
    /\ - 1e-10 < loss < - ln 1e-10.
Proof.
  apply (@get_bpr_loss_bounded Toy.model Toy.scoresA Toy.scoresB 2); try reflexivity. lia.
Defined.
